(** * graph_evolution/organism.py: a shallow embedding

    The module evolves weighted directed graphs.  An organism owns a
    genotype matrix of numbers in the unit interval, turned into an
    adjacency matrix by [sparsify], and offers mutation, crossover guided by
    a randomised graph walk, memoised error evaluation, feasibility checks
    and a Pareto comparison.

    Conventions of the embedding:
    - Python floats are idealised as exact rationals ([Q]); rounding error,
      infinities and NaN are outside the model, except in [Binary64], which
      holds [sparsify] in the arithmetic of doubles.  Python ints are [Z];
      [numNodes], sizes and the loop indices of [range(..)] are [nat].
    - Exceptions are values of [exn]; fallible pure code lives in [result],
      code that also updates a state lives in [M S].  A state change made
      before an exception is raised survives it, as in Python.
    - The generator of module [random] is a tape of raw integers read through
      a cursor; [random()], [randint] and [sample] reduce the raw integer to
      their own range, so every tape is a legal run of the generator and
      every outcome of the generator is produced by some tape. *)

From Stdlib Require Import String ZArith QArith Qabs Qround Lqa Lia Bool Arith List
  Permutation SpecFloat.
Import ListNotations.

Set Implicit Arguments.
Local Open Scope Q_scope.

(** ** Exceptions and the two monads *)

Inductive exn : Type :=
| ZeroDivisionError
| IndexError
| KeyError
| TypeError
| ValueError
| InvalidTraversal   (* Exception("invalid traversal algorithm") *)
| SystemExit.        (* exit(1) *)

Inductive result (A : Type) : Type :=
| Ok (a : A)
| Raise (e : exn).

Arguments Ok {A} a.
Arguments Raise {A} e.

Definition rbind {A B} (r : result A) (k : A -> result B) : result B :=
  match r with
  | Ok a => k a
  | Raise e => Raise e
  end.

Definition M (S A : Type) : Type := S -> result A * S.

Definition ret {S A} (a : A) : M S A := fun s => (Ok a, s).

Definition throw {S A} (e : exn) : M S A := fun s => (Raise e, s).

Definition bind {S A B} (m : M S A) (k : A -> M S B) : M S B :=
  fun s => match m s with
           | (Ok a, s') => k a s'
           | (Raise e, s') => (Raise e, s')
           end.

Definition lift {S A} (r : result A) : M S A := fun s => (r, s).

Definition get {S} : M S S := fun s => (Ok s, s).

Definition modify {S} (f : S -> S) : M S unit := fun s => (Ok tt, f s).

Declare Scope py_scope.
Delimit Scope py_scope with py.

Notation "x <- m ;; k" := (bind m (fun x => k))
  (at level 61, m at next level, right associativity) : py_scope.
Notation "m ;;; k" := (bind m (fun _ => k))
  (at level 61, right associativity) : py_scope.
Notation "x <~ r ;; k" := (rbind r (fun x => k))
  (at level 61, r at next level, right associativity) : py_scope.

(** ** Numbers *)

Definition Qltb (x y : Q) : bool := negb (Qle_bool y x).
Definition Qleb (x y : Q) : bool := Qle_bool x y.
Definition Qneqb (x y : Q) : bool := negb (Qeq_bool x y).

(** [x / y] on numbers: Python raises on a zero divisor. *)
Definition truediv (x y : Q) : result Q :=
  if Qeq_bool y 0 then Raise ZeroDivisionError else Ok (x / y).

(** The integer nearest to [q], ties going to the even neighbour. *)
Definition round_half_even (q : Q) : Z :=
  let f := Qfloor q in
  let r := q - inject_Z f in
  if Qltb r (1 # 2) then f
  else if Qltb (1 # 2) r then (f + 1)%Z
  else if Z.even f then f else (f + 1)%Z.

(** [round(x, 3)]. *)
Definition round3 (x : Q) : Q :=
  inject_Z (round_half_even (x * 1000)) / 1000.

(** Built-in [max(a, b)] and [min(a, b)]: the first argument wins ties. *)
Definition pymax (a b : Q) : Q := if Qltb a b then b else a.
Definition pymin (a b : Q) : Q := if Qltb b a then b else a.

(** ** sparsify *)

(** [sparsify] over exact rationals, the arithmetic of the organisms below;
    [Binary64.sparsify] is the same function over doubles. *)
Definition sparsify (x percentSparse : Q) (outputRange : Q * Q) : result Q :=
  (let percentNonZero := 1 - percentSparse in
   let neg := Qabs (fst outputRange) in
   let pos := snd outputRange in
   negPercent <~ truediv neg (pos + neg) ;;
   posPercent <~ truediv pos (pos + neg) ;;
   let a := negPercent * percentNonZero in
   let b := posPercent * percentNonZero in
   let t1 := a in
   let t2 := a + percentSparse in
   if Qleb x 0 then Ok (- neg)
   else if Qltb 0 x && Qleb x t1 then
     (q <~ truediv neg a ;; Ok (q * x - neg))
   else if Qltb t1 x && Qleb x t2 then Ok 0
   else if Qltb t2 x && Qleb x 1 then
     (q <~ truediv pos b ;; Ok (q * (x - t2)))
   else Ok pos)%py.

(** ** sparsify in the arithmetic of doubles *)

Module Binary64.

(** A double is a [spec_float] of the Standard Library, with the precision
    and the exponent range of binary64; every operation rounds to the
    nearest double, ties to even. *)
Definition float : Type := spec_float.
Definition prec : Z := 53.
Definition emax : Z := 1024.

Definition add : float -> float -> float := SFadd prec emax.
Definition sub : float -> float -> float := SFsub prec emax.
Definition mul : float -> float -> float := SFmul prec emax.
Definition div : float -> float -> float := SFdiv prec emax.
Definition abs : float -> float := SFabs.
Definition opp : float -> float := SFopp.
Definition leb : float -> float -> bool := SFleb.
Definition ltb : float -> float -> bool := SFltb.
Definition eqb : float -> float -> bool := SFeqb.

(** [float(z)] for a Python int. *)
Definition of_int (z : Z) : float := binary_normalize prec emax z 0 false.
Definition zero : float := of_int 0.
Definition one : float := of_int 1.


(** [x / y]: Python raises on a zero divisor of either sign. *)
Definition truediv (x y : float) : result float :=
  if eqb y zero then Raise ZeroDivisionError else Ok (div x y).

(** [sparsify], statement by statement as above; the ints of the source
    ([1], [0] and an integer range) enter as the doubles they convert to. *)
Definition sparsify (x percentSparse : float) (outputRange : float * float)
  : result float :=
  (let percentNonZero := sub one percentSparse in
   let neg := abs (fst outputRange) in
   let pos := snd outputRange in
   negPercent <~ truediv neg (add pos neg) ;;
   posPercent <~ truediv pos (add pos neg) ;;
   let a := mul negPercent percentNonZero in
   let b := mul posPercent percentNonZero in
   let t1 := a in
   let t2 := add a percentSparse in
   if leb x zero then Ok (opp neg)
   else if ltb zero x && leb x t1 then
     (q <~ truediv neg a ;; Ok (sub (mul q x) neg))
   else if ltb t1 x && leb x t2 then Ok zero
   else if ltb t2 x && leb x one then
     (q <~ truediv pos b ;; Ok (mul q (sub x t2)))
   else Ok pos)%py.


End Binary64.

(** ** Lists, matrices and dictionaries *)

(** A matrix is a list of rows; each row is a list of its own (no two rows
    share storage), so [deepcopy] is the identity on values. *)
Definition matrix : Type := list (list Q).

(** [l[i]] for an index that is not negative. *)
Definition getitem {A} (l : list A) (i : nat) : result A :=
  match nth_error l i with
  | Some a => Ok a
  | None => Raise IndexError
  end.

Fixpoint replace_nth {A} (l : list A) (i : nat) (v : A) : list A :=
  match l, i with
  | [], _ => []
  | _ :: t, O => v :: t
  | h :: t, S k => h :: replace_nth t k v
  end.

(** [l[i] = v]. *)
Definition setitem {A} (l : list A) (i : nat) (v : A) : result (list A) :=
  if (i <? length l)%nat then Ok (replace_nth l i v) else Raise IndexError.

(** [m[i][j]] and [m[i][j] = v]. *)
Definition getitem2 (m : matrix) (i j : nat) : result Q :=
  (row <~ getitem m i ;; getitem row j)%py.

Definition setitem2 (m : matrix) (i j : nat) (v : Q) : result matrix :=
  (row <~ getitem m i ;;
   row' <~ setitem row j v ;;
   setitem m i row')%py.

(** A list comprehension whose element expression can raise. *)
Fixpoint rmap {A B} (f : A -> result B) (l : list A) : result (list B) :=
  match l with
  | [] => Ok []
  | a :: t => (b <~ f a ;; bs <~ rmap f t ;; Ok (b :: bs))%py
  end.

(** A list comprehension whose filter can raise. *)
Fixpoint rfilter {A} (f : A -> result bool) (l : list A) : result (list A) :=
  match l with
  | [] => Ok []
  | a :: t =>
      (keep <~ f a ;; rest <~ rfilter f t ;;
       Ok (if keep then a :: rest else rest))%py
  end.

(** [for x in l: acc = body x acc], in a state monad. *)
Fixpoint foldM {S A B} (body : A -> B -> M S B) (l : list A) (acc : B)
  : M S B :=
  match l with
  | [] => ret acc
  | a :: t => (acc' <- body a acc ;; foldM body t acc')%py
  end.

(** [[m for _ in range(n)]]. *)
Fixpoint replicateM {S A} (n : nat) (m : M S A) : M S (list A) :=
  match n with
  | O => ret []
  | S k => (a <- m ;; rest <- replicateM k m ;; ret (a :: rest))%py
  end.

Definition range (n : nat) : list nat := seq 0 n.

Definition Zsum (l : list Z) : Z := fold_right Z.add 0%Z l.

(** [[sum(odds[:k+1]) for k in range(len(odds))]]. *)
Definition thresholds (odds : list Z) : list Z :=
  map (fun k => Zsum (firstn (k + 1) odds)) (range (length odds)).

(** A [dict] keeps its keys in insertion order, each key once. *)
Definition dict (V : Type) : Type := list (string * V).

Fixpoint dict_get {V} (d : dict V) (k : string) : option V :=
  match d with
  | [] => None
  | (k', v) :: t => if String.eqb k k' then Some v else dict_get t k
  end.

Definition dict_mem {V} (d : dict V) (k : string) : bool :=
  match dict_get d k with Some _ => true | None => false end.

Fixpoint dict_set {V} (d : dict V) (k : string) (v : V) : dict V :=
  match d with
  | [] => [(k, v)]
  | (k', v') :: t =>
      if String.eqb k k' then (k', v) :: t else (k', v') :: dict_set t k v
  end.

Definition keys {V} (d : dict V) : list string := map fst d.

(** [d[k]]. *)
Definition dict_item {V} (d : dict V) (k : string) : result V :=
  match dict_get d k with
  | Some v => Ok v
  | None => Raise KeyError
  end.

(** ** The random module *)

(** The process state outside any organism: the class attribute
    [Organism.nextID] and the generator. *)
Record World : Type := mkWorld {
  nextID : Z;
  tape : nat -> Z;
  cursor : nat
}.

Definition draw : M World Z :=
  fun w => (Ok (tape w (cursor w)),
            mkWorld (nextID w) (tape w) (S (cursor w))).

(** [random()]: a multiple of 2^-53 in [0, 1). *)
Definition random : M World Q :=
  (raw <- draw ;; ret (Qmake (raw mod 2 ^ 53) (2 ^ 53)))%py.

(** [randint(a, b)]: an integer of [a, b]; an empty range raises. *)
Definition randint (a b : Z) : M World Z :=
  if (b <? a)%Z then throw ValueError
  else (raw <- draw ;; ret (a + raw mod (b - a + 1))%Z)%py.

(** [sample(population, k=1)[0]]. *)
Definition sample1 (population : list nat) : M World nat :=
  match population with
  | [] => throw ValueError
  | d :: _ =>
      (raw <- draw ;;
       ret (nth (Z.to_nat (raw mod Z.of_nat (length population)))
                population d))%py
  end.

(** ** Organism *)

(** What an evaluator returns and what a caller passes as [target] or
    [_range]: a number, a sequence of numbers (list or tuple), or [None]. *)
Inductive value : Type :=
| VNum (q : Q)
| VSeq (l : list Q)
| VNone.

Record Organism : Type := mkOrganism {
  id : Z;
  nsga_rank : option Z;
  nsga_distance : option Q;
  age : Z;
  clock : Z;
  genotypeMatrix : matrix;
  numNodes : nat;
  sparsity : Q;
  weightRange : Q * Q;
  errors : dict Q;
  properties : dict value;
  adjacencyMatrix : matrix;
  valid : bool;
  numInteractions : nat;
  numPositive : nat;
  numNegative : nat
}.

(** [sum([sum([1 for val in row if p(val)]) for row in m])]. *)
Definition count_cells (p : Q -> bool) (m : matrix) : nat :=
  list_sum (map (fun row => list_sum (map (fun _ => 1%nat) (filter p row))) m).

(** The constructor of [Organism]. *)
Definition __init__ (numNodes : nat) (sparsity : Q) (weightRange : Q * Q)
    (genome : option matrix) (age : Z) : M World Organism :=
  (w <- get ;;
   let id := nextID w in
   modify (fun w' => mkWorld (nextID w' + 1) (tape w') (cursor w')) ;;;
   genotypeMatrix <-
     match genome with
     | None => replicateM numNodes (replicateM numNodes random)
     | Some g => ret g
     end ;;
   adjacencyMatrix <-
     lift (rmap (rmap (fun val =>
                         v <~ sparsify val sparsity weightRange ;;
                         Ok (round3 v)))
                genotypeMatrix) ;;
   ret {| id := id;
          nsga_rank := None;
          nsga_distance := None;
          age := age;
          clock := (-1);
          genotypeMatrix := genotypeMatrix;
          numNodes := numNodes;
          sparsity := sparsity;
          weightRange := weightRange;
          errors := [];
          properties := [];
          adjacencyMatrix := adjacencyMatrix;
          valid := true;
          numInteractions := count_cells (fun val => Qneqb val 0) adjacencyMatrix;
          numPositive := count_cells (fun val => Qltb 0 val) adjacencyMatrix;
          numNegative := count_cells (fun val => Qltb val 0) adjacencyMatrix |})%py.

(** ** makeMutatedCopy *)

(** The body of the two nested loops, for the cell [(i, j)]. *)
Definition mutate_cell (numNodes : nat) (mutationRate : Q)
    (mutationOdds mutationThresholds : list Z) (i j : nat)
    (newGenome : matrix) : M World matrix :=
  (r <- random ;;
   if Qleb r mutationRate then
     mutationType <- randint 1 (Zsum mutationOdds) ;;
     t0 <- lift (getitem mutationThresholds 0) ;;
     if (mutationType <=? t0)%Z then
       (* point mutation *)
       v <- random ;;
       lift (setitem2 newGenome i j v)
     else
       t1 <- lift (getitem mutationThresholds 1) ;;
       if (mutationType <=? t1)%Z then
         (* offset mutation *)
         r' <- random ;;
         let offset := r' / 4 - 1 / 8 in
         old <- lift (getitem2 newGenome i j) ;;
         lift (setitem2 newGenome i j (pymin 1 (pymax 0 (old + offset))))
       else
         t2 <- lift (getitem mutationThresholds 2) ;;
         if (mutationType <=? t2)%Z then
           (* sign flip mutation *)
           old <- lift (getitem2 newGenome i j) ;;
           lift (setitem2 newGenome i j (1 - old))
         else
           t3 <- lift (getitem mutationThresholds 3) ;;
           if (mutationType <=? t3)%Z then
             (* weight swap mutation *)
             edge1 <- lift (getitem2 newGenome i j) ;;
             iswap <- randint 0 (Z.of_nat numNodes - 1) ;;
             jswap <- randint 0 (Z.of_nat numNodes - 1) ;;
             swapped <- lift (getitem2 newGenome (Z.to_nat iswap) (Z.to_nat jswap)) ;;
             g <- lift (setitem2 newGenome i j swapped) ;;
             lift (setitem2 g (Z.to_nat iswap) (Z.to_nat jswap) edge1)
           else
             (* print("ERROR: no mutation selected"); exit(1) *)
             throw SystemExit
   else ret newGenome)%py.

Definition makeMutatedCopy (self : Organism) (mutationRate : Q)
    (mutationOdds : list Z) : M World Organism :=
  (let mutationThresholds := thresholds mutationOdds in
   let newGenome := genotypeMatrix self in
   newGenome <-
     foldM (fun i g =>
              foldM (fun j g' =>
                       mutate_cell (numNodes self) mutationRate mutationOdds
                                   mutationThresholds i j g')
                    (range (numNodes self)) g)
           (range (numNodes self)) newGenome ;;
   r <- random ;;
   newSparsity <-
     (if Qltb mutationRate r then ret (sparsity self)
      else r' <- random ;;
           ret (pymin 1 (pymax 0 (sparsity self + r' / 4 - 1 / 8)))) ;;
   __init__ (numNodes self) newSparsity (weightRange self)
                 (Some newGenome) (age self))%py.

(** ** xover_traversal_helper *)

Definition mem (i : nat) (l : list nat) : bool := existsb (Nat.eqb i) l.

Definition is_empty {A} (l : list A) : bool :=
  match l with [] => true | _ => false end.

(** [[i for i in range(N) if other.adjacencyMatrix[currentNode][i] != 0
       and i not in visited and i not in completed]]. *)
Definition candidates (other : Organism) (N currentNode : nat)
    (visited completed : list nat) : result (list nat) :=
  rfilter (fun i =>
             row <~ getitem (adjacencyMatrix other) currentNode ;;
             weight <~ getitem row i ;;
             Ok (Qneqb weight 0 && negb (mem i visited) && negb (mem i completed)))%py
          (range N).

(** [visited.pop()] for "DFS", [visited.popleft()] for "BFS"; any other
    selector leaves the node and the frontier as they are. *)
Definition pop_frontier (algorithm : string) (currentNode : nat)
    (visited : list nat) : result (nat * list nat) :=
  if (algorithm =? "DFS")%string then
    match visited with
    | [] => Raise IndexError
    | _ => Ok (last visited currentNode, removelast visited)
    end
  else if (algorithm =? "BFS")%string then
    match visited with
    | [] => Raise IndexError
    | v :: rest => Ok (v, rest)
    end
  else Ok (currentNode, visited).

(** The state of the walk between two statements. *)
Record Walk : Type := mkWalk {
  currentNode : nat;
  visited : list nat;       (* the frontier, left to right *)
  completed : list nat;
  available : list nat
}.

(** The inner [while]: every turn appends to [completed], and the guard
    asks for [len(completed) < N], so [N - len(completed)] turns are all it
    can take; [fuel] counts them down (see [retreat_fuel_enough]). *)
Fixpoint retreat (fuel : nat) (algorithm : string) (other : Organism)
    (N : nat) (s : Walk) : result Walk :=
  match fuel with
  | O => Ok s
  | S fuel' =>
      if is_empty (available s) && (length (completed s) <? N)%nat
         && negb (is_empty (visited s)) then
        (let completed' := completed s ++ [currentNode s] in
         popped <~ pop_frontier algorithm (currentNode s) (visited s) ;;
         let '(currentNode', visited') := popped in
         available' <~ candidates other N currentNode' visited' completed' ;;
         retreat fuel' algorithm other N
                 (mkWalk currentNode' visited' completed' available'))%py
      else Ok s
  end.

(** The outer [while]; [fuel] bounds the number of turns, see
    [walk_fuel_enough] for the bound that is never reached. *)
Fixpoint walk (fuel : nat) (algorithm : string) (other : Organism)
    (rateFromOther : Q) (N : nat) (s : Walk) : M World Walk :=
  match fuel with
  | O => ret s
  | S fuel' =>
      (r <- random ;;
       if Qleb r rateFromOther && (length (completed s) <? N)%nat
          && negb (is_empty (available s)) then
         currentNode' <- sample1 (available s) ;;
         let visited' := visited s ++ [currentNode'] in
         available' <-
           lift (candidates other N currentNode' visited' (completed s)) ;;
         s' <- lift (retreat (N - length (completed s)) algorithm other N
                             (mkWalk currentNode' visited' (completed s)
                                     available')) ;;
         walk fuel' algorithm other rateFromOther N s'
       else ret s)%py
  end.

Definition walk_bound (N : nat) : nat := 3 * N + 1.

Definition xover_traversal_helper (other : Organism) (rateFromOther : Q)
    (algorithm : string) : M World (list nat) :=
  (let N := length (genotypeMatrix other) in
   if (algorithm =? "DFS")%string || (algorithm =? "BFS")%string then
     (* [currentNode] is unbound until the first turn of the loop *)
     s <- walk (walk_bound N) algorithm other rateFromOther N
               (mkWalk 0 [] [] (range N)) ;;
     ret (visited s ++ completed s)
   else throw InvalidTraversal)%py.

(** ** makeCrossedCopyWith *)

(** The age bookkeeping of one parent. *)
Definition tick (o : Organism) (generation : Z) : Organism :=
  if (clock o <? generation)%Z then
    {| id := id o; nsga_rank := nsga_rank o; nsga_distance := nsga_distance o;
       age := age o + 1; clock := generation;
       genotypeMatrix := genotypeMatrix o; numNodes := numNodes o;
       sparsity := sparsity o; weightRange := weightRange o;
       errors := errors o; properties := properties o;
       adjacencyMatrix := adjacencyMatrix o; valid := valid o;
       numInteractions := numInteractions o; numPositive := numPositive o;
       numNegative := numNegative o |}
  else o.

(** [newGenome[i] = deepcopy(other.genotypeMatrix[i])]. *)
Definition take_row (other : Organism) (i : nat) (newGenome : matrix)
  : result matrix :=
  (row <~ getitem (genotypeMatrix other) i ;; setitem newGenome i row)%py.

(** The part of [makeCrossedCopyWith] after the age bookkeeping; [self] and
    [other] are the parents as that bookkeeping left them. *)
Definition cross (self other : Organism) (rateFromOther : Q)
    (crossOdds : list Z) : M World Organism :=
  (let crossoverThresholds := thresholds crossOdds in
   crossoverType <- randint 1 (Zsum crossOdds) ;;
   let newGenome := genotypeMatrix self in
   t0 <- lift (getitem crossoverThresholds 0) ;;
   newGenome <-
     (if (crossoverType <=? t0)%Z then
        (* binary node crossover *)
        foldM (fun i g =>
                 r <- random ;;
                 if Qleb r rateFromOther then lift (take_row other i g)
                 else ret g)
              (range (numNodes self)) newGenome
      else
        t1 <- lift (getitem crossoverThresholds 1) ;;
        if (crossoverType <=? t1)%Z then
          (* depth-first-traversal crossover *)
          crossNodes <- xover_traversal_helper other rateFromOther "DFS" ;;
          foldM (fun i g => lift (take_row other i g)) crossNodes newGenome
        else
          t2 <- lift (getitem crossoverThresholds 2) ;;
          if (crossoverType <=? t2)%Z then
            (* breadth-first-traversal crossover *)
            crossNodes <- xover_traversal_helper other rateFromOther "BFS" ;;
            foldM (fun i g => lift (take_row other i g)) crossNodes newGenome
          else ret newGenome) ;;
   __init__ (numNodes self) (sparsity self) (weightRange self)
                 (Some newGenome) (Z.max (age self) (age other)))%py.

(** What a call leaves behind: the outcome, both parents and the world.
    When both arguments are one object the two parents returned are equal,
    as the second test of the clock then sees the first update. *)
Record Crossed : Type := mkCrossed {
  child : result Organism;
  self_after : Organism;
  other_after : Organism;
  world_after : World
}.

Definition makeCrossedCopyWith (self other : Organism) (rateFromOther : Q)
    (crossOdds : list Z) (generation : Z) (w : World) : Crossed :=
  let self' := tick self generation in
  let other' := tick other generation in
  let '(r, w') := cross self' other' rateFromOther crossOdds w in
  mkCrossed r self' other' w'.

(** ** Properties, errors and feasibility *)

Definition set_properties (p : dict value) (o : Organism) : Organism :=
  {| id := id o; nsga_rank := nsga_rank o; nsga_distance := nsga_distance o;
     age := age o; clock := clock o;
     genotypeMatrix := genotypeMatrix o; numNodes := numNodes o;
     sparsity := sparsity o; weightRange := weightRange o;
     errors := errors o; properties := p;
     adjacencyMatrix := adjacencyMatrix o; valid := valid o;
     numInteractions := numInteractions o; numPositive := numPositive o;
     numNegative := numNegative o |}.

Definition set_errors (e : dict Q) (o : Organism) : Organism :=
  {| id := id o; nsga_rank := nsga_rank o; nsga_distance := nsga_distance o;
     age := age o; clock := clock o;
     genotypeMatrix := genotypeMatrix o; numNodes := numNodes o;
     sparsity := sparsity o; weightRange := weightRange o;
     errors := e; properties := properties o;
     adjacencyMatrix := adjacencyMatrix o; valid := valid o;
     numInteractions := numInteractions o; numPositive := numPositive o;
     numNegative := numNegative o |}.

(** [self.valid = False]. *)
Definition invalidate (o : Organism) : Organism :=
  {| id := id o; nsga_rank := nsga_rank o; nsga_distance := nsga_distance o;
     age := age o; clock := clock o;
     genotypeMatrix := genotypeMatrix o; numNodes := numNodes o;
     sparsity := sparsity o; weightRange := weightRange o;
     errors := errors o; properties := properties o;
     adjacencyMatrix := adjacencyMatrix o; valid := false;
     numInteractions := numInteractions o; numPositive := numPositive o;
     numNegative := numNegative o |}.

(** [len(v)], [v[i]] and [a, b = v] on a [value]. *)
Definition len (v : value) : result nat :=
  match v with
  | VSeq l => Ok (length l)
  | _ => Raise TypeError
  end.

Definition index (v : value) (i : nat) : result Q :=
  match v with
  | VSeq l => getitem l i
  | _ => Raise TypeError
  end.

Definition unpack2 (v : value) : result (Q * Q) :=
  match v with
  | VSeq [a; b] => Ok (a, b)
  | VSeq _ => Raise ValueError
  | _ => Raise TypeError
  end.

(** A number where one is required: arithmetic on a sequence or on [None]
    raises. *)
Definition number (v : value) : result Q :=
  match v with
  | VNum q => Ok q
  | _ => Raise TypeError
  end.

Definition is_none (v : value) : bool :=
  match v with VNone => true | _ => false end.

(** [sum(l)]. *)
Definition Qsum (l : list Q) : Q := fold_left Qplus l 0.

(** [s.endswith(suffix)]. *)
Definition endswith (s suffix : string) : bool :=
  let ls := String.length s in
  let lx := String.length suffix in
  (lx <=? ls)%nat && (substring (ls - lx) lx s =? suffix)%string.

(** The default values of the two [eps] parameters. *)
Definition eps_distribution : Q := 2 # 10.
Definition eps_overlap : Q := 75 # 100.

Section Evaluation.

(** [ef.functions], the registry of evaluators of module [eval_functions],
    each called as [f(None, self)]; an evaluator reads the organism and
    writes nothing. *)
Variable functions : string -> option (Organism -> result value).

(** [intersecting_area(mu1, sigma1, mu2, sigma2)]: the numerical integral
    (scipy's [quad]) of the minimum of two normal densities. *)
Variable intersecting_area : Q -> Q -> Q -> Q -> Q.

Definition check_constraints_distribution (dist mean std : value) (eps : Q)
  : M Organism unit :=
  (let sigma := 2 in
   n <- lift (len dist) ;;
   flags <- lift (rmap (fun i =>
                          value <~ index dist i ;;
                          m <~ index mean i ;;
                          s <~ index std i ;;
                          Ok (Qltb value (m - sigma * s)
                              || Qltb (m + sigma * s) value))
                       (range n)) ;;
   let num_invalid := length (filter (fun b : bool => b) flags) in
   ratio <- lift (truediv (inject_Z (Z.of_nat num_invalid))
                          (inject_Z (Z.of_nat n))) ;;
   if Qltb eps ratio then modify invalidate else ret tt)%py.

Definition check_constraint (mean target_mean std target_std eps : Q)
  : M Organism unit :=
  (let intersection := intersecting_area mean std target_mean target_std in
   iou <- lift (truediv intersection (2 - intersection)) ;;
   if Qltb iou eps then modify invalidate else ret tt)%py.

Definition getProperty (propertyName : string) : M Organism value :=
  (self <- get ;;
   (if negb (dict_mem (properties self) propertyName) then
      f <- lift (match functions propertyName with
                 | Some f => Ok f
                 | None => Raise KeyError
                 end) ;;
      v <- lift (f self) ;;
      modify (fun self' =>
                set_properties (dict_set (properties self') propertyName v) self')
    else ret tt) ;;;
   self' <- get ;;
   lift (dict_item (properties self') propertyName))%py.

(** [self.errors[propertyName] = e]. *)
Definition store_error (propertyName : string) (e : Q) : M Organism unit :=
  modify (fun self => set_errors (dict_set (errors self) propertyName e) self).

Definition getError (propertyName : string) (target _range : value)
  : M Organism Q :=
  (self <- get ;;
   (if negb (dict_mem (errors self) propertyName) then
      if endswith propertyName "_distribution" then
        dist <- getProperty propertyName ;;
        n <- lift (len dist) ;;
        terms <- lift (rmap (fun i =>
                               d <~ index dist i ;;
                               t <~ index target i ;;
                               Ok ((d - t) ^ 2))
                            (range n)) ;;
        store_error propertyName (Qsum terms) ;;;
        if negb (is_none _range) then
          (* update feasibility *)
          check_constraints_distribution dist target _range eps_distribution
        else ret tt
      else if (propertyName =? "topology")%string
              || (propertyName =? "weights")%string then
        pair <- getProperty propertyName ;;
        ms <- lift (unpack2 pair) ;;
        let '(mean, std) := ms in
        t <- lift (number target) ;;
        let mean_error := (mean - t) ^ 2 in
        r <- lift (number _range) ;;
        let std_error := (std - r) ^ 2 in
        store_error propertyName (mean_error + std_error) ;;;
        if negb (is_none _range) then
          (* update feasibility *)
          check_constraint mean t std r eps_overlap
        else ret tt
      else
        p <- getProperty propertyName ;;
        v <- lift (number p) ;;
        t <- lift (number target) ;;
        store_error propertyName ((v - t) ^ 2)
    else ret tt) ;;;
   self' <- get ;;
   lift (dict_item (errors self') propertyName))%py.

End Evaluation.

(** ** Pareto comparison *)

(** The loop of [__gt__] over the keys of [self.errors] still to visit. *)
Fixpoint gt_loop (props : list string) (self_errors other_errors : dict Q)
    (someSelfBetter : bool) : result bool :=
  match props with
  | [] => Ok someSelfBetter
  | prop :: rest =>
      (self_error <~ dict_item self_errors prop ;;
       other_error <~ dict_item other_errors prop ;;
       if Qltb other_error self_error then Ok false
       else if Qltb self_error other_error then
         gt_loop rest self_errors other_errors true
       else gt_loop rest self_errors other_errors someSelfBetter)%py
  end.

Definition __gt__ (self other : Organism) : result bool :=
  gt_loop (keys (errors self)) (errors self) (errors other) false.

(** [self < other]: the class defines no [__lt__], so Python evaluates the
    reflected [other.__gt__(self)]. *)
Definition less_than (self other : Organism) : result bool := __gt__ other self.

(** [not (self < other or self > other)]. *)
Definition __eq__ (self other : Organism) : result bool :=
  (lt <~ less_than self other ;;
   if lt then Ok false
   else gt <~ __gt__ self other ;; Ok (negb gt))%py.

(** ** Shapes *)

(** A matrix of [n] rows of [n] cells. *)
Definition square (n : nat) (m : matrix) : Prop :=
  length m = n /\ Forall (fun row => length row = n) m.

(** Some row of the matrix holds a cell. *)
Definition has_cell (g : matrix) : bool :=
  existsb (fun row => negb (is_empty row)) g.

(** ** Comparing error maps *)

(** Every key of [a] is a key of [b]. *)
Definition keys_within {V} (a b : dict V) : bool :=
  forallb (fun k => dict_mem b k) (keys a).

(** Both maps hold the same keys, in whatever order. *)
Definition same_keys {V} (a b : dict V) : bool :=
  keys_within a b && keys_within b a.

(** Both maps hold the same keys with the same errors. *)
Definition same_errors (a b : dict Q) : bool :=
  same_keys a b
  && forallb (fun k => match dict_get a k, dict_get b k with
                       | Some x, Some y => Qeq_bool x y
                       | _, _ => false
                       end) (keys a).

(** ** Vocabulary of the statements *)

(** Whatever the outcome, the state a computation leaves is related by [R]
    to the state it started from. *)
Definition keeps {S A} (R : S -> S -> Prop) (m : M S A) : Prop :=
  forall s, R s (snd (m s)).

(** The flag [valid] is as it was. *)
Definition valid_same (before after : Organism) : Prop :=
  valid after = valid before.

(** The flag [valid] has not gone from false to true. *)
Definition valid_not_restored (before after : Organism) : Prop :=
  valid after = true -> valid before = true.

(** The computation never ends in the exception [e]. *)
Definition never_raises {S A} (e : exn) (m : M S A) : Prop :=
  forall s, fst (m s) <> Raise e.

(** A fallible value raises nothing but exceptions that satisfy [P]. *)
Definition raises_only {A} (P : exn -> Prop) (r : result A) : Prop :=
  forall e, r = Raise e -> P e.

(** The exceptions of an index out of range, of an empty range of draws and
    of a division by zero. *)
Definition crossover_error (e : exn) : Prop :=
  e = ValueError \/ e = IndexError \/ e = ZeroDivisionError.

(** The rows of [g'] come from [g] or, at the same index, from [donor]. *)
Definition rows_from (g donor g' : matrix) : Prop :=
  length g' = length g /\
  forall i, nth_error g' i = nth_error g i \/ nth_error g' i = nth_error donor i.

(** What the walk maintains between two turns of its outer loop: the
    frontier holds distinct nodes of the graph, and the candidates are nodes
    of the graph outside the frontier. *)
Definition walk_inv (N : nat) (s : Walk) : Prop :=
  NoDup (visited s) /\
  (forall x, In x (visited s) -> (x < N)%nat) /\
  (forall x, In x (available s) -> (x < N)%nat /\ ~ In x (visited s)).

(** A quantity that every turn of the outer loop decreases. *)
Definition walk_measure (N : nat) (s : Walk) : nat :=
  2 * (N - length (completed s)) + (N - length (visited s)).

(** Every node that the walk holds is a node of the graph. *)
Definition walk_in_range (N : nat) (s : Walk) : Prop :=
  (forall x, In x (visited s) -> (x < N)%nat) /\
  (forall x, In x (completed s) -> (x < N)%nat) /\
  (forall x, In x (available s) -> (x < N)%nat).

(** The world after [n] draws. *)
Definition advance (n : nat) (w : World) : World :=
  mkWorld (nextID w) (tape w) (cursor w + n).

(** No call of [random()] on this tape returns exactly 0.0. *)
Definition positive_draws (w : World) : Prop :=
  forall n, (tape w n mod 2 ^ 53 <> 0)%Z.

(** ** Vocabulary of the further properties *)

(** Two matrices of the same shape whose cells are related by [R]. *)
Definition cells_related (R : Q -> Q -> Prop) (m m' : matrix) : Prop :=
  Forall2 (Forall2 R) m m'.

(** The lengths of the rows. *)
Definition shape (m : matrix) : list nat := map (@length Q) m.

(** A property of genomes that every write of [makeMutatedCopy] keeps. *)
Definition kept_by_writes (odds : list Z) (P : matrix -> Prop) : Prop :=
  forall N rate i j g w g' w',
    P g -> mutate_cell N rate odds (thresholds odds) i j g w = (Ok g', w') -> P g'.

(** A gene or a sparsity of the unit interval. *)
Definition unit_gene (q : Q) : Prop := 0 <= q <= 1.


(** Every call of [random()] on this tape returns more than [rate]. *)
Definition draws_above (rate : Q) (w : World) : Prop :=
  forall n, rate < Qmake (tape w n mod 2 ^ 53) (2 ^ 53).


(** Everything but the two caches and the flag [valid] is as it was. *)
Definition frame_same (before after : Organism) : Prop :=
  id after = id before /\ nsga_rank after = nsga_rank before /\
  nsga_distance after = nsga_distance before /\
  age after = age before /\ clock after = clock before /\
  genotypeMatrix after = genotypeMatrix before /\
  numNodes after = numNodes before /\ sparsity after = sparsity before /\
  weightRange after = weightRange before /\
  adjacencyMatrix after = adjacencyMatrix before /\
  numInteractions after = numInteractions before /\
  numPositive after = numPositive before /\
  numNegative after = numNegative before.

(** Every entry of [d] is an entry of [d'], except perhaps under [name]. *)
Definition entries_kept {V} (name : option string) (d d' : dict V) : Prop :=
  forall k v, name <> Some k -> dict_get d k = Some v -> dict_get d' k = Some v.

(** The cache of properties keeps its entries, and so does the cache of
    errors, except perhaps under [name]. *)
Definition caches_kept (name : option string) (before after : Organism) : Prop :=
  entries_kept name (errors before) (errors after) /\
  entries_kept None (properties before) (properties after).

(** The error cached under [name] is as it was or is not negative. *)
Definition error_signed (name : string) (before after : Organism) : Prop :=
  dict_get (errors after) name = dict_get (errors before) name \/
  exists e, dict_get (errors after) name = Some e /\ 0 <= e.


(** The band of the distribution test and the order behind [>]. *)

(** The point [x] lies outside the band of two deviations [s] around [m]. *)
Definition out_of_band (x m s : Q) : bool :=
  Qltb x (m - 2 * s) || Qltb (m + 2 * s) x.

(** The number of positions of [ds] whose point lies outside its band. *)
Definition outliers (ds ms ss : list Q) : nat :=
  length (filter (fun b : bool => b)
                 (map (fun p => out_of_band (fst p) (fst (snd p)) (snd (snd p)))
                      (combine ds (combine ms ss)))).

(** On the key [k], the error of [a] is at most, or less than, that of [b];
    a key that one of the maps lacks counts as a failure. *)
Definition error_le (a b : dict Q) (k : string) : bool :=
  match dict_get a k, dict_get b k with
  | Some x, Some y => Qleb x y
  | _, _ => false
  end.

Definition error_lt (a b : dict Q) (k : string) : bool :=
  match dict_get a k, dict_get b k with
  | Some x, Some y => Qltb x y
  | _, _ => false
  end.

(** [a] is nowhere worse than [b] and somewhere better, over the keys of
    [a]. *)
Definition dominates (a b : dict Q) : bool :=
  forallb (error_le a b) (keys a) && existsb (error_lt a b) (keys a).

(** The order of the doubles. *)




(** * Concrete inputs *)

(** A tape that yields the integers of [l], then zeros. *)
Definition tape_of (l : list Z) : nat -> Z := fun n => nth n l 0%Z.

Definition world_of (l : list Z) : World := mkWorld 0 (tape_of l) 0.

(** An organism without nodes, built by [Organism(0, 0, (0, 1), [])]. *)
Definition no_nodes : Organism :=
  mkOrganism 0 None None 0 (-1) [] 0 0 (0, 1) [] [] [] true 0 0 0.

(** The organism that a constructor call returns ([no_nodes] if it raises). *)
Definition built (r : result Organism * World) : Organism :=
  match fst r with
  | Ok o => o
  | Raise _ => no_nodes
  end.

(** One node, no edge: [Organism(1, 0.5, (-1, 1), [[0.5]])]. *)
Definition one_node : Organism :=
  Eval vm_compute in
    built (__init__ 1 (1 # 2) (-1, 1) (Some [[1 # 2]]) 0 (world_of [])).

(** Two nodes: [Organism(2, 0.5, (-1, 1), [[0.25, 0.75], [0.5, 0.5]])]. *)
Definition two_nodes : Organism :=
  Eval vm_compute in
    built (__init__ 2 (1 # 2) (-1, 1)
                         (Some [[1 # 4; 3 # 4]; [1 # 2; 1 # 2]]) 0
                         (mkWorld 1 (tape_of []) 0)).

(** Three nodes and the single edge 0 -> 1. *)
Definition one_edge : Organism :=
  Eval vm_compute in
    built (__init__ 3 (1 # 2) (-1, 1)
                         (Some [[1 # 2; 9 # 10; 1 # 2];
                                [1 # 2; 1 # 2; 1 # 2];
                                [1 # 2; 1 # 2; 1 # 2]]) 0
                         (world_of [])).

(** Three nodes and the edges 0 -> 1 and 0 -> 2. *)
Definition two_edges : Organism :=
  Eval vm_compute in
    built (__init__ 3 (1 # 2) (-1, 1)
                         (Some [[1 # 2; 9 # 10; 9 # 10];
                                [1 # 2; 1 # 2; 1 # 2];
                                [1 # 2; 1 # 2; 1 # 2]]) 0
                         (world_of [])).

(** A registry with one evaluator, which measures mean 1 and std 1. *)
Definition registry (name : string) : option (Organism -> result value) :=
  if (name =? "topology")%string then Some (fun _ => Ok (VSeq [1; 1]))
  else None.

(** Two stand-ins for the overlap integral: full overlap and none. *)
Definition full_overlap (mu1 sigma1 mu2 sigma2 : Q) : Q := 1.
Definition no_overlap (mu1 sigma1 mu2 sigma2 : Q) : Q := 0.

(** [one_node] after [getError("topology", 1, 1)]. *)
Definition scored : Organism :=
  Eval vm_compute in
    snd (getError registry full_overlap "topology" (VNum 1) (VNum 1) one_node).

(** Two organisms that differ by their errors only. *)
Definition with_errors (e : dict Q) : Organism := set_errors e one_node.
Definition errors_low : dict Q := [("a"%string, 1); ("b"%string, 2)].
Definition errors_high : dict Q := [("b"%string, 2); ("a"%string, 3)].

(** The child of a mutation of [two_nodes] at rate 1 with every weight on
    the swap operator; the first swap exchanges the cells (0, 0) and (1, 1),
    each later one exchanges its cell with (0, 0). *)
Definition swapped_child : Organism :=
  Eval vm_compute in
    built (makeMutatedCopy two_nodes 1 [0; 0; 0; 1]%Z (world_of [0; 0; 1; 1]%Z)).

(** A tape whose every integer is 1: every [random()] returns 2^-53. *)
Definition ones_world : World := mkWorld 0 (fun _ => 1%Z) 0.

(** The child of a call, or [no_nodes] if the call raises. *)
Definition child_of (c : Crossed) : Organism :=
  match child c with
  | Ok o => o
  | Raise _ => no_nodes
  end.

(** [one_node] crossed with [two_nodes], uniform per row, the row taken. *)
Definition crossed_child : Organism :=
  Eval vm_compute in
    child_of (makeCrossedCopyWith one_node two_nodes (1 # 2) [1; 1; 1]%Z 1
                                  (world_of [0; 0]%Z)).

(** [one_node] crossed with [two_nodes] at rate 0 on [ones_world]. *)
Definition unchanged_child : Organism :=
  Eval vm_compute in
    child_of (makeCrossedCopyWith one_node two_nodes 0 [1; 1; 1]%Z 1 ones_world).

(** [two_nodes] crossed with [swapped_child] at rate 1, uniform per row. *)
Definition replaced_child : Organism :=
  Eval vm_compute in
    child_of (makeCrossedCopyWith two_nodes swapped_child 1 [1; 0; 0]%Z 1
                                  (world_of [])).

(** [one_node] after [getProperty("topology")]. *)
Definition measured : Organism :=
  Eval vm_compute in snd (getProperty registry "topology" one_node).

(** A registry with a scalar and a distribution. *)
Definition metrics (name : string) : option (Organism -> result value) :=
  if (name =? "connectance")%string then Some (fun _ => Ok (VNum (1 # 2)))
  else if (name =? "degree_distribution")%string
       then Some (fun _ => Ok (VSeq [1 # 2; 1 # 2]))
       else None.

(** Errors worse than [errors_high] on every key. *)
Definition errors_worst : dict Q := [("a"%string, 4); ("b"%string, 3)].

(** Two nodes, one weight of each sign and one zero:
    [Organism(2, 0.5, (-1, 1), [[0.1, 0.9], [0.5, 0.9]])]. *)
Definition mixed_signs : Organism :=
  Eval vm_compute in
    built (__init__ 2 (1 # 2) (-1, 1)
                         (Some [[1 # 10; 9 # 10]; [1 # 2; 9 # 10]]) 0
                         (world_of [])).

(** One node and a row of two genes:
    [Organism(1, 0.5, (-1, 1), [[0.9, 0.9]])]. *)
Definition wide_row : Organism :=
  Eval vm_compute in
    built (__init__ 1 (1 # 2) (-1, 1) (Some [[9 # 10; 9 # 10]]) 0 (world_of [])).

(** * Properties *)

(** ** Comparisons and division *)

Lemma Qleb_spec x y : reflect (x <= y) (Qleb x y).
Proof.
  unfold Qleb. destruct (Qle_bool x y) eqn:E; constructor.
  - now apply Qle_bool_iff.
  - intro H. apply Qle_bool_iff in H. congruence.
Qed.

Lemma Qltb_spec x y : reflect (x < y) (Qltb x y).
Proof.
  unfold Qltb. destruct (Qle_bool y x) eqn:E; constructor; simpl.
  - apply Qle_bool_iff in E. lra.
  - assert (~ y <= x) by (intro H'; apply Qle_bool_iff in H'; congruence). lra.
Qed.

Lemma truediv_ok x y : ~ y == 0 -> truediv x y = Ok (x / y).
Proof.
  intro H. unfold truediv. destruct (Qeq_bool y 0) eqn:E; auto.
  apply Qeq_bool_iff in E. contradiction.
Qed.

Lemma truediv_zero x y : y == 0 -> truediv x y = Raise ZeroDivisionError.
Proof.
  intro H. unfold truediv. apply Qeq_bool_iff in H. now rewrite H.
Qed.

Lemma share_bounds n p : 0 <= n -> 0 <= p -> ~ p + n == 0 -> 0 <= n / (p + n) <= 1.
Proof.
  intros Hn Hp Hz. assert (0 < p + n) by lra. split.
  - apply Qle_shift_div_l; lra.
  - apply Qle_shift_div_r; lra.
Qed.

(** ** sparsify *)

(** Over exact rationals, for a sparsity [s] of [0, 1] and a range
    [(lo, hi)] with [lo <= 0 <= hi], not both zero: the dead zone
    [(t1, t2]] has width [t2 - t1 == s] and is sent to 0, every [x <= 0] is
    sent to [-|lo|] and every [x > 1] to [hi]. *)
Lemma sparsify_zones_exact (s lo hi : Q) :
  0 <= s <= 1 -> lo <= 0 -> 0 <= hi -> ~ (lo == 0 /\ hi == 0) ->
  let negPercent := Qabs lo / (hi + Qabs lo) in
  let t1 := negPercent * (1 - s) in
  let t2 := t1 + s in
  t2 - t1 == s /\
  (forall x, t1 < x <= t2 -> sparsify x s (lo, hi) = Ok 0) /\
  (forall x, x <= 0 -> sparsify x s (lo, hi) = Ok (- Qabs lo)) /\
  (forall x, 1 < x -> sparsify x s (lo, hi) = Ok hi).
Proof.
  intros Hs Hlo Hhi Hnz negPercent t1 t2.
  assert (Habs : 0 <= Qabs lo) by apply Qabs_nonneg.
  assert (Hsum : ~ hi + Qabs lo == 0).
  { intro H. assert (Qabs lo == 0) by lra. assert (hi == 0) by lra.
    apply Hnz. split; auto. 
    rewrite Qabs_neg in H0 by lra. lra. }
  destruct (share_bounds Habs Hhi Hsum) as [Hnp0 Hnp1]. fold negPercent in Hnp0, Hnp1.
  assert (Ht1 : 0 <= t1 <= 1 - s) by (unfold t1; split; nra).
  split; [unfold t2; ring|].
  unfold sparsify; cbn [fst snd].
  rewrite !truediv_ok by assumption. cbn [rbind].
  fold negPercent. fold t1. fold t2.
  repeat split; intros x Hx.
  - destruct (Qleb_spec x 0); [lra|].
    destruct (Qltb_spec 0 x); [|lra].
    destruct (Qleb_spec x t1); [lra|]. cbn [andb].
    destruct (Qltb_spec t1 x); [|lra].
    destruct (Qleb_spec x t2); [reflexivity|lra].
  - destruct (Qleb_spec x 0); [reflexivity|lra].
  - destruct (Qleb_spec x 0); [lra|].
    destruct (Qleb_spec x t1); [lra|]. rewrite andb_false_r.
    destruct (Qleb_spec x t2); [unfold t2 in *; lra|]. rewrite andb_false_r.
    destruct (Qleb_spec x 1); [lra|]. rewrite andb_false_r. reflexivity.
Qed.

(** ** sparsify in the arithmetic of doubles *)










Lemma sparsify_total x s lo hi :
  ~ hi + Qabs lo == 0 -> exists q, sparsify x s (lo, hi) = Ok q.
Proof.
  intro Hsum. unfold sparsify; cbn [fst snd].
  rewrite !truediv_ok by assumption. cbn [rbind].
  set (np := Qabs lo / (hi + Qabs lo)).
  set (pp := hi / (hi + Qabs lo)).
  assert (Hone : np + pp == 1) by (unfold np, pp; field; assumption).
  destruct (Qleb_spec x 0); [eauto|].
  destruct (Qltb_spec 0 x); [|lra]. cbn [andb].
  destruct (Qleb_spec x (np * (1 - s))).
  { rewrite truediv_ok by lra. cbn [rbind]. eauto. }
  destruct (Qltb_spec (np * (1 - s)) x); [|lra]. cbn [andb].
  destruct (Qleb_spec x (np * (1 - s) + s)); [eauto|].
  destruct (Qltb_spec (np * (1 - s) + s) x); [|lra]. cbn [andb].
  destruct (Qleb_spec x 1); [|eauto].
  assert (Hsplit : np * (1 - s) + s + pp * (1 - s) == 1).
  { setoid_replace (np * (1 - s) + s + pp * (1 - s))
      with ((np + pp) * (1 - s) + s) by ring.
    rewrite Hone. ring. }
  rewrite truediv_ok by lra. cbn [rbind]. eauto.
Qed.

Lemma sparsify_degenerate x s lo hi :
  lo == 0 -> hi == 0 -> sparsify x s (lo, hi) = Raise ZeroDivisionError.
Proof.
  intros Hlo Hhi. unfold sparsify; cbn [fst snd].
  rewrite truediv_zero; [reflexivity|].
  rewrite Hlo, Hhi. reflexivity.
Qed.

(** *** Comprehensions *)

Lemma rmap_length A B (f : A -> result B) l l' :
  rmap f l = Ok l' -> length l' = length l.
Proof.
  revert l'. induction l as [|a t IH]; intros l' H; cbn in H.
  - now inversion H.
  - destruct (f a); [|discriminate]. cbn in H.
    destruct (rmap f t); [|discriminate]. cbn in H.
    inversion H; subst. cbn. f_equal. now apply IH.
Qed.

Lemma rmap_Forall2 A B (f : A -> result B) l l' :
  rmap f l = Ok l' -> Forall2 (fun a b => f a = Ok b) l l'.
Proof.
  revert l'. induction l as [|a t IH]; intros l' H; cbn in H.
  - inversion H. constructor.
  - destruct (f a) eqn:E; [|discriminate]. cbn in H.
    destruct (rmap f t); [|discriminate]. cbn in H.
    inversion H; subst. constructor; auto.
Qed.

Lemma rmap_total A B (f : A -> result B) l :
  (forall a, In a l -> exists b, f a = Ok b) -> exists l', rmap f l = Ok l'.
Proof.
  induction l as [|a t IH]; intros H; cbn; [eauto|].
  destruct (H a) as [b Hb]; [now left|]. rewrite Hb. cbn.
  destruct IH as [l' Hl']; [intros; apply H; now right|].
  rewrite Hl'. cbn. eauto.
Qed.

Lemma replicateM_spec S A (m : M S A) (P : A -> Prop) :
  (forall s, exists a s', m s = (Ok a, s') /\ P a) ->
  forall n s, exists l s',
    replicateM n m s = (Ok l, s') /\ length l = n /\ Forall P l.
Proof.
  intros Hm. induction n as [|n IH]; intros s; cbn.
  - exists [], s. repeat split; constructor.
  - unfold bind. destruct (Hm s) as (a & s1 & E & Pa). rewrite E.
    destruct (IH s1) as (l & s2 & E2 & Hl & HP). rewrite E2.
    exists (a :: l), s2. repeat split; cbn; auto.
Qed.

Lemma random_total w : exists q w', random w = (Ok q, w') /\ True.
Proof. unfold random, bind, draw, ret. eauto. Qed.

Lemma random_genome_square n w :
  exists g w', replicateM n (replicateM n random) w = (Ok g, w') /\ square n g.
Proof.
  assert (Hrow : forall s, exists (row : list Q) s',
             replicateM n random s = (Ok row, s') /\ length row = n).
  { intros s. destruct (replicateM_spec random (fun _ => True) random_total n s)
      as (row & s' & E & Hl & _). eauto. }
  destruct (replicateM_spec (replicateM n random) _ Hrow n w)
    as (g & w' & E & Hl & HF).
  exists g, w'. split; [assumption|]. split; assumption.
Qed.

(** *** A range with both bounds zero *)

Lemma rmap_rows_raise (f : Q -> result Q) e g :
  (forall x, f x = Raise e) -> has_cell g = true -> rmap (rmap f) g = Raise e.
Proof.
  intros Hf. induction g as [|row g IH]; cbn; [discriminate|].
  destruct row as [|x row]; cbn.
  - intros H. now rewrite IH.
  - intros _. now rewrite Hf.
Qed.

Lemma rmap_rows_empty (f : Q -> result Q) g :
  has_cell g = false -> rmap (rmap f) g = Ok g.
Proof.
  induction g as [|row g IH]; cbn; [reflexivity|].
  destruct row as [|x row]; cbn; [|discriminate].
  intros H. now rewrite IH.
Qed.

(** C4 (as the code has it). [__init__] does not look at [weightRange].
    With both bounds zero, construction fails with the division by zero that
    [sparsify] raises on the first cell of the genome, given or random; a
    genome without a cell is accepted. *)
Theorem init_degenerate_range numNodes s lo hi age w :
  lo == 0 -> hi == 0 ->
  (forall g, has_cell g = true ->
     fst (__init__ numNodes s (lo, hi) (Some g) age w)
     = Raise ZeroDivisionError) /\
  ((1 <= numNodes)%nat ->
     fst (__init__ numNodes s (lo, hi) None age w)
     = Raise ZeroDivisionError) /\
  (forall g, has_cell g = false ->
     exists o, fst (__init__ numNodes s (lo, hi) (Some g) age w) = Ok o).
Proof.
  intros Hlo Hhi.
  assert (Hf : forall x, (v <~ sparsify x s (lo, hi) ;; Ok (round3 v))%py
                         = Raise ZeroDivisionError).
  { intros x. now rewrite sparsify_degenerate. }
  repeat split.
  - intros g Hg. unfold __init__, bind, get, modify, ret, lift. cbn.
    now rewrite (rmap_rows_raise _ _ Hf Hg).
  - intros HN. unfold __init__, bind, get, modify, ret, lift. cbn.
    destruct (random_genome_square numNodes
                (mkWorld (nextID w + 1) (tape w) (cursor w)))
      as (g & w' & E & Hlen & Hrows).
    rewrite E.
    assert (Hg : has_cell g = true).
    { destruct g as [|row g]; [cbn in Hlen; lia|].
      inversion Hrows; subst. destruct row; [cbn in *; lia|reflexivity]. }
    now rewrite (rmap_rows_raise _ _ Hf Hg).
  - intros g Hg. unfold __init__, bind, get, modify, ret, lift. cbn.
    rewrite (rmap_rows_empty _ _ Hg). cbn. eauto.
Qed.

(** ** Construction *)

Lemma Qneqb_sign v : Qneqb v 0 = Qltb 0 v || Qltb v 0.
Proof.
  unfold Qneqb. destruct (Qeq_bool v 0) eqn:E; cbn.
  - apply Qeq_bool_iff in E.
    destruct (Qltb_spec 0 v); [lra|]. destruct (Qltb_spec v 0); [lra|reflexivity].
  - assert (~ v == 0) by (intro H; apply Qeq_bool_iff in H; congruence).
    destruct (Qltb_spec 0 v); [reflexivity|].
    destruct (Qltb_spec v 0); [reflexivity|lra].
Qed.

Lemma Qltb_sign_excl v : Qltb 0 v && Qltb v 0 = false.
Proof.
  destruct (Qltb_spec 0 v); [|reflexivity].
  destruct (Qltb_spec v 0); [lra|reflexivity].
Qed.

Lemma ones_sum A (l : list A) : list_sum (map (fun _ => 1%nat) l) = length l.
Proof. induction l; cbn; auto. Qed.

Lemma row_sign_split row :
  length (filter (fun val => Qneqb val 0) row)
  = (length (filter (fun val => Qltb 0 val) row)
     + length (filter (fun val => Qltb val 0) row))%nat.
Proof.
  induction row as [|v row IH]; cbn; [reflexivity|].
  rewrite Qneqb_sign. pose proof (Qltb_sign_excl v) as X.
  destruct (Qltb 0 v), (Qltb v 0); cbn in *; try discriminate; lia.
Qed.

Lemma count_cells_cons p row m :
  count_cells p (row :: m) = (length (filter p row) + count_cells p m)%nat.
Proof. unfold count_cells. cbn [map list_sum fold_right]. now rewrite ones_sum. Qed.

Lemma count_cells_split m :
  count_cells (fun val => Qneqb val 0) m
  = (count_cells (fun val => Qltb 0 val) m
     + count_cells (fun val => Qltb val 0) m)%nat.
Proof.
  induction m as [|row m IH]; [reflexivity|].
  rewrite !count_cells_cons, IH, row_sign_split. lia.
Qed.

Lemma filter_length_le A (p : A -> bool) l : (length (filter p l) <= length l)%nat.
Proof. induction l; cbn; [lia|]. destruct (p a); cbn; lia. Qed.

Lemma count_cells_bound p n m :
  Forall (fun row => length row = n) m ->
  (count_cells p m <= length m * n)%nat.
Proof.
  induction 1 as [|row m Hrow _ IH]; [cbn; lia|].
  rewrite count_cells_cons. cbn [length]. pose proof (filter_length_le p row). lia.
Qed.

Lemma rmap_square (f : Q -> result Q) n g adj :
  rmap (rmap f) g = Ok adj -> square n g -> square n adj.
Proof.
  intros H [Hlen Hrows]. split.
  - rewrite (rmap_length _ _ H). assumption.
  - apply rmap_Forall2 in H. clear Hlen.
    induction H as [|row row' g adj Hr _ IH]; [constructor|].
    inversion Hrows; subst. constructor; [|now apply IH].
    now rewrite (rmap_length _ _ Hr).
Qed.

Lemma init_inv N s wr genome a w o w' :
  __init__ N s wr genome a w = (Ok o, w') ->
  exists g adj,
    genotypeMatrix o = g /\ adjacencyMatrix o = adj /\
    rmap (rmap (fun val => v <~ sparsify val s wr ;; Ok (round3 v))%py) g = Ok adj /\
    (match genome with Some g' => g = g' | None => square N g end) /\
    numNodes o = N /\ sparsity o = s /\ weightRange o = wr /\
    age o = a /\ valid o = true /\ errors o = [] /\ properties o = [] /\
    clock o = (-1)%Z /\ id o = nextID w /\
    numInteractions o = count_cells (fun val => Qneqb val 0) adj /\
    numPositive o = count_cells (fun val => Qltb 0 val) adj /\
    numNegative o = count_cells (fun val => Qltb val 0) adj.
Proof.
  unfold __init__, bind, get, modify, ret, lift. cbn. intros H.
  destruct genome as [g|].
  - destruct (rmap _ g) as [adj|] eqn:E; [|discriminate].
    inversion H; subst; clear H. cbn. exists g, adj. repeat split; auto.
  - destruct (random_genome_square N
                (mkWorld (nextID w + 1) (tape w) (cursor w)))
      as (g & w1 & E & Hsq).
    rewrite E in H.
    destruct (rmap _ g) as [adj|] eqn:E2; [|discriminate].
    inversion H; subst; clear H. cbn. exists g, adj. repeat split; auto; apply Hsq.
Qed.

Lemma count_cells_concat p m :
  count_cells p m = length (filter p (concat m)).
Proof.
  induction m as [|row m IH]; [reflexivity|].
  rewrite count_cells_cons, IH. cbn [concat].
  now rewrite filter_app, length_app.
Qed.

Lemma rmap_rows_cells (f : Q -> result Q) g adj :
  rmap (rmap f) g = Ok adj -> length (concat adj) = length (concat g).
Proof.
  intros H. apply rmap_Forall2 in H.
  induction H as [|row row' g adj Hr _ IH]; [reflexivity|].
  cbn [concat]. rewrite !length_app, IH. f_equal. exact (rmap_length _ _ Hr).
Qed.

Lemma square_cells n (m : matrix) : square n m -> length (concat m) = (n * n)%nat.
Proof.
  intros [Hlen Hrows]. rewrite <- Hlen at 1. clear Hlen.
  induction Hrows as [|row m Hrow _ IH]; [reflexivity|].
  cbn [concat length]. rewrite length_app, IH, Hrow. lia.
Qed.

(** C10 (as the code has it). The three counts cached by [__init__] are
    the numbers of non-zero, of positive and of negative weights of the
    adjacency matrix, so [numInteractions = numPositive + numNegative] and
    no count exceeds the number of cells of the genome.  That number is
    [numNodes] squared for a genome of [numNodes] rows of [numNodes] cells,
    as a random genome always is; the constructor does not check the shape
    of a genome it is given. *)
Theorem counts_at_construction N s wr genome a w o w' :
  __init__ N s wr genome a w = (Ok o, w') ->
  let weights := concat (adjacencyMatrix o) in
  numInteractions o = length (filter (fun val => Qneqb val 0) weights) /\
  numPositive o = length (filter (fun val => Qltb 0 val) weights) /\
  numNegative o = length (filter (fun val => Qltb val 0) weights) /\
  numInteractions o = (numPositive o + numNegative o)%nat /\
  length weights = length (concat (genotypeMatrix o)) /\
  (numInteractions o <= length weights)%nat /\
  ((forall g, genome = Some g -> square N g) ->
   length weights = (N * N)%nat /\
   (0 <= numInteractions o <= N * N)%nat /\
   (0 <= numPositive o <= N * N)%nat /\
   (0 <= numNegative o <= N * N)%nat).
Proof.
  intros H weights.
  destruct (init_inv _ _ _ _ _ _ H)
    as (g & adj & Hgen & Had & Hadj & Hg & _ & _ & _ & _ & _ & _ & _ & _ & _
        & Hi & Hp & Hn).
  assert (Hsplit : numInteractions o = (numPositive o + numNegative o)%nat)
    by (rewrite Hi, Hp, Hn; apply count_cells_split).
  assert (Hcells : length weights = length (concat g))
    by (unfold weights; rewrite Had; exact (rmap_rows_cells _ _ Hadj)).
  rewrite Hi, Hp, Hn, !count_cells_concat in *. rewrite <- Had in *.
  fold weights in Hsplit |- *.
  pose proof (filter_length_le (fun val => Qneqb val 0) weights) as Hle.
  rewrite Hgen.
  do 3 (split; [reflexivity|]). split; [exact Hsplit|].
  split; [exact Hcells|]. split; [exact Hle|].
  intros Hshape.
  assert (Hsq : square N g).
  { destruct genome as [g'|]; [rewrite Hg; now apply Hshape|assumption]. }
  rewrite (square_cells Hsq) in Hcells. split; [exact Hcells|]. lia.
Qed.

(** ** Pareto comparison *)

Lemma dict_get_keys V (d : dict V) k :
  In k (keys d) -> exists v, dict_get d k = Some v.
Proof.
  induction d as [|[k' v'] d IH]; cbn; [tauto|].
  intros [->|H].
  - rewrite String.eqb_refl. eauto.
  - destruct (String.eqb k k'); eauto.
Qed.

Lemma dict_get_in_keys V (d : dict V) k v :
  dict_get d k = Some v -> In k (keys d).
Proof.
  induction d as [|[k' v'] d IH]; cbn; intros H; [discriminate|].
  destruct (String.eqb_spec k k'); [now left|right; auto].
Qed.

Lemma dict_mem_get V (d : dict V) k :
  dict_mem d k = true -> exists v, dict_get d k = Some v.
Proof. unfold dict_mem. destruct (dict_get d k); [eauto|discriminate]. Qed.

Lemma keys_within_get V (a b : dict V) k :
  keys_within a b = true -> In k (keys a) ->
  exists x y, dict_get a k = Some x /\ dict_get b k = Some y.
Proof.
  unfold keys_within. rewrite forallb_forall. intros H Hk.
  destruct (dict_get_keys _ _ Hk) as [x Hx].
  destruct (dict_mem_get _ _ (H _ Hk)) as [y Hy]. eauto.
Qed.

(** No key of [props] makes [self] strictly better: the flag is never set. *)
Lemma gt_loop_never_better props A B acc :
  (forall k, In k props ->
     exists a b, dict_get A k = Some a /\ dict_get B k = Some b /\ b <= a) ->
  acc = false -> gt_loop props A B acc = Ok false.
Proof.
  intros H ->. induction props as [|k props IH]; cbn; [reflexivity|].
  destruct (H k) as (a & b & Ha & Hb & Hle); [now left|].
  unfold dict_item. rewrite Ha, Hb. cbn.
  destruct (Qltb_spec b a); [reflexivity|].
  destruct (Qltb_spec a b); [lra|].
  apply IH. intros k' Hk'. apply H. now right.
Qed.

(** A verdict [True] means no key of [props] made [self] worse. *)
Lemma gt_loop_true_inv props A B acc :
  gt_loop props A B acc = Ok true ->
  forall k, In k props ->
    exists a b, dict_get A k = Some a /\ dict_get B k = Some b /\ a <= b.
Proof.
  revert acc. induction props as [|k props IH]; cbn; intros acc H k' Hk'; [tauto|].
  unfold dict_item in H.
  destruct (dict_get A k) as [a|] eqn:Ha; [|discriminate].
  destruct (dict_get B k) as [b|] eqn:Hb; [|discriminate]. cbn in H.
  destruct (Qltb_spec b a); [discriminate|].
  destruct Hk' as [<-|Hk'].
  - exists a, b. repeat split; auto. lra.
  - destruct (Qltb_spec a b); eapply IH; eauto.
Qed.

Lemma same_errors_refl e : same_errors e e = true.
Proof.
  assert (Hk : keys_within e e = true).
  { unfold keys_within. apply forallb_forall. intros k Hk.
    destruct (dict_get_keys _ _ Hk) as [v Hv]. unfold dict_mem. now rewrite Hv. }
  unfold same_errors, same_keys. rewrite Hk. cbn [andb].
  apply forallb_forall. intros k Hin.
  destruct (dict_get_keys _ _ Hin) as [v ->]. apply Qeq_bool_iff. reflexivity.
Qed.

(** C6. The dominance test [>] is irreflexive; between two organisms that
    hold the same error keys it is antisymmetric; and two organisms whose
    error maps agree key by key, identical maps among them, are equal under
    [==]. *)
Theorem pareto_dominance :
  (forall A, __gt__ A A = Ok false) /\
  (forall A B, same_keys (errors A) (errors B) = true ->
     __gt__ A B = Ok true -> __gt__ B A = Ok false) /\
  (forall A B, same_errors (errors A) (errors B) = true ->
     __eq__ A B = Ok true) /\
  (forall A B, errors A = errors B -> same_errors (errors A) (errors B) = true).
Proof.
  assert (Hident : forall A B, errors A = errors B ->
                               same_errors (errors A) (errors B) = true)
    by (intros A B ->; apply same_errors_refl).
  split; [|split; [|split; [|exact Hident]]].
  - intros A. apply gt_loop_never_better; [|reflexivity].
    intros k Hk. destruct (dict_get_keys _ _ Hk) as [v Hv].
    exists v, v. repeat split; auto. lra.
  - intros A B Hkeys HAB. apply andb_prop in Hkeys as [_ HBA].
    apply gt_loop_never_better; [|reflexivity].
    intros k Hk.
    destruct (keys_within_get _ _ _ HBA Hk) as (b & a & Hb & Ha).
    destruct (gt_loop_true_inv _ _ _ _ HAB k) as (a' & b' & Ha' & Hb' & Hle).
    { eapply dict_get_in_keys; eauto. }
    exists b, a. repeat split; auto. congruence.
  - intros A B Hsame. apply andb_prop in Hsame as [Hkeys Hvals].
    apply andb_prop in Hkeys as [HAB HBA].
    rewrite forallb_forall in Hvals.
    assert (Hpoint : forall k a b,
               dict_get (errors A) k = Some a -> dict_get (errors B) k = Some b ->
               In k (keys (errors A)) -> a == b).
    { intros k a b Ha Hb Hk. specialize (Hvals _ Hk). rewrite Ha, Hb in Hvals.
      now apply Qeq_bool_iff. }
    unfold __eq__, less_than, __gt__.
    rewrite (@gt_loop_never_better (keys (errors B)) (errors B) (errors A) false);
      [cbn|..|reflexivity].
    + rewrite (@gt_loop_never_better (keys (errors A)) (errors A) (errors B) false);
        [reflexivity|..|reflexivity].
      intros k Hk. destruct (keys_within_get _ _ _ HAB Hk) as (a & b & Ha & Hb).
      exists a, b. repeat split; auto. rewrite (Hpoint _ _ _ Ha Hb Hk). lra.
    + intros k Hk. destruct (keys_within_get _ _ _ HBA Hk) as (b & a & Hb & Ha).
      exists b, a. repeat split; auto.
      rewrite (Hpoint _ _ _ Ha Hb (dict_get_in_keys _ _ Ha)). lra.
Qed.

(** ** State that a computation keeps *)

Section Keeps.
Context {S : Type} (R : S -> S -> Prop).
Hypothesis R_refl : forall s, R s s.
Hypothesis R_trans : forall a b c, R a b -> R b c -> R a c.

Lemma keeps_ret A (a : A) : keeps R (ret a).
Proof. intros s. apply R_refl. Qed.

Lemma keeps_throw A e : keeps R (@throw S A e).
Proof. intros s. apply R_refl. Qed.

Lemma keeps_lift A (r : result A) : keeps R (lift r).
Proof. intros s. apply R_refl. Qed.

Lemma keeps_get : keeps R get.
Proof. intros s. apply R_refl. Qed.

Lemma keeps_modify (f : S -> S) : (forall s, R s (f s)) -> keeps R (modify f).
Proof. intros H s. apply H. Qed.

Lemma keeps_bind A B (m : M S A) (k : A -> M S B) :
  keeps R m -> (forall a, keeps R (k a)) -> keeps R (bind m k).
Proof.
  intros Hm Hk s. unfold bind. specialize (Hm s).
  destruct (m s) as [[a|e] s']; cbn in *; [|assumption].
  eapply R_trans; [exact Hm|apply Hk].
Qed.
End Keeps.

Lemma valid_same_refl o : valid_same o o.
Proof. reflexivity. Qed.

Lemma valid_same_trans a b c : valid_same a b -> valid_same b c -> valid_same a c.
Proof. unfold valid_same. congruence. Qed.

Lemma valid_not_restored_refl o : valid_not_restored o o.
Proof. intros H; exact H. Qed.

Lemma valid_not_restored_trans a b c :
  valid_not_restored a b -> valid_not_restored b c -> valid_not_restored a c.
Proof. unfold valid_not_restored. auto. Qed.

Lemma valid_same_weaken {A} (m : M Organism A) :
  keeps valid_same m -> keeps valid_not_restored m.
Proof. intros H s E. rewrite <- (H s). exact E. Qed.

Ltac keeps_same :=
  repeat first
    [ match goal with H : _ |- keeps _ _ => apply H end
    | apply valid_same_refl | exact valid_same_trans
    | apply keeps_ret; [apply valid_same_refl]
    | apply keeps_throw; [apply valid_same_refl]
    | apply keeps_lift; [apply valid_same_refl]
    | apply keeps_get; [apply valid_same_refl]
    | apply keeps_bind; [exact valid_same_trans | | intros ?]
    | apply keeps_modify; intros ?; reflexivity ].

Ltac keeps_mono :=
  repeat first
    [ match goal with H : _ |- keeps _ _ => apply H end
    | apply valid_not_restored_refl | exact valid_not_restored_trans
    | apply keeps_ret; [apply valid_not_restored_refl]
    | apply keeps_throw; [apply valid_not_restored_refl]
    | apply keeps_lift; [apply valid_not_restored_refl]
    | apply keeps_get; [apply valid_not_restored_refl]
    | apply keeps_bind; [exact valid_not_restored_trans | | intros ?]
    | apply keeps_modify; intros ? ?; solve [assumption | discriminate] ].

Section Feasibility.
Variable functions : string -> option (Organism -> result value).
Variable intersecting_area : Q -> Q -> Q -> Q -> Q.

Lemma check_constraints_distribution_writes dist mean std eps self :
  let '(_, self') := check_constraints_distribution dist mean std eps self in
  self' = self \/ self' = invalidate self.
Proof.
  unfold check_constraints_distribution, bind, lift, modify, ret.
  destruct (len dist); [|now left].
  destruct (rmap _ _); [|now left].
  destruct (truediv _ _); [|now left].
  destruct (Qltb eps a1); [now right|now left].
Qed.

Lemma check_constraint_writes mean target_mean std target_std eps self :
  let '(_, self') :=
    check_constraint intersecting_area mean target_mean std target_std eps self in
  self' = self \/ self' = invalidate self.
Proof.
  unfold check_constraint, bind, lift, modify, ret.
  destruct (truediv _ _); [|now left].
  destruct (Qltb a eps); [now right|now left].
Qed.

Lemma check_constraints_distribution_mono dist mean std eps :
  keeps valid_not_restored (check_constraints_distribution dist mean std eps).
Proof.
  intros self. pose proof (check_constraints_distribution_writes dist mean std eps self) as H.
  destruct (check_constraints_distribution dist mean std eps self) as [r self'].
  cbn. destruct H as [->| ->]; intros E; [exact E|discriminate].
Qed.

Lemma check_constraint_mono mean target_mean std target_std eps :
  keeps valid_not_restored
        (check_constraint intersecting_area mean target_mean std target_std eps).
Proof.
  intros self.
  pose proof (check_constraint_writes mean target_mean std target_std eps self) as H.
  destruct (check_constraint _ _ _ _ _ _ self) as [r self'].
  cbn. destruct H as [->| ->]; intros E; [exact E|discriminate].
Qed.

Lemma getProperty_valid name : keeps valid_same (getProperty functions name).
Proof.
  unfold getProperty. keeps_same.
  destruct (negb _); keeps_same.
Qed.

Lemma store_error_valid name e : keeps valid_same (store_error name e).
Proof. unfold store_error. keeps_same. Qed.

Lemma getError_valid name target _range :
  keeps valid_not_restored (getError functions intersecting_area name target _range).
Proof.
  pose proof (fun n => valid_same_weaken (getProperty_valid n)) as HP.
  pose proof (fun n e => valid_same_weaken (store_error_valid n e)) as HS.
  pose proof check_constraints_distribution_mono as HD.
  pose proof check_constraint_mono as HC.
  unfold getError. keeps_mono.
  destruct (negb _); keeps_mono.
  destruct (endswith _ _); [|destruct (_ || _)]; keeps_mono.
  - destruct (negb _); keeps_mono.
  - match goal with p : (Q * Q)%type |- _ => destruct p as [mean std] end.
    keeps_mono. destruct (negb _); keeps_mono.
Qed.
End Feasibility.

(** ** Errors *)

Lemma dict_get_set V (d : dict V) k v : dict_get (dict_set d k v) k = Some v.
Proof.
  induction d as [|[k' v'] d IH]; cbn.
  - now rewrite String.eqb_refl.
  - destruct (String.eqb k k') eqn:E; cbn; rewrite E; auto.
Qed.

Lemma dict_mem_none V (d : dict V) k : dict_get d k = None -> dict_mem d k = false.
Proof. unfold dict_mem. now intros ->. Qed.

Lemma dict_mem_some V (d : dict V) k v : dict_get d k = Some v -> dict_mem d k = true.
Proof. unfold dict_mem. now intros ->. Qed.

Section Errors.
Variable functions : string -> option (Organism -> result value).
Variable intersecting_area : Q -> Q -> Q -> Q -> Q.

Lemma getProperty_errors name self :
  errors (snd (getProperty functions name self)) = errors self.
Proof.
  unfold getProperty, bind, get, lift, modify, ret.
  destruct (negb _); cbn; [|reflexivity].
  destruct (functions name) as [f|]; cbn; [|reflexivity].
  destruct (f self); reflexivity.
Qed.

Lemma check_constraint_errors mean t std r eps self :
  errors (snd (check_constraint intersecting_area mean t std r eps self))
  = errors self.
Proof.
  pose proof (check_constraint_writes intersecting_area mean t std r eps self) as H.
  destruct (check_constraint _ _ _ _ _ _ self) as [rc self'].
  cbn. destruct H as [->| ->]; reflexivity.
Qed.

(** C3 (as the code has it). For the names "topology" and "weights",
    with a numeric [target] and a numeric [_range]: the first call for the
    name stores and returns the squared difference of the means plus the
    squared difference of the stds, then runs the Gaussian-overlap test on
    the organism (whose failure, if any, is the outcome of the call).  A
    later call returns the stored error, whatever its arguments, and runs
    no test. *)
Theorem getError_paired name self :
  name = "topology"%string \/ name = "weights"%string ->
  (forall mean std t r self1,
      dict_get (errors self) name = None ->
      getProperty functions name self = (Ok (VSeq [mean; std]), self1) ->
      let e := (mean - t) ^ 2 + (std - r) ^ 2 in
      let stored := set_errors (dict_set (errors self1) name e) self1 in
      let checked :=
        check_constraint intersecting_area mean t std r eps_overlap stored in
      getError functions intersecting_area name (VNum t) (VNum r) self
      = (match fst checked with Ok _ => Ok e | Raise x => Raise x end,
         snd checked)) /\
  (forall e0 target _range,
      dict_get (errors self) name = Some e0 ->
      getError functions intersecting_area name target _range self
      = (Ok e0, self)).
Proof.
  intros Hname. split.
  - intros mean std t r self1 Hnew Hprop e stored checked.
    unfold getError. unfold bind at 1. unfold get at 1. cbv iota beta.
    unfold bind at 1. rewrite (dict_mem_none _ _ Hnew). cbn [negb].
    assert (Hkind : endswith name "_distribution" = false
                    /\ (name =? "topology")%string || (name =? "weights")%string = true)
      by (destruct Hname as [-> | ->]; split; reflexivity).
    destruct Hkind as [-> ->].
    unfold bind at 1. rewrite Hprop.
    unfold bind at 1. unfold lift at 1. cbn [unpack2].
    unfold bind at 1. unfold lift at 1. cbn [number].
    unfold bind at 1. unfold lift at 1. cbn [number].
    unfold bind at 1. unfold store_error at 1. unfold modify at 1. cbn [is_none negb].
    fold e. fold stored. fold checked.
    pose proof (check_constraint_errors mean t std r eps_overlap stored) as Herr.
    fold checked in Herr.
    destruct checked as [[u|x] self2]; cbn [fst snd] in *; [|reflexivity].
    unfold bind, get, lift, dict_item. rewrite Herr. unfold stored. cbn [errors set_errors].
    now rewrite dict_get_set.
  - intros e0 target _range Hold.
    unfold getError, bind, get, ret, lift, dict_item.
    rewrite (dict_mem_some _ _ Hold). cbn. now rewrite Hold.
Qed.
End Errors.

(** ** The feasibility flag *)

Lemma bind_Ok_inv S A B (m : M S A) (k : A -> M S B) s b s' :
  bind m k s = (Ok b, s') ->
  exists a s1, m s = (Ok a, s1) /\ k a s1 = (Ok b, s').
Proof.
  unfold bind. destruct (m s) as [[a|e] s1]; [eauto|discriminate].
Qed.

Lemma tick_valid o generation : valid (tick o generation) = valid o.
Proof. unfold tick. destruct (clock o <? generation)%Z; reflexivity. Qed.

Lemma cross_child_valid self other rate odds w o w' :
  cross self other rate odds w = (Ok o, w') -> valid o = true.
Proof.
  unfold cross. intros H.
  apply bind_Ok_inv in H as (ty & w1 & _ & H).
  apply bind_Ok_inv in H as (t0 & w2 & _ & H).
  apply bind_Ok_inv in H as (g & w3 & _ & H).
  now apply init_inv in H as (? & ? & ? & ? & ? & ? & ? & ? & ? & ? & ? & _).
Qed.

Lemma mutated_child_valid self rate odds w o w' :
  makeMutatedCopy self rate odds w = (Ok o, w') -> valid o = true.
Proof.
  unfold makeMutatedCopy. intros H.
  apply bind_Ok_inv in H as (g & w1 & _ & H).
  apply bind_Ok_inv in H as (r & w2 & _ & H).
  apply bind_Ok_inv in H as (sp & w3 & _ & H).
  now apply init_inv in H as (? & ? & ? & ? & ? & ? & ? & ? & ? & ? & ? & _).
Qed.

(** C8. [valid] is true when [__init__] returns.  Each of the two tests
    leaves the organism as it was or with [valid] set to false and nothing
    else changed.  [getProperty], the age bookkeeping of crossover and
    mutation leave the flag of an existing organism as it was, [getError]
    (which calls the tests) never takes it from false to true, and the
    children of crossover and mutation start with the flag true. *)
Theorem valid_flag_monotone
    (functions : string -> option (Organism -> result value))
    (intersecting_area : Q -> Q -> Q -> Q -> Q) :
  (forall N s wr genome a w o w',
      __init__ N s wr genome a w = (Ok o, w') -> valid o = true) /\
  (forall dist mean std eps self,
      let self' := snd (check_constraints_distribution dist mean std eps self) in
      self' = self \/ self' = invalidate self) /\
  (forall mean target_mean std target_std eps self,
      let self' := snd (check_constraint intersecting_area mean target_mean
                                         std target_std eps self) in
      self' = self \/ self' = invalidate self) /\
  (forall name, keeps valid_same (getProperty functions name)) /\
  (forall name target _range,
      keeps valid_not_restored
            (getError functions intersecting_area name target _range)) /\
  (forall self other rate odds generation w,
      let c := makeCrossedCopyWith self other rate odds generation w in
      valid (self_after c) = valid self /\
      valid (other_after c) = valid other /\
      (forall o, child c = Ok o -> valid o = true)) /\
  (forall self rate odds w o w',
      makeMutatedCopy self rate odds w = (Ok o, w') -> valid o = true).
Proof.
  repeat split.
  - intros N s wr genome a w o w' H.
    now apply init_inv in H as (? & ? & ? & ? & ? & ? & ? & ? & ? & ? & ? & _).
  - intros dist mean std eps self.
    pose proof (check_constraints_distribution_writes dist mean std eps self) as H.
    now destruct (check_constraints_distribution dist mean std eps self).
  - intros mean target_mean std target_std eps self.
    pose proof (check_constraint_writes intersecting_area mean target_mean
                                        std target_std eps self) as H.
    now destruct (check_constraint _ _ _ _ _ _ self).
  - apply getProperty_valid.
  - apply getError_valid.
  - unfold makeCrossedCopyWith. destruct (cross _ _ _ _ _). cbn. apply tick_valid.
  - unfold makeCrossedCopyWith. destruct (cross _ _ _ _ _). cbn. apply tick_valid.
  - unfold makeCrossedCopyWith.
    destruct (cross _ _ _ _ _) as [r w'] eqn:E. cbn. intros o ->.
    eapply cross_child_valid; eauto.
  - apply mutated_child_valid.
Qed.

(** ** Which exceptions an operation can raise *)

Lemma raises_only_rbind A B P (r : result A) (k : A -> result B) :
  raises_only P r -> (forall a, raises_only P (k a)) -> raises_only P (rbind r k).
Proof.
  intros Hr Hk e. destruct r as [a|e']; cbn; [apply Hk|].
  intros H. apply Hr. congruence.
Qed.

Lemma raises_only_Ok A P (a : A) : raises_only P (Ok a).
Proof. intros e H. discriminate. Qed.

Lemma getitem_raises A (l : list A) i : raises_only (eq IndexError) (getitem l i).
Proof. intros e. unfold getitem. destruct (nth_error l i); congruence. Qed.

Lemma setitem_raises A (l : list A) i v : raises_only (eq IndexError) (setitem l i v).
Proof. intros e. unfold setitem. destruct (i <? length l)%nat; congruence. Qed.

Lemma getitem2_raises m i j : raises_only (eq IndexError) (getitem2 m i j).
Proof.
  unfold getitem2. apply raises_only_rbind; [apply getitem_raises|].
  intros row. apply getitem_raises.
Qed.

Lemma setitem2_raises m i j v : raises_only (eq IndexError) (setitem2 m i j v).
Proof.
  unfold setitem2. apply raises_only_rbind; [apply getitem_raises|].
  intros row. apply raises_only_rbind; [apply setitem_raises|].
  intros row'. apply setitem_raises.
Qed.

Lemma sparsify_raises x s wr : raises_only (eq ZeroDivisionError) (sparsify x s wr).
Proof.
  assert (Hdiv : forall a b, raises_only (eq ZeroDivisionError) (truediv a b)).
  { intros a b e. unfold truediv. destruct (Qeq_bool b 0); congruence. }
  unfold sparsify.
  apply raises_only_rbind; [apply Hdiv|intros np].
  apply raises_only_rbind; [apply Hdiv|intros pp].
  repeat match goal with
         | |- raises_only _ (if ?c then _ else _) => destruct c
         | |- raises_only _ (Ok _) => apply raises_only_Ok
         | |- raises_only _ (rbind _ _) =>
             apply raises_only_rbind; [apply Hdiv|intros ?]
         end.
Qed.

Lemma rmap_raises A B P (f : A -> result B) l :
  (forall a, raises_only P (f a)) -> raises_only P (rmap f l).
Proof.
  intros Hf. induction l as [|a l IH]; cbn; [apply raises_only_Ok|].
  apply raises_only_rbind; [apply Hf|intros b].
  apply raises_only_rbind; [apply IH|intros bs]. apply raises_only_Ok.
Qed.

Section Never.
Context {S : Type} (e : exn).

Lemma never_ret A (a : A) : never_raises e (@ret S A a).
Proof. intros s. discriminate. Qed.

Lemma never_get : never_raises e (@get S).
Proof. intros s. discriminate. Qed.

Lemma never_modify (f : S -> S) : never_raises e (modify f).
Proof. intros s. discriminate. Qed.

Lemma never_throw A e' : e' <> e -> never_raises e (@throw S A e').
Proof. intros H s. cbn. congruence. Qed.

Lemma never_lift A P (r : result A) :
  raises_only P r -> ~ P e -> never_raises e (@lift S A r).
Proof. intros Hr HP s E. cbn in E. apply HP, Hr, E. Qed.

Lemma never_bind A B (m : M S A) (k : A -> M S B) :
  never_raises e m -> (forall a, never_raises e (k a)) ->
  never_raises e (bind m k).
Proof.
  intros Hm Hk s. unfold bind. specialize (Hm s).
  destruct (m s) as [[a|e'] s']; cbn in *; [apply Hk|congruence].
Qed.

(** The same, when the continuation is only safe on the values that the
    first computation can return. *)
Lemma never_bind_post A B (Q : A -> Prop) (m : M S A) (k : A -> M S B) :
  never_raises e m ->
  (forall s a s', m s = (Ok a, s') -> Q a) ->
  (forall a, Q a -> never_raises e (k a)) ->
  never_raises e (bind m k).
Proof.
  intros Hm HQ Hk s. unfold bind. specialize (Hm s). specialize (HQ s).
  destruct (m s) as [[a|e'] s']; cbn in *; [|congruence].
  apply Hk. eapply HQ. reflexivity.
Qed.

Lemma never_foldM A B (body : A -> B -> M S B) l acc :
  (forall a b, never_raises e (body a b)) -> never_raises e (foldM body l acc).
Proof.
  intros Hb. revert acc. induction l as [|a l IH]; intros acc; cbn.
  - apply never_ret.
  - apply never_bind; [apply Hb|intros b; apply IH].
Qed.

Lemma never_replicateM A (m : M S A) n :
  never_raises e m -> never_raises e (replicateM n m).
Proof.
  intros Hm. induction n as [|n IH]; cbn; [apply never_ret|].
  apply never_bind; [assumption|intros a].
  apply never_bind; [assumption|intros l]. apply never_ret.
Qed.
End Never.

Lemma never_random e : never_raises e random.
Proof. intros w. discriminate. Qed.

Lemma never_randint e a b : e <> ValueError -> never_raises e (randint a b).
Proof.
  intros H w. unfold randint. destruct (b <? a)%Z; cbn; congruence.
Qed.

Lemma randint_range a b w v w' :
  randint a b w = (Ok v, w') -> (a <= v <= b)%Z.
Proof.
  unfold randint. destruct (Z.ltb_spec b a); [discriminate|].
  unfold bind, draw, ret. intros E. inversion E; subst.
  pose proof (Z.mod_pos_bound (tape w (cursor w)) (b - a + 1)). lia.
Qed.

Lemma randint_total a b w :
  (a <= b)%Z -> exists v w', randint a b w = (Ok v, w').
Proof.
  intros H. unfold randint. destruct (Z.ltb_spec b a); [lia|].
  unfold bind, draw, ret. eauto.
Qed.

Lemma never_init e N s wr genome a :
  e <> ZeroDivisionError -> never_raises e (__init__ N s wr genome a).
Proof.
  intros He. unfold __init__.
  apply never_bind; [apply never_get|intros w].
  apply never_bind; [apply never_modify|intros _].
  apply never_bind.
  { destruct genome; [apply never_ret|].
    apply never_replicateM, never_replicateM, never_random. }
  intros g. apply never_bind; [|intros adj; apply never_ret].
  apply never_lift with (P := eq ZeroDivisionError); [|congruence].
  apply rmap_raises. intros row. apply rmap_raises. intros x.
  apply raises_only_rbind; [apply sparsify_raises|intros v; apply raises_only_Ok].
Qed.

Lemma thresholds_four a b c d :
  thresholds [a; b; c; d]
  = [Zsum [a]; Zsum [a; b]; Zsum [a; b; c]; Zsum [a; b; c; d]].
Proof. reflexivity. Qed.

Ltac never_index :=
  repeat first
    [ apply never_ret
    | apply never_random
    | apply never_lift with (P := eq IndexError);
      [ first [ apply getitem_raises | apply setitem_raises
              | apply getitem2_raises | apply setitem2_raises ]
      | congruence ]
    | apply never_randint; congruence
    | apply never_bind; [ | intros ? ] ].

Lemma mutate_cell_no_exit N rate odds i j g :
  length odds = 4%nat ->
  never_raises SystemExit (mutate_cell N rate odds (thresholds odds) i j g).
Proof.
  intros Hlen.
  destruct odds as [|a [|b [|c [|d [|]]]]]; try discriminate.
  rewrite thresholds_four. unfold mutate_cell.
  apply never_bind; [apply never_random|intros r].
  destruct (Qleb r rate); [|apply never_ret].
  apply never_bind_post with (Q := fun ty => (ty <= Zsum [a; b; c; d])%Z).
  { apply never_randint. congruence. }
  { intros w ty w' E. apply randint_range in E. lia. }
  intros ty Hty. cbn [getitem nth_error].
  apply never_bind; [never_index|intros t0].
  destruct (ty <=? t0)%Z; [never_index|].
  apply never_bind; [never_index|intros t1].
  destruct (ty <=? t1)%Z; [never_index|].
  apply never_bind; [never_index|intros t2].
  destruct (ty <=? t2)%Z; [never_index|].
  apply never_bind_post with (Q := eq (Zsum [a; b; c; d])).
  { never_index. }
  { intros w t3 w' E. cbv [lift getitem nth_error] in E. congruence. }
  intros t3 <-. destruct (Z.leb_spec ty (Zsum [a; b; c; d])); [|lia].
  never_index.
Qed.

Lemma makeMutatedCopy_no_exit self rate odds :
  length odds = 4%nat -> never_raises SystemExit (makeMutatedCopy self rate odds).
Proof.
  intros Hlen. unfold makeMutatedCopy.
  apply never_bind.
  { apply never_foldM. intros i g. apply never_foldM. intros j g'.
    now apply mutate_cell_no_exit. }
  intros g. apply never_bind; [apply never_random|intros r].
  apply never_bind.
  { destruct (Qltb rate r); [apply never_ret|].
    apply never_bind; [apply never_random|intros r']. apply never_ret. }
  intros sp. apply never_init. congruence.
Qed.

(** C9. For a tuple of four odds the last cumulative threshold is the sum
    of the odds, the draw of [randint(1, sum)] is at most that sum (and is
    made whenever the sum is positive), and [makeMutatedCopy] never reaches
    the [exit(1)] of its fallback branch. *)
Theorem mutation_fallback_unreachable mutationOdds :
  length mutationOdds = 4%nat ->
  getitem (thresholds mutationOdds) 3 = Ok (Zsum mutationOdds) /\
  (forall w mutationType w',
      randint 1 (Zsum mutationOdds) w = (Ok mutationType, w') ->
      (1 <= mutationType <= Zsum mutationOdds)%Z) /\
  ((0 < Zsum mutationOdds)%Z ->
   forall w, exists mutationType w',
       randint 1 (Zsum mutationOdds) w = (Ok mutationType, w')) /\
  (forall self mutationRate,
      never_raises SystemExit (makeMutatedCopy self mutationRate mutationOdds)).
Proof.
  intros Hlen. repeat split.
  - destruct mutationOdds as [|a [|b [|c [|d [|]]]]]; try discriminate.
    reflexivity.
  - apply randint_range in H. lia.
  - apply randint_range in H. lia.
  - intros Hpos w. apply randint_total. lia.
  - intros self rate. now apply makeMutatedCopy_no_exit.
Qed.

(** ** What crossover can raise *)

Lemma rfilter_raises A P (f : A -> result bool) l :
  (forall a, raises_only P (f a)) -> raises_only P (rfilter f l).
Proof.
  intros Hf. induction l as [|a l IH]; cbn; [apply raises_only_Ok|].
  apply raises_only_rbind; [apply Hf|intros keep].
  apply raises_only_rbind; [apply IH|intros rest]. apply raises_only_Ok.
Qed.

Lemma candidates_raises other N cur vis comp :
  raises_only (eq IndexError) (candidates other N cur vis comp).
Proof.
  unfold candidates. apply rfilter_raises. intros i.
  apply raises_only_rbind; [apply getitem_raises|intros row].
  apply raises_only_rbind; [apply getitem_raises|intros wt].
  apply raises_only_Ok.
Qed.

Lemma pop_frontier_raises algorithm cur vis :
  raises_only (eq IndexError) (pop_frontier algorithm cur vis).
Proof.
  intros e. unfold pop_frontier.
  destruct (algorithm =? "DFS")%string; [destruct vis; congruence|].
  destruct (algorithm =? "BFS")%string; [destruct vis; congruence|congruence].
Qed.

Lemma retreat_raises algorithm other N fuel s :
  raises_only (eq IndexError) (retreat fuel algorithm other N s).
Proof.
  revert s. induction fuel as [|fuel IH]; intros s; cbn [retreat].
  - apply raises_only_Ok.
  - destruct (_ && _); [|apply raises_only_Ok].
    apply raises_only_rbind; [apply pop_frontier_raises|intros [cur' vis']].
    apply raises_only_rbind; [apply candidates_raises|intros av']. apply IH.
Qed.

Lemma never_sample1 e population : e <> ValueError -> never_raises e (sample1 population).
Proof.
  intros H w. unfold sample1. destruct population; cbn; congruence.
Qed.

Lemma never_walk e algorithm other rate N fuel s :
  ~ crossover_error e -> never_raises e (walk fuel algorithm other rate N s).
Proof.
  unfold crossover_error. intros He. revert s.
  induction fuel as [|fuel IH]; intros s; cbn [walk]; [apply never_ret|].
  apply never_bind; [apply never_random|intros r].
  destruct (_ && _); [|apply never_ret].
  apply never_bind; [apply never_sample1; tauto|intros x].
  apply never_bind; [|intros av'].
  { apply never_lift with (P := eq IndexError); [apply candidates_raises|].
    intros <-. tauto. }
  apply never_bind; [|intros s'; apply IH].
  apply never_lift with (P := eq IndexError); [apply retreat_raises|].
  intros <-. tauto.
Qed.

Lemma never_take_rows e other l g :
  ~ crossover_error e ->
  never_raises e (@foldM World _ _ (fun i g => lift (take_row other i g)) l g).
Proof.
  unfold crossover_error. intros He. apply never_foldM. intros i g'.
  apply never_lift with (P := eq IndexError); [|intros <-; tauto].
  unfold take_row. apply raises_only_rbind; [apply getitem_raises|intros row].
  apply setitem_raises.
Qed.

Lemma never_cross e self other rate odds :
  ~ crossover_error e -> never_raises e (cross self other rate odds).
Proof.
  intros He. pose proof He as He'. unfold crossover_error in He'.
  assert (Hidx : forall A (l : list A) i, never_raises e (@lift World _ (getitem l i))).
  { intros A l i. apply never_lift with (P := eq IndexError);
      [apply getitem_raises|intros <-; tauto]. }
  assert (Hwalk : forall algorithm,
             ((algorithm =? "DFS")%string || (algorithm =? "BFS")%string = true) ->
             never_raises e (xover_traversal_helper other rate algorithm)).
  { intros algorithm Halg. unfold xover_traversal_helper. rewrite Halg.
    apply never_bind; [now apply never_walk|intros s; apply never_ret]. }
  unfold cross.
  apply never_bind; [apply never_randint; tauto|intros ty].
  apply never_bind; [apply Hidx|intros t0].
  apply never_bind; [|intros g; apply never_init; tauto].
  destruct (ty <=? t0)%Z.
  { apply never_foldM. intros i g.
    apply never_bind; [apply never_random|intros r].
    destruct (Qleb r rate); [|apply never_ret].
    apply never_lift with (P := eq IndexError); [|intros <-; tauto].
    unfold take_row. apply raises_only_rbind; [apply getitem_raises|intros row].
    apply setitem_raises. }
  apply never_bind; [apply Hidx|intros t1].
  destruct (ty <=? t1)%Z.
  { apply never_bind; [now apply Hwalk|intros l]. now apply never_take_rows. }
  apply never_bind; [apply Hidx|intros t2].
  destruct (ty <=? t2)%Z; [|apply never_ret].
  apply never_bind; [now apply Hwalk|intros l]. now apply never_take_rows.
Qed.

Lemma crossover_raises self other rate odds generation w e :
  child (makeCrossedCopyWith self other rate odds generation w) = Raise e ->
  crossover_error e.
Proof.
  unfold makeCrossedCopyWith.
  destruct (cross _ _ _ _ _) as [r w'] eqn:E. cbn. intros ->.
  assert (Hdec : crossover_error e \/ ~ crossover_error e).
  { unfold crossover_error. destruct e; intuition congruence. }
  destruct Hdec as [H|H]; [assumption|].
  exfalso. refine (@never_cross e _ _ rate odds H w _). rewrite E. reflexivity.
Qed.

(** ** Crossover of parents of different sizes *)

Lemma replace_nth_length A (l : list A) i v : length (replace_nth l i v) = length l.
Proof.
  revert i. induction l as [|h t IH]; intros [|i]; cbn; auto.
Qed.

Lemma replace_nth_lookup A (l : list A) i v k :
  (i < length l)%nat ->
  nth_error (replace_nth l i v) k = if (k =? i)%nat then Some v else nth_error l k.
Proof.
  revert i k. induction l as [|h t IH]; intros [|i] [|k] H; cbn in *; try lia; auto.
  apply IH. lia.
Qed.

Lemma take_row_ok other i g :
  (i < length g)%nat -> (i < length (genotypeMatrix other))%nat ->
  exists row, nth_error (genotypeMatrix other) i = Some row /\
              take_row other i g = Ok (replace_nth g i row).
Proof.
  intros Hg Ho. unfold take_row, getitem, setitem.
  destruct (nth_error (genotypeMatrix other) i) as [row|] eqn:E.
  - exists row. split; [reflexivity|]. cbn [rbind].
    destruct (Nat.ltb_spec i (length g)); [reflexivity|lia].
  - apply nth_error_None in E. lia.
Qed.

Lemma rows_from_refl g donor : rows_from g donor g.
Proof. split; [reflexivity|now left]. Qed.

Lemma rows_from_step g donor g1 i row :
  rows_from g donor g1 -> (i < length g1)%nat -> nth_error donor i = Some row ->
  rows_from g donor (replace_nth g1 i row).
Proof.
  intros [Hlen Hrows] Hi Hrow. split.
  - now rewrite replace_nth_length.
  - intros k. rewrite replace_nth_lookup by assumption.
    destruct (Nat.eqb_spec k i); [subst; right; now rewrite Hrow|apply Hrows].
Qed.

Lemma uniform_rows_ok other rate l g0 g w :
  rows_from g0 (genotypeMatrix other) g ->
  Forall (fun i => (i < length g0)%nat /\ (i < length (genotypeMatrix other))%nat) l ->
  exists g' w',
    foldM (fun i g =>
             r <- random ;;
             if Qleb r rate then lift (take_row other i g) else ret g)%py
          l g w = (Ok g', w')
    /\ rows_from g0 (genotypeMatrix other) g'.
Proof.
  intros Hg Hl. revert g w Hg.
  induction Hl as [|i l [Hi Ho] _ IH]; intros g w Hg; cbn.
  - unfold ret. eauto.
  - unfold bind at 1. unfold bind at 1. unfold random at 1.
    unfold bind at 1. unfold draw at 1. unfold ret at 1.
    destruct (Qleb _ rate).
    + destruct (@take_row_ok other i g) as (row & Hrow & E);
        [destruct Hg as [-> _]; assumption|assumption|].
      unfold lift. rewrite E. apply IH.
      apply rows_from_step; auto. destruct Hg as [-> _]; assumption.
    + unfold ret at 1. now apply IH.
Qed.

Lemma init_total N s lo hi g a w :
  ~ hi + Qabs lo == 0 ->
  exists o w', __init__ N s (lo, hi) (Some g) a w = (Ok o, w').
Proof.
  intros Hwr. unfold __init__, bind, get, modify, ret, lift. cbn.
  destruct (@rmap_total (list Q) (list Q)
              (rmap (fun val => v <~ sparsify val s (lo, hi) ;; Ok (round3 v))%py) g)
    as [adj E].
  - intros row _. apply rmap_total. intros x _.
    destruct (@sparsify_total x s lo hi Hwr) as [q ->]. cbn. eauto.
  - rewrite E. eauto.
Qed.

Lemma tick_fields o generation :
  genotypeMatrix (tick o generation) = genotypeMatrix o /\
  numNodes (tick o generation) = numNodes o /\
  sparsity (tick o generation) = sparsity o /\
  weightRange (tick o generation) = weightRange o.
Proof. unfold tick. destruct (clock o <? generation)%Z; repeat split. Qed.

(** C1 (as the code has it). [makeCrossedCopyWith] never compares the sizes
    of the parents: whatever the parents and the odds, the only exceptions it
    can end in are those of an index out of range, of an empty range of draws
    and of a division by zero.  With only the uniform-per-row strategy
    enabled and [self] the smaller parent (genomes of [numNodes] rows each,
    the range of [self] not degenerate) it returns a child of
    [self.numNodes] nodes, each row taken from [self] or, at the same index,
    from [other], aged as the older parent after the bookkeeping. *)
Theorem crossover_mismatched_sizes self other rate c generation w :
  (forall crossOdds e,
      child (makeCrossedCopyWith self other rate crossOdds generation w) = Raise e ->
      crossover_error e) /\
  ((1 <= c)%Z ->
   length (genotypeMatrix self) = numNodes self ->
   length (genotypeMatrix other) = numNodes other ->
   (numNodes self < numNodes other)%nat ->
   ~ snd (weightRange self) + Qabs (fst (weightRange self)) == 0 ->
   exists o,
     child (makeCrossedCopyWith self other rate [c; 0; 0]%Z generation w) = Ok o /\
     numNodes o = numNodes self /\
     rows_from (genotypeMatrix self) (genotypeMatrix other) (genotypeMatrix o) /\
     age o = Z.max (age (tick self generation)) (age (tick other generation))).
Proof.
  split; [intros crossOdds e; apply crossover_raises|].
  intros Hc Hself Hother Hlt Hwr. unfold makeCrossedCopyWith.
  destruct (tick_fields self generation) as (Eg & En & Es & Ew).
  destruct (tick_fields other generation) as (Eg' & _).
  set (self' := tick self generation) in *.
  set (other' := tick other generation) in *.
  unfold cross. unfold bind at 1.
  destruct (@randint_total 1 (Zsum [c; 0; 0]%Z) w) as (ty & w1 & E); [cbn; lia|].
  rewrite E. apply randint_range in E. cbn in E.
  unfold bind at 1. cbn [lift thresholds getitem nth_error map range seq length].
  cbn [firstn Nat.add Zsum fold_right].
  destruct (Z.leb_spec ty (c + 0)); [|lia].
  unfold bind at 1.
  destruct (@uniform_rows_ok other' rate (range (numNodes self'))
              (genotypeMatrix self') (genotypeMatrix self') w1)
    as (g & w2 & Efold & Hrows).
  { apply rows_from_refl. }
  { apply Forall_forall. intros i Hi. apply in_seq in Hi.
    rewrite Eg, Eg', En in *. lia. }
  rewrite Efold.
  destruct (weightRange self') as [lo hi] eqn:Ewr.
  destruct (@init_total (numNodes self') (sparsity self') lo hi g
              (Z.max (age self') (age other')) w2) as (o & w3 & Einit).
  { rewrite <- Ew in Hwr. exact Hwr. }
  rewrite Einit. exists o. cbn [child self_after other_after].
  apply init_inv in Einit
    as (g1 & adj & Hg1 & _ & _ & Hsome & HN & _ & _ & Hage & _).
  subst g1. rewrite Hsome. repeat split; try tauto.
  - now rewrite HN, En.
  - destruct Hrows as [Hl _]. now rewrite Hl, Eg.
  - destruct Hrows as [_ Hr]. intros i. rewrite <- Eg, <- Eg'. apply Hr.
Qed.

(** ** The walk ends *)

Lemma rfilter_In A (f : A -> result bool) l l' x :
  rfilter f l = Ok l' -> In x l' -> In x l /\ f x = Ok true.
Proof.
  revert l'. induction l as [|a l IH]; cbn; intros l' H Hx.
  - inversion H; subst. destruct Hx.
  - destruct (f a) as [keep|] eqn:E; [|discriminate]. cbn in H.
    destruct (rfilter f l) as [rest|]; [|discriminate]. cbn in H.
    inversion H; subst; clear H.
    destruct keep.
    + destruct Hx as [<-|Hx]; [auto|]. destruct (IH _ eq_refl Hx). auto.
    + destruct (IH _ eq_refl Hx). auto.
Qed.

Lemma mem_In i l : mem i l = true <-> In i l.
Proof.
  unfold mem. rewrite existsb_exists. split.
  - intros (x & Hx & E). apply Nat.eqb_eq in E. now subst.
  - intros H. exists i. split; [assumption|apply Nat.eqb_refl].
Qed.

Lemma candidates_spec other N cur vis comp av x :
  candidates other N cur vis comp = Ok av -> In x av ->
  (x < N)%nat /\ ~ In x vis /\ ~ In x comp.
Proof.
  intros H Hx. destruct (@rfilter_In _ _ _ _ _ H Hx) as [Hr Hf].
  apply in_seq in Hr. split; [lia|].
  destruct (getitem (adjacencyMatrix other) cur) as [row|]; [|discriminate].
  cbn in Hf. destruct (getitem row x) as [wt|]; [|discriminate]. cbn in Hf.
  inversion Hf as [Hb]. apply andb_prop in Hb as [Hb Hc].
  apply andb_prop in Hb as [_ Hv].
  split; intros Hin; apply mem_In in Hin.
  - rewrite Hin in Hv. discriminate.
  - rewrite Hin in Hc. discriminate.
Qed.

Lemma pop_frontier_spec algorithm cur vis cur' vis' :
  pop_frontier algorithm cur vis = Ok (cur', vis') ->
  vis <> [] ->
  incl vis' vis /\ (NoDup vis -> NoDup vis') /\
  (length vis <= S (length vis'))%nat /\ (length vis' <= length vis)%nat.
Proof.
  unfold pop_frontier. intros H Hne.
  destruct (algorithm =? "DFS")%string.
  - destruct vis as [|v vis0] eqn:Ev; [discriminate|]. rewrite <- Ev in *.
    inversion H; subst cur' vis'; clear H.
    assert (Hsplit : vis = removelast vis ++ [last vis cur])
      by (apply app_removelast_last; assumption).
    repeat split.
    + intros x Hx. rewrite Hsplit. apply in_or_app. now left.
    + intros Hnd. rewrite Hsplit in Hnd. now apply NoDup_remove_1 in Hnd; rewrite app_nil_r in Hnd.
    + rewrite Hsplit at 1. rewrite length_app. cbn. lia.
    + rewrite Hsplit at 2. rewrite length_app. cbn. lia.
  - destruct (algorithm =? "BFS")%string.
    + destruct vis as [|v vis0]; [discriminate|].
      inversion H; subst; clear H. repeat split; cbn; try lia.
      * intros x Hx. now right.
      * intros Hnd. now inversion Hnd.
    + inversion H; subst. repeat split; auto. apply incl_refl.
Qed.

Lemma frontier_bounded N vis :
  NoDup vis -> (forall x, In x vis -> (x < N)%nat) -> (length vis <= N)%nat.
Proof.
  intros Hnd Hlt. rewrite <- (length_seq N 0).
  apply NoDup_incl_length; [assumption|].
  intros x Hx. apply in_seq. specialize (Hlt _ Hx). lia.
Qed.

Lemma retreat_spec algorithm other N fuel s s' :
  retreat fuel algorithm other N s = Ok s' ->
  walk_inv N s ->
  walk_inv N s' /\ (walk_measure N s' <= walk_measure N s)%nat.
Proof.
  revert s. induction fuel as [|fuel IH]; intros s H Hinv; cbn [retreat] in H.
  - inversion H; subst. split; [assumption|reflexivity].
  - destruct (is_empty (available s) && (length (completed s) <? N)%nat
              && negb (is_empty (visited s))) eqn:G.
    2:{ inversion H; subst. split; [assumption|reflexivity]. }
    apply andb_prop in G as [G Gv]. apply andb_prop in G as [_ Gc].
    apply Nat.ltb_lt in Gc.
    assert (Hne : visited s <> []) by (destruct (visited s); [discriminate|congruence]).
    destruct (pop_frontier algorithm (currentNode s) (visited s)) as [[cur' vis']|] eqn:P;
      [|discriminate]. cbn [rbind] in H.
    destruct (candidates other N cur' vis' (completed s ++ [currentNode s]))
      as [av'|] eqn:C; [|discriminate]. cbn [rbind] in H.
    destruct (@pop_frontier_spec _ _ _ _ _ P Hne) as (Hincl & Hnd & Hlen1 & Hlen2).
    destruct Hinv as (Ind & Ilt & Iav).
    apply IH in H.
    + destruct H as [Hinv' Hm]. split; [assumption|].
      etransitivity; [exact Hm|].
      unfold walk_measure. cbn [completed visited]. rewrite length_app. cbn [length].
      pose proof (frontier_bounded Ind Ilt). lia.
    + repeat split; cbn [visited available].
      * auto.
      * intros x Hx. apply Ilt, Hincl, Hx.
      * destruct (@candidates_spec _ _ _ _ _ _ _ C H0). assumption.
      * destruct (@candidates_spec _ _ _ _ _ _ _ C H0) as (_ & Hv & _). assumption.
Qed.

Lemma retreat_fuel_enough algorithm other N fuel1 fuel2 s :
  (N - length (completed s) <= fuel1)%nat ->
  (N - length (completed s) <= fuel2)%nat ->
  retreat fuel1 algorithm other N s = retreat fuel2 algorithm other N s.
Proof.
  revert fuel2 s. induction fuel1 as [|fuel1 IH]; intros fuel2 s H1 H2.
  - destruct fuel2 as [|fuel2]; [reflexivity|]. cbn [retreat].
    destruct (Nat.ltb_spec (length (completed s)) N); [lia|].
    now rewrite andb_false_r.
  - destruct fuel2 as [|fuel2]; cbn [retreat].
    + destruct (Nat.ltb_spec (length (completed s)) N); [lia|].
      now rewrite andb_false_r.
    + destruct (is_empty (available s) && (length (completed s) <? N)%nat
                && negb (is_empty (visited s))) eqn:G; [|reflexivity].
      apply andb_prop in G as [G _]. apply andb_prop in G as [_ Gc].
      apply Nat.ltb_lt in Gc.
      destruct (pop_frontier _ _ _) as [[cur' vis']|]; [|reflexivity]. cbn [rbind].
      destruct (candidates _ _ _ _ _) as [av'|]; [|reflexivity]. cbn [rbind].
      apply IH; cbn [completed]; rewrite length_app; cbn [length]; lia.
Qed.

Lemma sample1_In population w x w' :
  sample1 population w = (Ok x, w') -> In x population.
Proof.
  unfold sample1. destruct population as [|d l]; [discriminate|].
  remember (d :: l) as p eqn:Ep.
  assert (Hpos : (0 < length p)%nat) by (subst p; cbn; lia).
  clear Ep. unfold bind, draw, ret. intros E.
  apply (f_equal fst) in E. cbn [fst] in E. injection E as <-.
  apply nth_In.
  pose proof (Z.mod_pos_bound (tape w (cursor w)) (Z.of_nat (length p))) as B.
  lia.
Qed.

Lemma bind_cong S A B (m : M S A) (k1 k2 : A -> M S B) s :
  (forall a s', m s = (Ok a, s') -> k1 a s' = k2 a s') ->
  bind m k1 s = bind m k2 s.
Proof.
  intros H. unfold bind. destruct (m s) as [[a|e] s']; [now apply H|reflexivity].
Qed.

Lemma lift_Ok_inv S A (r : result A) (s s' : S) a :
  lift r s = (Ok a, s') -> r = Ok a.
Proof. unfold lift. congruence. Qed.

Lemma walk_fuel_independent algorithm other rate N fuel1 :
  forall fuel2 s w,
    walk_inv N s ->
    (walk_measure N s < fuel1)%nat -> (walk_measure N s < fuel2)%nat ->
    walk fuel1 algorithm other rate N s w = walk fuel2 algorithm other rate N s w.
Proof.
  induction fuel1 as [|fuel1 IH]; intros fuel2 s w Hinv H1 H2; [lia|].
  destruct fuel2 as [|fuel2]; [lia|]. cbn [walk].
  apply bind_cong. intros r w1 _.
  destruct (Qleb r rate && (length (completed s) <? N)%nat
            && negb (is_empty (available s))) eqn:G; [|reflexivity].
  apply andb_prop in G as [G _]. apply andb_prop in G as [_ Gc].
  apply Nat.ltb_lt in Gc.
  apply bind_cong. intros x w2 Es. apply sample1_In in Es.
  destruct Hinv as (Ind & Ilt & Iav). destruct (Iav _ Es) as [Hx Hnew].
  apply bind_cong. intros av' w3 C. apply lift_Ok_inv in C.
  set (s1 := mkWalk x (visited s ++ [x]) (completed s) av').
  assert (Hinv1 : walk_inv N s1).
  { repeat split; cbn [visited available s1].
    - apply NoDup_app; repeat split; auto.
      + constructor; [intros []|constructor].
      + intros y Hy [<-|[]]. contradiction.
    - intros y Hy. apply in_app_or in Hy as [Hy|[<-|[]]]; auto.
    - destruct (@candidates_spec _ _ _ _ _ _ _ C H). assumption.
    - destruct (@candidates_spec _ _ _ _ _ _ _ C H) as (_ & Hv & _). assumption. }
  assert (Hm1 : (S (walk_measure N s1) <= walk_measure N s)%nat).
  { destruct Hinv1 as (Ind1 & Ilt1 & _).
    pose proof (frontier_bounded Ind1 Ilt1) as B.
    unfold walk_measure. cbn [visited completed s1] in *.
    rewrite length_app in *. cbn [length] in *. lia. }
  apply bind_cong. intros s' w4 R. apply lift_Ok_inv in R.
  destruct (@retreat_spec _ _ _ _ _ _ R Hinv1) as [Hinv' Hm'].
  apply IH; [assumption|lia|lia].
Qed.

Lemma walk_start_inv N : walk_inv N (mkWalk 0 [] [] (range N)).
Proof.
  repeat split; cbn.
  - constructor.
  - intros x [].
  - apply in_seq in H. lia.
  - intros [].
Qed.

(** Any fuel from [walk_bound N] on gives the outer loop of
    [xover_traversal_helper] the same outcome: the bound is never what ends
    the loop. *)
Lemma walk_fuel_enough algorithm other rate N fuel w :
  (walk_bound N <= fuel)%nat ->
  walk fuel algorithm other rate N (mkWalk 0 [] [] (range N)) w
  = walk (walk_bound N) algorithm other rate N (mkWalk 0 [] [] (range N)) w.
Proof.
  intros H. apply walk_fuel_independent.
  - apply walk_start_inv.
  - unfold walk_measure, walk_bound in *. cbn. lia.
  - unfold walk_measure, walk_bound. cbn. lia.
Qed.

(** ** The walk stays in the graph *)

Lemma pop_frontier_node algorithm cur vis cur' vis' :
  pop_frontier algorithm cur vis = Ok (cur', vis') ->
  cur' = cur \/ In cur' vis.
Proof.
  unfold pop_frontier. intros H.
  destruct (algorithm =? "DFS")%string.
  - destruct vis as [|v vis0] eqn:Ev; [discriminate|]. rewrite <- Ev in *.
    inversion H; subst cur' vis'. right.
    rewrite (@app_removelast_last _ vis cur) at 2 by (rewrite Ev; discriminate).
    apply in_or_app. right. now left.
  - destruct (algorithm =? "BFS")%string.
    + destruct vis as [|v vis0]; [discriminate|]. inversion H; subst. right. now left.
    + inversion H; subst. now left.
Qed.

Lemma retreat_in_range algorithm other N fuel s s' :
  retreat fuel algorithm other N s = Ok s' ->
  walk_in_range N s -> (currentNode s < N)%nat ->
  walk_in_range N s'.
Proof.
  revert s. induction fuel as [|fuel IH]; intros s H Hr Hc; cbn [retreat] in H.
  - inversion H; subst. assumption.
  - destruct (is_empty (available s) && (length (completed s) <? N)%nat
              && negb (is_empty (visited s))) eqn:G.
    2:{ inversion H; subst. assumption. }
    apply andb_prop in G as [_ Gv].
    assert (Hne : visited s <> []) by (destruct (visited s); [discriminate|congruence]).
    destruct (pop_frontier algorithm (currentNode s) (visited s)) as [[cur' vis']|] eqn:P;
      [|discriminate]. cbn [rbind] in H.
    destruct (candidates other N cur' vis' (completed s ++ [currentNode s]))
      as [av'|] eqn:C; [|discriminate]. cbn [rbind] in H.
    destruct (@pop_frontier_spec _ _ _ _ _ P Hne) as (Hincl & _).
    destruct Hr as (Rv & Rc & Ra).
    apply IH in H; [assumption| |].
    + repeat split; cbn [visited completed available].
      * intros x Hx. apply Rv, Hincl, Hx.
      * intros x Hx. apply in_app_or in Hx as [Hx|[<-|[]]]; auto.
      * intros x Hx. now destruct (@candidates_spec _ _ _ _ _ _ _ C Hx).
    + cbn [currentNode]. destruct (pop_frontier_node _ _ _ P) as [->|Hin]; auto.
Qed.

Lemma walk_in_range_kept algorithm other rate N fuel :
  forall s w s' w',
    walk fuel algorithm other rate N s w = (Ok s', w') ->
    walk_in_range N s -> walk_in_range N s'.
Proof.
  induction fuel as [|fuel IH]; intros s w s' w' H Hr; cbn [walk] in H.
  - inversion H; subst. assumption.
  - apply bind_Ok_inv in H as (r & w1 & _ & H).
    destruct (Qleb r rate && (length (completed s) <? N)%nat
              && negb (is_empty (available s))).
    2:{ inversion H; subst. assumption. }
    apply bind_Ok_inv in H as (x & w2 & Es & H). apply sample1_In in Es.
    apply bind_Ok_inv in H as (av' & w3 & C & H). apply lift_Ok_inv in C.
    apply bind_Ok_inv in H as (s1 & w4 & R & H). apply lift_Ok_inv in R.
    destruct Hr as (Rv & Rc & Ra).
    apply IH in H; [assumption|].
    apply retreat_in_range in R; [assumption| |cbn; auto].
    repeat split; cbn [visited completed available].
    + intros y Hy. apply in_app_or in Hy as [Hy|[<-|[]]]; auto.
    + assumption.
    + intros y Hy. now destruct (@candidates_spec _ _ _ _ _ _ _ C Hy).
Qed.

(** Whatever the selector and the draws, a list returned by
    [xover_traversal_helper] holds row indices of the donor only. *)
Lemma traversal_in_range other rate algorithm w l w' :
  xover_traversal_helper other rate algorithm w = (Ok l, w') ->
  Forall (fun i => (i < length (genotypeMatrix other))%nat) l.
Proof.
  unfold xover_traversal_helper. intros H.
  destruct ((algorithm =? "DFS")%string || (algorithm =? "BFS")%string);
    [|discriminate].
  apply bind_Ok_inv in H as (s & w1 & Hw & H). inversion H; subst.
  apply walk_in_range_kept in Hw.
  - destruct Hw as (Rv & Rc & _). apply Forall_forall. intros i Hi.
    apply in_app_or in Hi as [Hi|Hi]; auto.
  - repeat split; cbn; try tauto. intros x Hx. apply in_seq in Hx. lia.
Qed.

(** ** Mutation at rate zero *)

Lemma random_positive w :
  positive_draws w ->
  exists r, random w = (Ok r, advance 1 w) /\ 0 < r.
Proof.
  intros Hpos. unfold random, bind, draw, ret.
  exists (Qmake (tape w (cursor w) mod 2 ^ 53) (2 ^ 53)). split.
  - unfold advance. now rewrite Nat.add_1_r.
  - pose proof (Z.mod_pos_bound (tape w (cursor w)) (2 ^ 53) eq_refl) as B.
    specialize (Hpos (cursor w)). unfold Qlt. cbn [Qnum Qden]. lia.
Qed.

Lemma advance_positive n w : positive_draws w -> positive_draws (advance n w).
Proof. intros H k. apply H. Qed.

Lemma advance_advance n m w : advance m (advance n w) = advance (n + m) w.
Proof. unfold advance. cbn. f_equal. lia. Qed.

Lemma mutate_cell_rate_zero N odds th i j g w :
  positive_draws w ->
  mutate_cell N 0 odds th i j g w = (Ok g, advance 1 w).
Proof.
  intros Hpos. destruct (random_positive Hpos) as (r & E & Hr).
  unfold mutate_cell, bind. rewrite E.
  destruct (Qleb_spec r 0); [lra|reflexivity].
Qed.

Lemma foldM_skip_rows A (body : A -> matrix -> M World matrix) k l g w :
  (forall a g' w', positive_draws w' -> body a g' w' = (Ok g', advance k w')) ->
  positive_draws w ->
  foldM body l g w = (Ok g, advance (length l * k) w).
Proof.
  intros Hb. revert w. induction l as [|a l IH]; intros w Hpos; cbn.
  - unfold ret, advance. rewrite Nat.add_0_r. now destruct w.
  - unfold bind. rewrite Hb by assumption.
    rewrite IH by now apply advance_positive.
    now rewrite advance_advance.
Qed.

(** When no draw of [random()] is exactly 0.0, a mutation at rate 0 is the
    construction of an organism from the parent's own genome, sparsity,
    range and age. *)
Lemma makeMutatedCopy_rate_zero self odds w :
  positive_draws w ->
  makeMutatedCopy self 0 odds w
  = __init__ (numNodes self) (sparsity self) (weightRange self)
                  (Some (genotypeMatrix self)) (age self)
                  (advance (numNodes self * numNodes self + 1) w).
Proof.
  intros Hpos. unfold makeMutatedCopy. unfold bind at 1.
  rewrite (@foldM_skip_rows nat _ (numNodes self)); [|
    |assumption].
  2:{ intros i g w1 H1. rewrite (@foldM_skip_rows nat _ 1%nat); auto.
      - unfold range. now rewrite length_seq, Nat.mul_1_r.
      - intros j g' w2 H2. now apply mutate_cell_rate_zero. }
  unfold range at 1. rewrite length_seq.
  set (w1 := advance (numNodes self * numNodes self) w).
  assert (H1 : positive_draws w1) by now apply advance_positive.
  destruct (random_positive H1) as (r & E & Hr).
  unfold bind at 1. rewrite E.
  destruct (Qltb_spec 0 r); [|lra].
  unfold bind at 1. unfold ret at 1.
  unfold w1. now rewrite advance_advance.
Qed.

(** * Runs on concrete inputs *)

(** C4, an instance: one node, range (0, 0), random genome. *)
Lemma init_degenerate_range_witness :
  0 == 0 /\ (1 <= 1)%nat /\
  fst (__init__ 1 (1 # 2) (0, 0) None 0 (world_of []))
  = Raise ZeroDivisionError.
Proof.
  assert (Hz : 0 == 0) by reflexivity.
  split; [assumption|]. split; [lia|].
  destruct (@init_degenerate_range 1 (1 # 2) 0 0 0%Z (world_of []) Hz Hz)
    as (_ & Hrandom & _).
  apply Hrandom. lia.
Defined.

(** C4 as stated fails: with range (0, 0) an organism without nodes is
    constructed, and the construction of one node fails with the division by
    zero of [sparsify], the same that the bare call of [sparsify] raises. *)
Lemma init_degenerate_range_counterexample :
  (exists o, fst (__init__ 0 (1 # 2) (0, 0) None 0 (world_of [])) = Ok o) /\
  fst (__init__ 1 (1 # 2) (0, 0) (Some [[1 # 2]]) 0 (world_of []))
  = Raise ZeroDivisionError /\
  sparsify (1 # 2) (1 # 2) (0, 0) = Raise ZeroDivisionError.
Proof.
  split; [eexists; reflexivity|]. split; reflexivity.
Qed.

(** C10, an instance: [mixed_signs] has three interactions, two positive
    and one negative, among its four cells. *)
Lemma counts_at_construction_witness :
  numInteractions mixed_signs = 3%nat /\
  numPositive mixed_signs = 2%nat /\ numNegative mixed_signs = 1%nat /\
  numInteractions mixed_signs
  = length (filter (fun val => Qneqb val 0) (concat (adjacencyMatrix mixed_signs))) /\
  (numInteractions mixed_signs <= 2 * 2)%nat.
Proof.
  assert (Hrun : __init__ 2 (1 # 2) (-1, 1)
                   (Some [[1 # 10; 9 # 10]; [1 # 2; 9 # 10]]) 0 (world_of [])
                 = (Ok mixed_signs, mkWorld 1 (tape_of []) 0)) by reflexivity.
  destruct (@counts_at_construction _ _ _ _ _ _ _ _ Hrun)
    as (Hi & _ & _ & _ & _ & _ & Hsquare).
  do 3 (split; [reflexivity|]). split; [exact Hi|].
  destruct Hsquare as (_ & (_ & Hall) & _); [|exact Hall].
  intros g Hg. injection Hg as <-. split; [reflexivity|repeat constructor].
Defined.

(** C10 as stated fails: the constructor accepts a genome that is not
    [numNodes] by [numNodes]; one node with a row of two genes has two
    interactions, more than [numNodes] squared. *)
Lemma counts_at_construction_counterexample :
  __init__ 1 (1 # 2) (-1, 1) (Some [[9 # 10; 9 # 10]]) 0 (world_of [])
  = (Ok wide_row, mkWorld 1 (tape_of []) 0) /\
  numNodes wide_row = 1%nat /\
  numInteractions wide_row = 2%nat /\
  ~ (numInteractions wide_row <= numNodes wide_row * numNodes wide_row)%nat.
Proof.
  do 3 (split; [reflexivity|]). cbn. lia.
Qed.



(** C6, an instance: [errors_low] dominates [errors_high]. *)
Lemma pareto_dominance_witness :
  same_keys errors_low errors_high = true /\
  __gt__ (with_errors errors_low) (with_errors errors_high) = Ok true /\
  __gt__ (with_errors errors_high) (with_errors errors_low) = Ok false.
Proof.
  assert (Hk : same_keys errors_low errors_high = true) by reflexivity.
  assert (Hgt : __gt__ (with_errors errors_low) (with_errors errors_high) = Ok true)
    by reflexivity.
  do 2 (split; [assumption|]).
  destruct pareto_dominance as (_ & Hanti & _).
  apply Hanti; assumption.
Defined.

(** C8, an instance: [two_nodes] is valid when constructed. *)
Lemma valid_flag_monotone_witness :
  __init__ 2 (1 # 2) (-1, 1) (Some [[1 # 4; 3 # 4]; [1 # 2; 1 # 2]]) 0
                (mkWorld 1 (tape_of []) 0)
  = (Ok two_nodes, mkWorld 2 (tape_of []) 0) /\
  valid two_nodes = true.
Proof.
  assert (Hrun : __init__ 2 (1 # 2) (-1, 1)
                   (Some [[1 # 4; 3 # 4]; [1 # 2; 1 # 2]]) 0
                   (mkWorld 1 (tape_of []) 0)
                 = (Ok two_nodes, mkWorld 2 (tape_of []) 0)) by reflexivity.
  split; [assumption|].
  destruct (valid_flag_monotone registry full_overlap) as (Hinit & _).
  exact (Hinit _ _ _ _ _ _ _ _ Hrun).
Defined.

(** C9, an instance: the odds (1, 1, 1, 1). *)
Lemma mutation_fallback_unreachable_witness :
  length [1; 1; 1; 1]%Z = 4%nat /\
  never_raises SystemExit (makeMutatedCopy one_node 1 [1; 1; 1; 1]%Z).
Proof.
  assert (Hlen : length [1; 1; 1; 1]%Z = 4%nat) by reflexivity.
  split; [assumption|].
  destruct (@mutation_fallback_unreachable _ Hlen) as (_ & _ & _ & Hnever).
  apply Hnever.
Defined.

(** C1, an instance: [one_node] crossed with [two_nodes]. *)
Lemma crossover_mismatched_sizes_witness :
  (1 <= 1)%Z /\
  length (genotypeMatrix one_node) = numNodes one_node /\
  length (genotypeMatrix two_nodes) = numNodes two_nodes /\
  (numNodes one_node < numNodes two_nodes)%nat /\
  ~ snd (weightRange one_node) + Qabs (fst (weightRange one_node)) == 0 /\
  exists o,
    child (makeCrossedCopyWith one_node two_nodes (1 # 2) [1; 0; 0]%Z 1
                               (world_of [0; 0]%Z)) = Ok o /\
    numNodes o = 1%nat.
Proof.
  assert (Hc : (1 <= 1)%Z) by lia.
  assert (Hself : length (genotypeMatrix one_node) = numNodes one_node) by reflexivity.
  assert (Hother : length (genotypeMatrix two_nodes) = numNodes two_nodes) by reflexivity.
  assert (Hlt : (numNodes one_node < numNodes two_nodes)%nat) by (cbn; lia).
  assert (Hwr : ~ snd (weightRange one_node) + Qabs (fst (weightRange one_node)) == 0)
    by (vm_compute; discriminate).
  do 5 (split; [assumption|]).
  destruct (@crossover_mismatched_sizes one_node two_nodes (1 # 2) 1 1
              (world_of [0; 0]%Z)) as (_ & Hsmaller).
  destruct (Hsmaller Hc Hself Hother Hlt Hwr) as (o & Hchild & HN & _).
  exists o. split; assumption.
Defined.

(** C1 as stated fails: parents of one and of two nodes are crossed into a
    child, whose single row is the first row of the larger parent. *)
Lemma crossover_mismatch_counterexample :
  numNodes one_node <> numNodes two_nodes /\
  exists o,
    child (makeCrossedCopyWith one_node two_nodes (1 # 2) [1; 1; 1]%Z 1
                               (world_of [0; 0]%Z)) = Ok o /\
    numNodes o = 1%nat /\ genotypeMatrix o = [[1 # 4; 3 # 4]].
Proof.
  split; [discriminate|]. eexists. repeat split; reflexivity.
Qed.

(** C3, an instance: the first call of [getError("topology", 1, 1)] on
    [one_node]. *)
Lemma getError_paired_witness :
  ("topology" = "topology" \/ "topology" = "weights")%string /\
  dict_get (errors one_node) "topology" = None /\
  fst (getProperty registry "topology" one_node) = Ok (VSeq [1; 1]) /\
  fst (getError registry full_overlap "topology" (VNum 1) (VNum 1) one_node)
  = Ok ((1 - 1) ^ 2 + (1 - 1) ^ 2).
Proof.
  assert (Hname : ("topology" = "topology" \/ "topology" = "weights")%string)
    by (left; reflexivity).
  assert (Hnew : dict_get (errors one_node) "topology" = None) by reflexivity.
  do 2 (split; [assumption|]). split; [reflexivity|].
  destruct (@getError_paired registry full_overlap "topology" one_node Hname)
    as (Hfirst & _).
  rewrite (Hfirst 1 1 1 1 (snd (getProperty registry "topology" one_node)) Hnew eq_refl).
  reflexivity.
Defined.

(** C3 as stated fails: without [_range] the call raises, and a second call
    with another target and range returns the stored error 0, not 32, and
    runs no test (with no overlap at all the test would clear [valid]). *)
Lemma getError_paired_counterexample :
  fst (getError registry full_overlap "topology" (VNum 1) VNone one_node)
  = Raise TypeError /\
  getError registry no_overlap "topology" (VNum 5) (VNum 5) scored
  = (Ok 0, scored) /\
  ~ (1 - 5) ^ 2 + (1 - 5) ^ 2 == 0 /\
  valid scored = true /\
  valid (snd (check_constraint no_overlap 1 5 1 5 eps_overlap scored)) = false.
Proof.
  repeat split; try reflexivity. vm_compute. discriminate.
Qed.

(** C2 fails on these runs.  Depth first on the graph with the single edge
    0 -> 1, walking 0 then 1: node 1 is returned twice and node 0 not at all.
    Breadth first on the graph with the edges 0 -> 1 and 0 -> 2, walking 0
    then 1 and stopping: node 1 is returned from the frontier and from the
    completed list. *)
Theorem traversal_repeats_node :
  fst (xover_traversal_helper one_edge 1 "DFS" (world_of [0; 0; 0; 1]%Z))
  = Ok [1; 1]%nat /\
  fst (xover_traversal_helper two_edges (1 # 2) "BFS"
                              (world_of [0; 0; 0; 0; 2 ^ 52 + 1]%Z))
  = Ok [1; 1]%nat /\
  ~ NoDup [1; 1]%nat.
Proof.
  repeat split; try reflexivity.
  intros H. inversion H as [|x l Hin _]; subst. apply Hin. now left.
Qed.

(** C7 fails on these runs.  At rate 0 a draw of exactly 0.0 passes the test
    [random() <= mutationRate]: the first run replaces the only cell of the
    genome, 1/2, by 1/4; the second leaves the genome alone and moves the
    sparsity from 1/2 to 7/16. *)
Theorem mutation_rate_zero_changes_genome :
  (exists o,
      fst (makeMutatedCopy one_node 0 [1; 1; 1; 1]%Z
                           (world_of [0; 0; 2 ^ 51; 1]%Z)) = Ok o /\
      genotypeMatrix one_node = [[1 # 2]] /\
      genotypeMatrix o = [[2 ^ 51 # 2 ^ 53]] /\
      ~ (2 ^ 51 # 2 ^ 53) == 1 # 2 /\
      age o = age one_node) /\
  (exists o,
      fst (makeMutatedCopy one_node 0 [1; 1; 1; 1]%Z
                           (world_of [1; 0; 2 ^ 51]%Z)) = Ok o /\
      sparsity one_node == 1 # 2 /\ sparsity o == 7 # 16).
Proof.
  split; eexists; repeat split; try reflexivity.
  vm_compute. discriminate.
Qed.

(** * Further properties *)

(** ** sparsify over exact rationals *)

(** The zone of [x] and the value computed there, for a range that is not
    degenerate. *)
Lemma sparsify_cases x s lo hi :
  0 <= s <= 1 -> 0 <= hi -> ~ hi + Qabs lo == 0 ->
  let t1 := Qabs lo / (hi + Qabs lo) * (1 - s) in
  let t2 := t1 + s in
  exists q k,
    sparsify x s (lo, hi) = Ok q /\
    0 <= k /\ 0 <= t1 /\ t1 <= t2 /\ t2 <= 1 /\
    ((x <= 0 /\ q == - Qabs lo) \/
     (0 < x <= t1 /\ q == k * x - Qabs lo /\ k * t1 == Qabs lo) \/
     (t1 < x <= t2 /\ q == 0) \/
     (t2 < x <= 1 /\ q == k * (x - t2) /\ k * (1 - t2) == hi) \/
     (1 < x /\ q == hi)).
Proof.
  intros Hs Hhi Hsum t1' t2'. subst t1' t2'.
  assert (Habs : 0 <= Qabs lo) by apply Qabs_nonneg.
  unfold sparsify; cbn [fst snd].
  rewrite !truediv_ok by assumption. cbn [rbind].
  set (np := Qabs lo / (hi + Qabs lo)).
  set (pp := hi / (hi + Qabs lo)).
  assert (Hone : np + pp == 1) by (unfold np, pp; field; assumption).
  destruct (@share_bounds (Qabs lo) hi Habs Hhi Hsum) as [Hnp0 Hnp1].
  fold np in Hnp0, Hnp1.
  assert (Hpp0 : 0 <= pp) by (unfold pp; apply Qle_shift_div_l; lra).
  set (t1 := np * (1 - s)). set (t2 := t1 + s).
  assert (Ht1 : 0 <= t1 <= 1 - s) by (unfold t1; split; nra).
  assert (Hb : pp * (1 - s) == 1 - t2).
  { unfold t2, t1. setoid_replace (1 - (np * (1 - s) + s))
      with ((1 - np) * (1 - s)) by ring.
    setoid_replace (1 - np) with pp by lra. reflexivity. }
  assert (Ht2 : t2 == t1 + s) by reflexivity.
  assert (Ht12 : t1 <= t2) by lra.
  assert (Ht21 : t2 <= 1) by lra.
  destruct (Qleb_spec x 0).
  { exists (- Qabs lo), 0.
    split; [reflexivity|]. do 4 (split; [lra|]). left. split; lra. }
  destruct (Qltb_spec 0 x); [|lra]. cbn [andb].
  destruct (Qleb_spec x t1).
  { assert (Hpos : 0 < t1) by lra.
    rewrite truediv_ok by lra. cbn [rbind].
    assert (Hk : 0 <= Qabs lo / t1) by (apply Qle_shift_div_l; lra).
    exists (Qabs lo / t1 * x - Qabs lo), (Qabs lo / t1).
    split; [reflexivity|]. do 4 (split; [lra|]).
    right; left. split; [lra|]. split; [reflexivity|]. field. lra. }
  destruct (Qltb_spec t1 x); [|lra]. cbn [andb].
  destruct (Qleb_spec x t2).
  { exists 0, 0.
    split; [reflexivity|]. do 4 (split; [lra|]). right; right; left. split; lra. }
  destruct (Qltb_spec t2 x); [|lra]. cbn [andb].
  destruct (Qleb_spec x 1).
  { assert (Hpos : 0 < 1 - t2) by lra.
    assert (Hbpos : 0 < pp * (1 - s)) by (rewrite Hb; exact Hpos).
    assert (Hne : ~ pp * (1 - s) == 0) by (intro E; rewrite E in Hbpos; lra).
    rewrite (truediv_ok _ Hne). cbn [rbind].
    assert (Hk : 0 <= hi / (pp * (1 - s))).
    { apply Qle_shift_div_l; [exact Hbpos|]. lra. }
    exists (hi / (pp * (1 - s)) * (x - t2)), (hi / (pp * (1 - s))).
    split; [reflexivity|]. do 4 (split; [lra|]).
    right; right; right; left. split; [lra|]. split; [reflexivity|].
    rewrite <- Hb. field.
    split; intro E; apply Hne; [setoid_replace (pp * (1 - s)) with (pp * 0) by (now rewrite E)|rewrite E]; ring. }
  exists hi, 0.
  split; [reflexivity|]. do 4 (split; [lra|]).
  right; right; right; right. split; lra.
Qed.

Lemma sparsify_value_bounds x s lo hi q :
  0 <= s <= 1 -> lo <= 0 -> 0 <= hi -> ~ (lo == 0 /\ hi == 0) ->
  sparsify x s (lo, hi) = Ok q -> lo <= q <= hi.
Proof.
  intros Hs Hlo Hhi Hnz Hq.
  assert (Habs : Qabs lo == - lo) by (apply Qabs_neg; exact Hlo).
  assert (Hsum : ~ hi + Qabs lo == 0) by (intro E; apply Hnz; split; lra).
  destruct (@sparsify_cases x s lo hi Hs Hhi Hsum)
    as (q' & k & E & Hk & H1 & H12 & H2 & Hz).
  rewrite E in Hq. injection Hq as <-.
  destruct Hz as [[Hx Hv]|[(Hx & Hv & Hkt)|[[Hx Hv]|[(Hx & Hv & Hkt)|[Hx Hv]]]]];
    rewrite Hv; try lra.
  - split; [|nra]. assert (0 <= k * x) by nra. lra.
  - split; nra.
Qed.

(** ** Construction: identifiers, draws and the adjacency matrix *)

Lemma random_unit w :
  exists r, random w = (Ok r, advance 1 w) /\ 0 <= r < 1.
Proof.
  unfold random, bind, draw, ret.
  exists (Qmake (tape w (cursor w) mod 2 ^ 53) (2 ^ 53)). split.
  - unfold advance. now rewrite Nat.add_1_r.
  - pose proof (Z.mod_pos_bound (tape w (cursor w)) (2 ^ 53) eq_refl) as B.
    unfold Qle, Qlt. cbn [Qnum Qden]. lia.
Qed.

Lemma advance_zero w : advance 0 w = w.
Proof. unfold advance. rewrite Nat.add_0_r. now destruct w. Qed.

Lemma replicateM_draws A (m : M World A) (P : A -> Prop) k :
  (forall w, exists a, m w = (Ok a, advance k w) /\ P a) ->
  forall n w, exists l,
    replicateM n m w = (Ok l, advance (n * k) w) /\ length l = n /\ Forall P l.
Proof.
  intros Hm. induction n as [|n IH]; intros w; cbn [replicateM].
  - exists []. cbn. rewrite advance_zero. repeat split; constructor.
  - unfold bind. destruct (Hm w) as (a & E & Pa). rewrite E.
    destruct (IH (advance k w)) as (l & E2 & Hl & HP). rewrite E2.
    exists (a :: l). rewrite advance_advance. cbn. repeat split; auto.
Qed.

(** The genome that the constructor draws when none is given. *)
Lemma random_genome_draws N w :
  exists g,
    replicateM N (replicateM N random) w = (Ok g, advance (N * N) w) /\
    square N g /\
    Forall (Forall (fun gene => 0 <= gene < 1)) g.
Proof.
  destruct (@replicateM_draws (list Q) (replicateM N random)
              (fun row => length row = N /\ Forall (fun gene => 0 <= gene < 1) row)
              (N * 1)) with (n := N) (w := w) as (g & E & Hl & HF).
  - intros w0.
    destruct (@replicateM_draws Q random (fun gene => 0 <= gene < 1) 1%nat
                random_unit N w0) as (row & E & Hl & HF).
    exists row. auto.
  - exists g. rewrite Nat.mul_1_r in E. split; [exact E|]. split.
    + split; [exact Hl|]. eapply Forall_impl; [|exact HF]. now intros row [? _].
    + eapply Forall_impl; [|exact HF]. now intros row [_ ?].
Qed.

(** Every call of the constructor takes one identifier from the counter,
    also a call that raises; the organism it returns carries the identifier
    that the counter showed.  A genome that is given costs no draw, a random
    one costs [numNodes] squared. *)
Theorem init_takes_one_id N s wr genome a w :
  let r := __init__ N s wr genome a w in
  nextID (snd r) = (nextID w + 1)%Z /\
  tape (snd r) = tape w /\
  cursor (snd r) = (cursor w + match genome with Some _ => 0 | None => N * N end)%nat /\
  (forall o, fst r = Ok o -> id o = nextID w).
Proof.
  unfold __init__, bind, get, modify, ret, lift. cbn.
  destruct genome as [g|].
  - destruct (rmap _ g) as [adj|]; cbn; repeat split; try lia.
    + intros o E. now inversion E.
    + intros o E. discriminate.
  - destruct (random_genome_draws N (mkWorld (nextID w + 1) (tape w) (cursor w)))
      as (g & E & _). rewrite E.
    destruct (rmap _ g) as [adj|]; cbn; repeat split; try lia.
    + intros o Eo. now inversion Eo.
    + intros o Eo. discriminate.
Qed.

(** Without a genome and with a range that is not degenerate the
    constructor always returns: an organism of [numNodes] rows of
    [numNodes] genes, each in [0, 1). *)
Theorem init_random_genome N s lo hi a w :
  ~ hi + Qabs lo == 0 ->
  exists o w',
    __init__ N s (lo, hi) None a w = (Ok o, w') /\
    square N (genotypeMatrix o) /\
    Forall (Forall (fun gene => 0 <= gene < 1)) (genotypeMatrix o).
Proof.
  intros Hwr. unfold __init__, bind, get, modify, ret, lift. cbn.
  destruct (random_genome_draws N (mkWorld (nextID w + 1) (tape w) (cursor w)))
    as (g & E & Hsq & Hunit). rewrite E.
  destruct (@rmap_total (list Q) (list Q)
              (rmap (fun val => v <~ sparsify val s (lo, hi) ;; Ok (round3 v))%py) g)
    as [adj Eadj].
  - intros row _. apply rmap_total. intros x _.
    destruct (@sparsify_total x s lo hi Hwr) as [q ->]. cbn. eauto.
  - rewrite Eadj. eexists _, _. split; [reflexivity|]. cbn. split; assumption.
Qed.

(** *** Rounding to three decimals *)

Lemma round_half_even_near q :
  inject_Z (round_half_even q) - (1 # 2) <= q <= inject_Z (round_half_even q) + (1 # 2).
Proof.
  unfold round_half_even.
  pose proof (Qfloor_le q) as Hlo. pose proof (Qlt_floor q) as Hhi.
  rewrite inject_Z_plus in Hhi. change (inject_Z 1) with 1 in Hhi.
  set (f := Qfloor q) in *.
  destruct (Qltb_spec (q - inject_Z f) (1 # 2)); [lra|].
  destruct (Qltb_spec (1 # 2) (q - inject_Z f)).
  { rewrite inject_Z_plus. change (inject_Z 1) with 1. lra. }
  destruct (Z.even f); [lra|].
  rewrite inject_Z_plus. change (inject_Z 1) with 1. lra.
Qed.

Lemma round3_near x : round3 x - (1 # 2000) <= x <= round3 x + (1 # 2000).
Proof.
  unfold round3. pose proof (round_half_even_near (x * 1000)) as H.
  set (n := inject_Z (round_half_even (x * 1000))) in *.
  assert (E : n / 1000 == n * (1 # 1000)) by (field).
  rewrite E. lra.
Qed.

Lemma rmap_cells (f : Q -> result Q) (R : Q -> Q -> Prop) g adj :
  (forall x y, f x = Ok y -> R x y) ->
  rmap (rmap f) g = Ok adj -> cells_related R g adj.
Proof.
  intros Hf H. apply rmap_Forall2 in H.
  induction H as [|row row' g adj Hr _ IH]; constructor; [|exact IH].
  apply rmap_Forall2 in Hr.
  induction Hr as [|x y row row' Hxy _ IHr]; constructor; auto.
Qed.

(** The adjacency matrix has the shape of the genome, row by row, and
    every weight is within half a thousandth of the range. *)
Theorem init_adjacency N s lo hi genome a w o w' :
  0 <= s <= 1 -> lo <= 0 -> 0 <= hi -> ~ (lo == 0 /\ hi == 0) ->
  __init__ N s (lo, hi) genome a w = (Ok o, w') ->
  cells_related (fun gene weight => lo - (1 # 2000) <= weight <= hi + (1 # 2000))
                (genotypeMatrix o) (adjacencyMatrix o).
Proof.
  intros Hs Hlo Hhi Hnz H.
  destruct (init_inv _ _ _ _ _ _ H) as (g & adj & -> & -> & Hadj & _).
  eapply rmap_cells; [|exact Hadj].
  intros x y Hxy. cbn beta in Hxy.
  destruct (sparsify x s (lo, hi)) as [q|] eqn:E; [|discriminate].
  cbn in Hxy. injection Hxy as <-.
  pose proof (@sparsify_value_bounds x s lo hi q Hs Hlo Hhi Hnz E).
  pose proof (round3_near q). lra.
Qed.

(** An instance: a failing construction still takes the identifier 0. *)
Lemma init_takes_one_id_witness :
  nextID (snd (__init__ 1 (1 # 2) (0, 0) (Some [[1 # 2]]) 0 (world_of []))) = 1%Z /\
  fst (__init__ 1 (1 # 2) (-1, 1) (Some [[1 # 2]]) 0 (world_of [])) = Ok one_node /\
  id one_node = 0%Z.
Proof.
  destruct (@init_takes_one_id 1 (1 # 2) (0, 0) (Some [[1 # 2]]) 0 (world_of []))
    as (Hnext & _).
  split; [exact Hnext|].
  assert (Hrun : fst (__init__ 1 (1 # 2) (-1, 1) (Some [[1 # 2]]) 0 (world_of []))
                 = Ok one_node) by reflexivity.
  split; [exact Hrun|].
  destruct (@init_takes_one_id 1 (1 # 2) (-1, 1) (Some [[1 # 2]]) 0 (world_of []))
    as (_ & _ & _ & Hid).
  exact (Hid one_node Hrun).
Defined.

(** An instance: three nodes, the range (-1, 1). *)
Lemma init_random_genome_witness :
  ~ 1 + Qabs (-1) == 0 /\
  exists o w',
    __init__ 3 (1 # 2) (-1, 1) None 0 (world_of []) = (Ok o, w') /\
    square 3 (genotypeMatrix o).
Proof.
  assert (Hwr : ~ 1 + Qabs (-1) == 0) by (vm_compute; discriminate).
  split; [assumption|].
  destruct (@init_random_genome 3 (1 # 2) (-1) 1 0%Z (world_of []) Hwr)
    as (o & w' & E & Hsq & _).
  exists o, w'. split; assumption.
Defined.

(** An instance: the adjacency matrix of [one_edge]. *)
Lemma init_adjacency_witness :
  0 <= 1 # 2 <= 1 /\ -1 <= 0 /\ 0 <= 1 /\ ~ (-1 == 0 /\ 1 == 0) /\
  __init__ 3 (1 # 2) (-1, 1)
           (Some [[1 # 2; 9 # 10; 1 # 2]; [1 # 2; 1 # 2; 1 # 2]; [1 # 2; 1 # 2; 1 # 2]])
           0 (world_of [])
  = (Ok one_edge, mkWorld 1 (tape_of []) 0) /\
  cells_related (fun _ weight => -1 - (1 # 2000) <= weight <= 1 + (1 # 2000))
                (genotypeMatrix one_edge) (adjacencyMatrix one_edge).
Proof.
  assert (Hs : 0 <= 1 # 2 <= 1) by lra.
  assert (Hlo : -1 <= 0) by lra.
  assert (Hhi : 0 <= 1) by lra.
  assert (Hnz : ~ (-1 == 0 /\ 1 == 0)) by lra.
  assert (Hrun : __init__ 3 (1 # 2) (-1, 1)
                   (Some [[1 # 2; 9 # 10; 1 # 2]; [1 # 2; 1 # 2; 1 # 2];
                          [1 # 2; 1 # 2; 1 # 2]])
                   0 (world_of [])
                 = (Ok one_edge, mkWorld 1 (tape_of []) 0)) by reflexivity.
  do 5 (split; [assumption|]).
  exact (@init_adjacency _ _ _ _ _ _ _ _ _ Hs Hlo Hhi Hnz Hrun).
Defined.

(** ** Mutation: what the child keeps *)

Lemma foldM_inv S A B (P : B -> Prop) (body : A -> B -> M S B) l :
  (forall a b s b' s', P b -> body a b s = (Ok b', s') -> P b') ->
  forall acc s r s', P acc -> foldM body l acc s = (Ok r, s') -> P r.
Proof.
  intros Hb. induction l as [|a l IH]; intros acc s r s' Hacc H; cbn [foldM] in H.
  - inversion H; subst. exact Hacc.
  - apply bind_Ok_inv in H as (b & s1 & E & H).
    eapply IH; [|exact H]. eapply Hb; eauto.
Qed.

(** *** Writing one cell *)

Lemma getitem_Ok A (l : list A) i a : getitem l i = Ok a -> nth_error l i = Some a.
Proof. unfold getitem. destruct (nth_error l i); congruence. Qed.

Lemma setitem_Ok A (l : list A) i v l' :
  setitem l i v = Ok l' -> (i < length l)%nat /\ l' = replace_nth l i v.
Proof.
  unfold setitem. destruct (Nat.ltb_spec i (length l)); [|discriminate].
  intros E. inversion E. auto.
Qed.

Lemma setitem2_Ok m i j v m' :
  setitem2 m i j v = Ok m' ->
  exists row u,
    nth_error m i = Some row /\ nth_error row j = Some u /\
    m' = replace_nth m i (replace_nth row j v).
Proof.
  unfold setitem2. intros H.
  destruct (getitem m i) as [row|] eqn:Er; [|discriminate]. cbn [rbind] in H.
  destruct (setitem row j v) as [row'|] eqn:Es; [|discriminate]. cbn [rbind] in H.
  apply getitem_Ok in Er. apply setitem_Ok in Es as [Hj ->].
  apply setitem_Ok in H as [_ ->].
  destruct (nth_error row j) as [u|] eqn:Eu.
  - exists row, u. auto.
  - apply nth_error_None in Eu. lia.
Qed.

Lemma replace_nth_map A B (f : A -> B) (l : list A) i v a :
  nth_error l i = Some a -> f v = f a -> map f (replace_nth l i v) = map f l.
Proof.
  revert i. induction l as [|h t IH]; intros [|i] H E; cbn in *; try discriminate.
  - inversion H; subst. now rewrite E.
  - f_equal. now apply IH.
Qed.

Lemma replace_nth_Forall A (P : A -> Prop) (l : list A) i v :
  Forall P l -> P v -> Forall P (replace_nth l i v).
Proof.
  intros Hl Hv. revert i. induction Hl as [|h t Hh Ht IH]; intros [|i];
    cbn [replace_nth]; constructor; auto.
Qed.

Lemma nth_error_Forall A (P : A -> Prop) (l : list A) i a :
  Forall P l -> nth_error l i = Some a -> P a.
Proof.
  intros Hl H. rewrite Forall_forall in Hl. apply Hl. eapply nth_error_In; eauto.
Qed.

Lemma setitem2_shape m i j v m' : setitem2 m i j v = Ok m' -> shape m' = shape m.
Proof.
  intros H. apply setitem2_Ok in H as (row & u & Hr & Hu & ->).
  unfold shape. apply replace_nth_map with (a := row); [exact Hr|].
  apply replace_nth_length.
Qed.

Lemma setitem2_Forall (P : Q -> Prop) m i j v m' :
  setitem2 m i j v = Ok m' -> Forall (Forall P) m -> P v -> Forall (Forall P) m'.
Proof.
  intros H Hm Hv. apply setitem2_Ok in H as (row & u & Hr & Hu & ->).
  apply replace_nth_Forall; [exact Hm|].
  apply replace_nth_Forall; [|exact Hv].
  eapply nth_error_Forall; eauto.
Qed.

Lemma getitem2_Forall (P : Q -> Prop) m i j v :
  getitem2 m i j = Ok v -> Forall (Forall P) m -> P v.
Proof.
  unfold getitem2. intros H Hm.
  destruct (getitem m i) as [row|] eqn:Er; [|discriminate]. cbn [rbind] in H.
  apply getitem_Ok in Er. apply getitem_Ok in H.
  eapply nth_error_Forall; [|exact H]. eapply nth_error_Forall; eauto.
Qed.

(** *** One cell of the loop *)

Ltac open_bind H :=
  let a := fresh "a" in let w := fresh "w" in let E := fresh "E" in
  apply bind_Ok_inv in H as (a & w & E & H).

Lemma shape_kept odds g0 : kept_by_writes odds (fun g => shape g = shape g0).
Proof.
  intros N rate i j g w g' w' Hg H. unfold mutate_cell in H.
  open_bind H. destruct (Qleb _ rate); [|inversion H; subst; exact Hg].
  do 2 open_bind H.
  repeat match type of H with
         | (if ?c then _ else _) _ = _ => destruct c
         | bind _ _ _ = _ => open_bind H
         | lift _ _ = _ => apply lift_Ok_inv in H
         | throw _ _ = _ => discriminate H
         end;
    repeat match goal with
           | E : lift _ _ = (Ok _, _) |- _ => apply lift_Ok_inv in E
           | E : setitem2 _ _ _ _ = Ok _ |- _ => apply setitem2_shape in E
           end;
    congruence.
Qed.

Lemma clamp_unit v : unit_gene (pymin 1 (pymax 0 v)).
Proof.
  unfold unit_gene, pymax.
  destruct (Qltb_spec 0 v); unfold pymin.
  - destruct (Qltb_spec v 1); lra.
  - destruct (Qltb_spec 0 1); lra.
Qed.

Lemma random_Ok_unit w r w' : random w = (Ok r, w') -> 0 <= r < 1.
Proof.
  intros H. destruct (random_unit w) as (r' & E & Hr). rewrite E in H.
  inversion H; subst. exact Hr.
Qed.

Lemma unit_kept odds : kept_by_writes odds (Forall (Forall unit_gene)).
Proof.
  intros N rate i j g w g' w' Hg H. unfold mutate_cell in H.
  apply bind_Ok_inv in H as (r & w1 & _ & H).
  destruct (Qleb r rate); [|inversion H; subst; exact Hg].
  apply bind_Ok_inv in H as (ty & w2 & _ & H).
  apply bind_Ok_inv in H as (t0 & w3 & _ & H).
  destruct (ty <=? t0)%Z.
  { apply bind_Ok_inv in H as (v & w4 & Ev & H). apply lift_Ok_inv in H.
    apply random_Ok_unit in Ev.
    eapply setitem2_Forall; [exact H|exact Hg|]. unfold unit_gene. lra. }
  apply bind_Ok_inv in H as (t1 & w4 & _ & H).
  destruct (ty <=? t1)%Z.
  { apply bind_Ok_inv in H as (v & w5 & _ & H).
    apply bind_Ok_inv in H as (old & w6 & _ & H). apply lift_Ok_inv in H.
    eapply setitem2_Forall; [exact H|exact Hg|apply clamp_unit]. }
  apply bind_Ok_inv in H as (t2 & w5 & _ & H).
  destruct (ty <=? t2)%Z.
  { apply bind_Ok_inv in H as (old & w6 & Eold & H).
    apply lift_Ok_inv in H. apply lift_Ok_inv in Eold.
    pose proof (@getitem2_Forall _ _ _ _ _ Eold Hg) as Hold.
    eapply setitem2_Forall; [exact H|exact Hg|]. unfold unit_gene in *. lra. }
  apply bind_Ok_inv in H as (t3 & w6 & _ & H).
  destruct (ty <=? t3)%Z; [|discriminate].
  apply bind_Ok_inv in H as (edge1 & w7 & Eedge & H). apply lift_Ok_inv in Eedge.
  apply bind_Ok_inv in H as (iswap & w8 & _ & H).
  apply bind_Ok_inv in H as (jswap & w9 & _ & H).
  apply bind_Ok_inv in H as (swapped & w10 & Eswap & H). apply lift_Ok_inv in Eswap.
  apply bind_Ok_inv in H as (g1 & w11 & Eg1 & H). apply lift_Ok_inv in Eg1.
  apply lift_Ok_inv in H.
  eapply setitem2_Forall; [exact H| |exact (@getitem2_Forall _ _ _ _ _ Eedge Hg)].
  eapply setitem2_Forall; [exact Eg1|exact Hg|exact (@getitem2_Forall _ _ _ _ _ Eswap Hg)].
Qed.

(** *** The whole operation *)

Lemma makeMutatedCopy_inv self rate odds w o w' :
  makeMutatedCopy self rate odds w = (Ok o, w') ->
  (forall P, kept_by_writes odds P -> P (genotypeMatrix self) -> P (genotypeMatrix o)) /\
  (sparsity o = sparsity self \/ unit_gene (sparsity o)) /\
  numNodes o = numNodes self /\ weightRange o = weightRange self /\
  age o = age self /\ valid o = true /\ errors o = [] /\ properties o = [].
Proof.
  unfold makeMutatedCopy. intros H.
  apply bind_Ok_inv in H as (g & w1 & Eg & H).
  apply bind_Ok_inv in H as (r & w2 & Er & H).
  apply bind_Ok_inv in H as (sp & w3 & Esp & H).
  apply init_inv in H
    as (g1 & adj & Hg1 & _ & _ & Hsome & HN & Hs & Hwr & Hage & Hvalid & He & Hp
        & _).
  subst g1. split; [|split].
  - intros P HP Hself. rewrite Hsome.
    eapply foldM_inv; [|exact Hself|exact Eg].
    intros i b s b' s' Hb Hrow. cbn beta in Hrow.
    eapply foldM_inv; [|exact Hb|exact Hrow].
    intros j c t c' t' Hc Hcell. eapply HP; eauto.
  - rewrite Hs. destruct (Qltb rate r).
    + inversion Esp; subst. now left.
    + apply bind_Ok_inv in Esp as (r' & w4 & _ & Esp). inversion Esp; subst.
      right. apply clamp_unit.
  - repeat split; assumption.
Qed.

(** *** Swapping two cells *)

Lemma replace_nth_perm A (l : list A) i v u :
  nth_error l i = Some u -> Permutation (v :: l) (u :: replace_nth l i v).
Proof.
  revert i. induction l as [|h t IH]; intros [|i] H; cbn in *; try discriminate.
  - inversion H; subst. apply perm_swap.
  - etransitivity; [apply perm_swap|].
    etransitivity; [apply perm_skip, IH, H|]. apply perm_swap.
Qed.

Lemma concat_replace_perm A (m : list (list A)) i row row' :
  nth_error m i = Some row ->
  Permutation (row' ++ concat m) (row ++ concat (replace_nth m i row')).
Proof.
  revert i. induction m as [|h t IH]; intros [|i] H; cbn in *; try discriminate.
  - inversion H; subst. rewrite !app_assoc.
    apply Permutation_app_tail, Permutation_app_comm.
  - etransitivity; [apply Permutation_app_swap_app|].
    etransitivity; [apply Permutation_app_head, IH, H|].
    apply Permutation_app_swap_app.
Qed.

Lemma setitem2_perm m i j v m' :
  setitem2 m i j v = Ok m' ->
  exists u, getitem2 m i j = Ok u /\ Permutation (v :: concat m) (u :: concat m').
Proof.
  intros H. apply setitem2_Ok in H as (row & u & Hr & Hu & ->).
  exists u. split.
  - unfold getitem2, getitem. rewrite Hr. cbn [rbind]. now rewrite Hu.
  - set (row' := replace_nth row j v).
    pose proof (@concat_replace_perm Q m i row row' Hr) as Hm.
    pose proof (@replace_nth_perm Q row j v u Hu) as Hrow. fold row' in Hrow.
    apply Permutation_app_inv_l with (l := row').
    etransitivity; [symmetry; apply Permutation_middle|].
    etransitivity; [apply perm_skip, Hm|].
    etransitivity; [|apply Permutation_middle].
    change (Permutation ((v :: row) ++ concat (replace_nth m i row'))
                        ((u :: row') ++ concat (replace_nth m i row'))).
    apply Permutation_app_tail, Hrow.
Qed.

Lemma getitem2_setitem2 m i j v m' i' j' :
  setitem2 m i j v = Ok m' ->
  getitem2 m' i' j' = if ((i' =? i) && (j' =? j))%nat then Ok v else getitem2 m i' j'.
Proof.
  intros H. apply setitem2_Ok in H as (row & u & Hr & Hu & ->).
  assert (Hi : (i < length m)%nat) by (apply nth_error_Some; congruence).
  assert (Hj : (j < length row)%nat) by (apply nth_error_Some; congruence).
  unfold getitem2, getitem. rewrite replace_nth_lookup by exact Hi.
  destruct (Nat.eqb_spec i' i) as [->|Hne]; cbn [andb rbind].
  - rewrite replace_nth_lookup by exact Hj. rewrite Hr. cbn [rbind].
    destruct (Nat.eqb_spec j' j); reflexivity.
  - reflexivity.
Qed.

Lemma swap_perm g0 d :
  kept_by_writes [0; 0; 0; d]%Z (fun g => Permutation (concat g0) (concat g)).
Proof.
  intros N rate i j g w g' w' Hg H. unfold mutate_cell in H.
  rewrite thresholds_four in H.
  apply bind_Ok_inv in H as (r & w1 & _ & H).
  destruct (Qleb r rate); [|inversion H; subst; exact Hg].
  apply bind_Ok_inv in H as (ty & w2 & Ety & H). apply randint_range in Ety.
  apply bind_Ok_inv in H as (t0 & w3 & E0 & H). apply lift_Ok_inv in E0.
  cbn in E0. injection E0 as <-.
  destruct (Z.leb_spec ty 0); [lia|].
  apply bind_Ok_inv in H as (t1 & w4 & E1 & H). apply lift_Ok_inv in E1.
  cbn in E1. injection E1 as <-.
  destruct (Z.leb_spec ty 0); [lia|].
  apply bind_Ok_inv in H as (t2 & w5 & E2 & H). apply lift_Ok_inv in E2.
  cbn in E2. injection E2 as <-.
  destruct (Z.leb_spec ty 0); [lia|].
  apply bind_Ok_inv in H as (t3 & w6 & _ & H).
  destruct (ty <=? t3)%Z; [|discriminate].
  apply bind_Ok_inv in H as (edge1 & w7 & Eedge & H). apply lift_Ok_inv in Eedge.
  apply bind_Ok_inv in H as (iswap & w8 & _ & H).
  apply bind_Ok_inv in H as (jswap & w9 & _ & H).
  apply bind_Ok_inv in H as (swapped & w10 & Eswap & H). apply lift_Ok_inv in Eswap.
  apply bind_Ok_inv in H as (g1 & w11 & Eg1 & H). apply lift_Ok_inv in Eg1.
  apply lift_Ok_inv in H.
  pose proof (@getitem2_setitem2 _ _ _ _ _ (Z.to_nat iswap) (Z.to_nat jswap) Eg1) as Hread.
  assert (Hswapped : getitem2 g1 (Z.to_nat iswap) (Z.to_nat jswap) = Ok swapped).
  { rewrite Hread. destruct (_ && _); [reflexivity|exact Eswap]. }
  apply setitem2_perm in Eg1 as (u & Eu & P1).
  apply setitem2_perm in H as (u' & Eu' & P2).
  rewrite Eedge in Eu. injection Eu as <-.
  rewrite Hswapped in Eu'. injection Eu' as <-.
  etransitivity; [exact Hg|].
  apply Permutation_cons_inv with (a := swapped).
  etransitivity; [exact P1|exact P2].
Qed.

(** The child of a mutation has the parent's number of nodes, range and
    age, a genome of the parent's shape, no cached property or error and the
    flag [valid] set. *)
Theorem mutation_keeps_frame self rate odds w o w' :
  makeMutatedCopy self rate odds w = (Ok o, w') ->
  shape (genotypeMatrix o) = shape (genotypeMatrix self) /\
  numNodes o = numNodes self /\ weightRange o = weightRange self /\
  age o = age self /\ valid o = true /\ errors o = [] /\ properties o = [].
Proof.
  intros H. apply makeMutatedCopy_inv in H as (Hg & _ & Hrest).
  split; [|exact Hrest].
  apply (Hg (fun g => shape g = shape (genotypeMatrix self)));
    [apply shape_kept|reflexivity].
Qed.

(** Mutation keeps genes and sparsity in the unit interval: if every gene
    of the parent lies in [0, 1], so does every gene of the child, and if
    the parent's sparsity lies in [0, 1], so does the child's. *)
Theorem mutation_keeps_unit_interval self rate odds w o w' :
  makeMutatedCopy self rate odds w = (Ok o, w') ->
  (Forall (Forall unit_gene) (genotypeMatrix self) ->
   Forall (Forall unit_gene) (genotypeMatrix o)) /\
  (unit_gene (sparsity self) -> unit_gene (sparsity o)).
Proof.
  intros H. apply makeMutatedCopy_inv in H as (Hg & Hs & _). split.
  - apply Hg, unit_kept.
  - intros Hself. destruct Hs as [->|Hs]; assumption.
Qed.

(** With every weight on the swap operator, mutation only moves genes: the
    child's genes are the parent's genes in another order. *)
Theorem swap_mutation_permutes self rate d w o w' :
  makeMutatedCopy self rate [0; 0; 0; d]%Z w = (Ok o, w') ->
  Permutation (concat (genotypeMatrix self)) (concat (genotypeMatrix o)).
Proof.
  intros H. apply makeMutatedCopy_inv in H as (Hg & _).
  apply (Hg (fun g => Permutation (concat (genotypeMatrix self)) (concat g)));
    [apply swap_perm|reflexivity].
Qed.

(** An instance: a run of swaps on [two_nodes]. *)
Lemma mutation_keeps_frame_witness :
  makeMutatedCopy two_nodes 1 [0; 0; 0; 1]%Z (world_of [0; 0; 1; 1]%Z)
  = (Ok swapped_child,
     snd (makeMutatedCopy two_nodes 1 [0; 0; 0; 1]%Z (world_of [0; 0; 1; 1]%Z))) /\
  shape (genotypeMatrix swapped_child) = shape (genotypeMatrix two_nodes) /\
  age swapped_child = age two_nodes.
Proof.
  assert (Hrun : makeMutatedCopy two_nodes 1 [0; 0; 0; 1]%Z (world_of [0; 0; 1; 1]%Z)
                 = (Ok swapped_child,
                    snd (makeMutatedCopy two_nodes 1 [0; 0; 0; 1]%Z
                                         (world_of [0; 0; 1; 1]%Z))))
    by reflexivity.
  split; [exact Hrun|].
  destruct (@mutation_keeps_frame _ _ _ _ _ _ Hrun) as (Hshape & _ & _ & Hage & _).
  split; assumption.
Defined.

(** An instance: the same run; the genes of [two_nodes] lie in [0, 1]. *)
Lemma mutation_keeps_unit_interval_witness :
  makeMutatedCopy two_nodes 1 [0; 0; 0; 1]%Z (world_of [0; 0; 1; 1]%Z)
  = (Ok swapped_child,
     snd (makeMutatedCopy two_nodes 1 [0; 0; 0; 1]%Z (world_of [0; 0; 1; 1]%Z))) /\
  Forall (Forall unit_gene) (genotypeMatrix two_nodes) /\
  Forall (Forall unit_gene) (genotypeMatrix swapped_child).
Proof.
  assert (Hrun : makeMutatedCopy two_nodes 1 [0; 0; 0; 1]%Z (world_of [0; 0; 1; 1]%Z)
                 = (Ok swapped_child,
                    snd (makeMutatedCopy two_nodes 1 [0; 0; 0; 1]%Z
                                         (world_of [0; 0; 1; 1]%Z))))
    by reflexivity.
  assert (Hunit : Forall (Forall unit_gene) (genotypeMatrix two_nodes)).
  { repeat constructor; unfold unit_gene; cbn; lra. }
  do 2 (split; [assumption|]).
  destruct (@mutation_keeps_unit_interval _ _ _ _ _ _ Hrun) as (Hgenes & _).
  exact (Hgenes Hunit).
Defined.

(** An instance: the same run. *)
Lemma swap_mutation_permutes_witness :
  makeMutatedCopy two_nodes 1 [0; 0; 0; 1]%Z (world_of [0; 0; 1; 1]%Z)
  = (Ok swapped_child,
     snd (makeMutatedCopy two_nodes 1 [0; 0; 0; 1]%Z (world_of [0; 0; 1; 1]%Z))) /\
  Permutation (concat (genotypeMatrix two_nodes))
              (concat (genotypeMatrix swapped_child)).
Proof.
  assert (Hrun : makeMutatedCopy two_nodes 1 [0; 0; 0; 1]%Z (world_of [0; 0; 1; 1]%Z)
                 = (Ok swapped_child,
                    snd (makeMutatedCopy two_nodes 1 [0; 0; 0; 1]%Z
                                         (world_of [0; 0; 1; 1]%Z))))
    by reflexivity.
  split; [exact Hrun|].
  exact (@swap_mutation_permutes _ _ _ _ _ _ Hrun).
Defined.

(** ** Crossover: ages, rows and rates *)

Lemma tick_tick o generation : tick (tick o generation) generation = tick o generation.
Proof.
  unfold tick. destruct (Z.ltb_spec (clock o) generation) as [H|H].
  - cbn [clock]. now rewrite Z.ltb_irrefl.
  - destruct (Z.ltb_spec (clock o) generation); [lia|reflexivity].
Qed.

Lemma crossed_parents self other rate odds generation w :
  self_after (makeCrossedCopyWith self other rate odds generation w) = tick self generation /\
  other_after (makeCrossedCopyWith self other rate odds generation w) = tick other generation.
Proof.
  unfold makeCrossedCopyWith. destruct (cross _ _ _ _ _). split; reflexivity.
Qed.

(** A parent ages once per generation however often it is crossed: the
    first crossover of a generation adds one to its age and sets its clock,
    a later crossover of the same generation, with whatever partner order,
    rate and odds, leaves it as it is; nothing else of the parent changes. *)
Theorem crossover_ages_once self other rate odds rate' odds' generation w w' :
  let c1 := makeCrossedCopyWith self other rate odds generation w in
  let c2 := makeCrossedCopyWith (self_after c1) (other_after c1) rate' odds'
                                generation w' in
  self_after c2 = self_after c1 /\ other_after c2 = other_after c1 /\
  ((clock self < generation)%Z ->
   age (self_after c1) = (age self + 1)%Z /\ clock (self_after c1) = generation) /\
  ((generation <= clock self)%Z -> self_after c1 = self) /\
  genotypeMatrix (self_after c1) = genotypeMatrix self /\
  errors (self_after c1) = errors self /\
  properties (self_after c1) = properties self.
Proof.
  intros c1 c2.
  destruct (crossed_parents self other rate odds generation w) as [Es Eo].
  destruct (crossed_parents (self_after c1) (other_after c1) rate' odds' generation w')
    as [Es2 Eo2].
  fold c1 in Es, Eo. fold c2 in Es2, Eo2.
  rewrite Es2, Eo2, Es, Eo, !tick_tick.
  repeat split; unfold tick.
  - destruct (Z.ltb_spec (clock self) generation); [reflexivity|lia].
  - destruct (Z.ltb_spec (clock self) generation); [reflexivity|lia].
  - destruct (Z.ltb_spec (clock self) generation); [lia|reflexivity].
  - destruct (clock self <? generation)%Z; reflexivity.
  - destruct (clock self <? generation)%Z; reflexivity.
  - destruct (clock self <? generation)%Z; reflexivity.
Qed.

(** *** Rows of the child *)

Lemma take_row_rows g0 donor other i g g' :
  genotypeMatrix other = donor ->
  rows_from g0 donor g -> take_row other i g = Ok g' -> rows_from g0 donor g'.
Proof.
  intros <- Hg H. unfold take_row in H.
  destruct (getitem (genotypeMatrix other) i) as [row|] eqn:Er; [|discriminate].
  cbn [rbind] in H. apply getitem_Ok in Er. apply setitem_Ok in H as [Hi ->].
  now apply rows_from_step.
Qed.

Lemma cross_inv self other rate odds w o w' :
  cross self other rate odds w = (Ok o, w') ->
  rows_from (genotypeMatrix self) (genotypeMatrix other) (genotypeMatrix o) /\
  numNodes o = numNodes self /\ sparsity o = sparsity self /\
  weightRange o = weightRange self /\ age o = Z.max (age self) (age other) /\
  valid o = true /\ errors o = [] /\ properties o = [].
Proof.
  unfold cross. intros H.
  apply bind_Ok_inv in H as (ty & w1 & _ & H).
  apply bind_Ok_inv in H as (t0 & w2 & _ & H).
  apply bind_Ok_inv in H as (g & w3 & Eg & H).
  apply init_inv in H
    as (g1 & adj & Hg1 & _ & _ & Hsome & HN & Hs & Hwr & Hage & Hvalid & He & Hp & _).
  subst g1. split; [|repeat split; assumption].
  rewrite Hsome.
  assert (Hrows : forall l g0 u g' u',
             rows_from (genotypeMatrix self) (genotypeMatrix other) g0 ->
             @foldM World _ _ (fun i g => lift (take_row other i g)) l g0 u = (Ok g', u') ->
             rows_from (genotypeMatrix self) (genotypeMatrix other) g').
  { intros l g0 u g' u' Hg0 Hf. eapply foldM_inv; [|exact Hg0|exact Hf].
    intros i b s b' s' Hb Hstep. apply lift_Ok_inv in Hstep.
    eapply take_row_rows; eauto. }
  destruct (ty <=? t0)%Z.
  { eapply foldM_inv; [|apply rows_from_refl|exact Eg].
    intros i b s b' s' Hb Hstep. cbn beta in Hstep.
    apply bind_Ok_inv in Hstep as (r & s1 & _ & Hstep).
    destruct (Qleb r rate).
    - apply lift_Ok_inv in Hstep. eapply take_row_rows; eauto.
    - inversion Hstep; subst. exact Hb. }
  apply bind_Ok_inv in Eg as (t1 & w4 & _ & Eg).
  destruct (ty <=? t1)%Z.
  { apply bind_Ok_inv in Eg as (l & w5 & _ & Eg).
    eapply Hrows; [apply rows_from_refl|exact Eg]. }
  apply bind_Ok_inv in Eg as (t2 & w5 & _ & Eg).
  destruct (ty <=? t2)%Z.
  { apply bind_Ok_inv in Eg as (l & w6 & _ & Eg).
    eapply Hrows; [apply rows_from_refl|exact Eg]. }
  inversion Eg; subst. apply rows_from_refl.
Qed.

(** Whatever the strategy drawn, the child of a crossover has as many rows
    as [self] and each row is the row of one parent at the same index; it
    has the nodes, sparsity and range of [self], the age of the older parent
    (after the bookkeeping), no cached property or error and the flag
    [valid] set. *)
Theorem crossover_child_rows self other rate odds generation w o :
  child (makeCrossedCopyWith self other rate odds generation w) = Ok o ->
  rows_from (genotypeMatrix self) (genotypeMatrix other) (genotypeMatrix o) /\
  numNodes o = numNodes self /\ sparsity o = sparsity self /\
  weightRange o = weightRange self /\
  age o = Z.max (age (tick self generation)) (age (tick other generation)) /\
  valid o = true /\ errors o = [] /\ properties o = [].
Proof.
  unfold makeCrossedCopyWith.
  destruct (cross _ _ _ _ _) as [r w'] eqn:E. cbn [child]. intros ->.
  apply cross_inv in E.
  destruct (tick_fields self generation) as (Eg & En & Es & Ew).
  destruct (tick_fields other generation) as (Eg' & _).
  rewrite Eg, Eg', En, Es, Ew in E. exact E.
Qed.

(** *** The two ends of the rate *)

Lemma random_above rate w r w' :
  draws_above rate w -> random w = (Ok r, w') -> rate < r /\ draws_above rate w'.
Proof.
  intros Ha H. unfold random, bind, draw, ret in H. inversion H; subst.
  split; [apply Ha|]. intros n. apply Ha.
Qed.

Lemma draws_above_tape rate w w' :
  tape w' = tape w -> draws_above rate w -> draws_above rate w'.
Proof. intros E Ha n. rewrite E. apply Ha. Qed.

Lemma randint_tape a b w v w' : randint a b w = (Ok v, w') -> tape w' = tape w.
Proof.
  unfold randint. destruct (b <? a)%Z; [discriminate|].
  unfold bind, draw, ret. intros E. now inversion E.
Qed.

Lemma uniform_rows_none other rate l :
  forall g w g' w',
    draws_above rate w ->
    foldM (fun i g =>
             r <- random ;;
             if Qleb r rate then lift (take_row other i g) else ret g)%py
          l g w = (Ok g', w') ->
    g' = g.
Proof.
  induction l as [|i l IH]; intros g w g' w' Ha H; cbn [foldM] in H.
  - now inversion H.
  - apply bind_Ok_inv in H as (g1 & w1 & Estep & H).
    apply bind_Ok_inv in Estep as (r & w2 & Er & Estep).
    destruct (@random_above _ _ _ _ Ha Er) as [Hr Ha2].
    destruct (Qleb_spec r rate); [lra|]. inversion Estep; subst.
    eapply IH; eauto.
Qed.

Lemma traversal_none other rate algorithm w l w' :
  draws_above rate w ->
  xover_traversal_helper other rate algorithm w = (Ok l, w') -> l = [].
Proof.
  intros Ha H. unfold xover_traversal_helper in H.
  destruct (_ || _); [|discriminate].
  apply bind_Ok_inv in H as (s & w1 & Ew & H). inversion H; subst.
  unfold walk_bound in Ew. rewrite Nat.add_1_r in Ew. cbn [walk] in Ew.
  apply bind_Ok_inv in Ew as (r & w2 & Er & Ew).
  destruct (@random_above _ _ _ _ Ha Er) as [Hr _].
  destruct (Qleb_spec r rate); [lra|]. cbn [andb] in Ew.
  inversion Ew; subst. reflexivity.
Qed.

(** When every draw of [random()] exceeds [rateFromOther] (at rate 0: when
    no draw is exactly 0.0), the child of a crossover has the genome of
    [self], whichever strategy is drawn. *)
Theorem crossover_rate_below_draws self other rate odds generation w o :
  draws_above rate w ->
  child (makeCrossedCopyWith self other rate odds generation w) = Ok o ->
  genotypeMatrix o = genotypeMatrix self.
Proof.
  intros Ha. unfold makeCrossedCopyWith.
  destruct (cross _ _ _ _ _) as [res w'] eqn:E. cbn [child]. intros ->.
  destruct (tick_fields self generation) as (Eg & _).
  rewrite <- Eg. unfold cross in E.
  apply bind_Ok_inv in E as (ty & w1 & Ety & E).
  apply randint_tape in Ety.
  pose proof (@draws_above_tape _ _ _ Ety Ha) as Ha1. clear Ha. rename Ha1 into Ha.
  apply bind_Ok_inv in E as (t0 & w2 & E0 & E).
  unfold lift in E0. inversion E0; subst w2.
  apply bind_Ok_inv in E as (g & w3 & Egen & E).
  apply init_inv in E as (g1 & adj & Hg1 & _ & _ & Hsome & _).
  subst g1. rewrite Hsome.
  destruct (ty <=? t0)%Z.
  { eapply uniform_rows_none; eauto. }
  apply bind_Ok_inv in Egen as (t1 & w4 & E1 & Egen).
  unfold lift in E1. inversion E1; subst w4.
  destruct (ty <=? t1)%Z.
  { apply bind_Ok_inv in Egen as (l & w5 & El & Egen).
    apply (@traversal_none _ _ _ _ _ _ Ha) in El. subst l. now inversion Egen. }
  apply bind_Ok_inv in Egen as (t2 & w5 & E2 & Egen).
  unfold lift in E2. inversion E2; subst w5.
  destruct (ty <=? t2)%Z.
  { apply bind_Ok_inv in Egen as (l & w6 & El & Egen).
    apply (@traversal_none _ _ _ _ _ _ Ha) in El. subst l. now inversion Egen. }
  now inversion Egen.
Qed.

Lemma uniform_rows_all other rate :
  1 <= rate ->
  forall n k g w g' w',
    foldM (fun i g =>
             r <- random ;;
             if Qleb r rate then lift (take_row other i g) else ret g)%py
          (seq k n) g w = (Ok g', w') ->
    length g' = length g /\
    forall i, nth_error g' i
              = if ((k <=? i) && (i <? k + n))%nat
                then nth_error (genotypeMatrix other) i else nth_error g i.
Proof.
  intros Hrate. induction n as [|n IH]; intros k g w g' w' H; cbn [seq foldM] in H.
  - inversion H; subst. split; [reflexivity|]. intros i.
    destruct (Nat.leb_spec k i); destruct (Nat.ltb_spec i (k + 0)); cbn; auto; lia.
  - apply bind_Ok_inv in H as (g1 & w1 & Estep & H).
    apply bind_Ok_inv in Estep as (r & w2 & Er & Estep).
    apply random_Ok_unit in Er.
    destruct (Qleb_spec r rate); [|lra]. apply lift_Ok_inv in Estep.
    unfold take_row in Estep.
    destruct (getitem (genotypeMatrix other) k) as [row|] eqn:Erow; [|discriminate].
    cbn [rbind] in Estep. apply getitem_Ok in Erow.
    apply setitem_Ok in Estep as [Hk ->].
    apply IH in H as [Hlen Hrows]. rewrite replace_nth_length in Hlen.
    split; [exact Hlen|]. intros i. rewrite Hrows.
    rewrite replace_nth_lookup by exact Hk.
    destruct (Nat.leb_spec (S k) i); destruct (Nat.ltb_spec i (S k + n));
      destruct (Nat.leb_spec k i); destruct (Nat.ltb_spec i (k + S n));
      destruct (Nat.eqb_spec i k); cbn [andb]; subst; try lia; auto.
Qed.

(** With only the uniform-per-row strategy enabled, a rate of 1 or more and
    parents whose genomes have [self.numNodes] rows each, the child has the
    genome of [other]. *)
Theorem uniform_crossover_full_rate self other rate c generation w o :
  1 <= rate ->
  length (genotypeMatrix self) = numNodes self ->
  length (genotypeMatrix other) = numNodes self ->
  child (makeCrossedCopyWith self other rate [c; 0; 0]%Z generation w) = Ok o ->
  genotypeMatrix o = genotypeMatrix other.
Proof.
  intros Hrate Hself Hother. unfold makeCrossedCopyWith.
  destruct (cross _ _ _ _ _) as [res w'] eqn:E. cbn [child]. intros ->.
  destruct (tick_fields self generation) as (Eg & En & _).
  destruct (tick_fields other generation) as (Eg' & _).
  rewrite <- Eg'. unfold cross in E.
  apply bind_Ok_inv in E as (ty & w1 & Ety & E). apply randint_range in Ety.
  apply bind_Ok_inv in E as (t0 & w2 & E0 & E). apply lift_Ok_inv in E0.
  cbn in E0. injection E0 as <-. cbn in Ety.
  apply bind_Ok_inv in E as (g & w3 & Egen & E).
  apply init_inv in E as (g1 & adj & Hg1 & _ & _ & Hsome & _).
  subst g1. rewrite Hsome.
  destruct (Z.leb_spec ty (c + 0)); [|lia].
  apply (@uniform_rows_all _ _ Hrate) in Egen as [Hlen Hrows].
  apply nth_error_ext. intros i. rewrite Hrows. cbn [Nat.add].
  rewrite En. destruct (Nat.ltb_spec i (numNodes self)); cbn [Nat.leb andb].
  - reflexivity.
  - rewrite Eg, Eg'.
    transitivity (@None (list Q)); [|symmetry]; apply nth_error_None; lia.
Qed.

(** An instance: [one_node], whose clock shows -1, crossed in generation 1. *)
Lemma crossover_ages_once_witness :
  (clock one_node < 1)%Z /\
  age (self_after (makeCrossedCopyWith one_node two_nodes (1 # 2) [1; 1; 1]%Z 1
                                       (world_of [0; 0]%Z)))
  = (age one_node + 1)%Z.
Proof.
  assert (Hclock : (clock one_node < 1)%Z) by (cbn; lia).
  split; [exact Hclock|].
  destruct (@crossover_ages_once one_node two_nodes (1 # 2) [1; 1; 1]%Z (1 # 2)
                                 [1; 1; 1]%Z 1 (world_of [0; 0]%Z) (world_of []))
    as (_ & _ & Hfirst & _).
  exact (proj1 (Hfirst Hclock)).
Defined.

(** An instance: [one_node] crossed with [two_nodes]. *)
Lemma crossover_child_rows_witness :
  child (makeCrossedCopyWith one_node two_nodes (1 # 2) [1; 1; 1]%Z 1
                             (world_of [0; 0]%Z)) = Ok crossed_child /\
  rows_from (genotypeMatrix one_node) (genotypeMatrix two_nodes)
            (genotypeMatrix crossed_child).
Proof.
  assert (Hrun : child (makeCrossedCopyWith one_node two_nodes (1 # 2) [1; 1; 1]%Z 1
                                            (world_of [0; 0]%Z)) = Ok crossed_child)
    by reflexivity.
  split; [exact Hrun|].
  exact (proj1 (@crossover_child_rows _ _ _ _ _ _ _ Hrun)).
Defined.

(** An instance: rate 0 on a tape whose draws are all 2^-53; the strategy
    drawn is the depth-first one. *)
Lemma crossover_rate_below_draws_witness :
  draws_above 0 ones_world /\
  child (makeCrossedCopyWith one_node two_nodes 0 [1; 1; 1]%Z 1 ones_world)
  = Ok unchanged_child /\
  genotypeMatrix unchanged_child = genotypeMatrix one_node.
Proof.
  assert (Ha : draws_above 0 ones_world) by (intros n; reflexivity).
  assert (Hrun : child (makeCrossedCopyWith one_node two_nodes 0 [1; 1; 1]%Z 1
                                            ones_world) = Ok unchanged_child)
    by reflexivity.
  do 2 (split; [assumption|]).
  exact (@crossover_rate_below_draws _ _ _ _ _ _ _ Ha Hrun).
Defined.

(** An instance: [two_nodes] crossed at rate 1 with [swapped_child]. *)
Lemma uniform_crossover_full_rate_witness :
  1 <= 1 /\
  length (genotypeMatrix two_nodes) = numNodes two_nodes /\
  length (genotypeMatrix swapped_child) = numNodes two_nodes /\
  child (makeCrossedCopyWith two_nodes swapped_child 1 [1; 0; 0]%Z 1 (world_of []))
  = Ok replaced_child /\
  genotypeMatrix replaced_child = genotypeMatrix swapped_child.
Proof.
  assert (Hrate : 1 <= 1) by lra.
  assert (Hself : length (genotypeMatrix two_nodes) = numNodes two_nodes)
    by reflexivity.
  assert (Hother : length (genotypeMatrix swapped_child) = numNodes two_nodes)
    by reflexivity.
  assert (Hrun : child (makeCrossedCopyWith two_nodes swapped_child 1 [1; 0; 0]%Z 1
                                            (world_of [])) = Ok replaced_child)
    by reflexivity.
  do 4 (split; [assumption|]).
  exact (@uniform_crossover_full_rate _ _ _ _ _ _ _ Hrate Hself Hother Hrun).
Defined.

(** ** The walk: how long a list it returns *)

Lemma retreat_completed algorithm other N fuel s s' :
  retreat fuel algorithm other N s = Ok s' ->
  (length (completed s) <= N)%nat -> (length (completed s') <= N)%nat.
Proof.
  revert s. induction fuel as [|fuel IH]; intros s H Hc; cbn [retreat] in H.
  - inversion H; subst. exact Hc.
  - destruct (is_empty (available s) && (length (completed s) <? N)%nat
              && negb (is_empty (visited s))) eqn:G.
    2:{ inversion H; subst. exact Hc. }
    apply andb_prop in G as [G _]. apply andb_prop in G as [_ Gc].
    apply Nat.ltb_lt in Gc.
    destruct (pop_frontier algorithm (currentNode s) (visited s)) as [[cur' vis']|];
      [|discriminate]. cbn [rbind] in H.
    destruct (candidates other N cur' vis' (completed s ++ [currentNode s]))
      as [av'|]; [|discriminate]. cbn [rbind] in H.
    apply IH in H; [exact H|]. cbn [completed]. rewrite length_app. cbn [length]. lia.
Qed.

Lemma walk_kept algorithm other rate N fuel :
  forall s w s' w',
    walk fuel algorithm other rate N s w = (Ok s', w') ->
    walk_inv N s -> (length (completed s) <= N)%nat ->
    walk_inv N s' /\ (length (completed s') <= N)%nat.
Proof.
  induction fuel as [|fuel IH]; intros s w s' w' H Hinv Hc; cbn [walk] in H.
  - inversion H; subst. auto.
  - apply bind_Ok_inv in H as (r & w1 & _ & H).
    destruct (Qleb r rate && (length (completed s) <? N)%nat
              && negb (is_empty (available s))).
    2:{ inversion H; subst. auto. }
    apply bind_Ok_inv in H as (x & w2 & Es & H). apply sample1_In in Es.
    apply bind_Ok_inv in H as (av' & w3 & C & H). apply lift_Ok_inv in C.
    apply bind_Ok_inv in H as (s1 & w4 & R & H). apply lift_Ok_inv in R.
    destruct Hinv as (Ind & Ilt & Iav). destruct (Iav _ Es) as [Hx Hnew].
    assert (Hinv1 : walk_inv N (mkWalk x (visited s ++ [x]) (completed s) av')).
    { repeat split; cbn [visited available].
      - apply NoDup_app; repeat split; auto.
        + constructor; [intros []|constructor].
        + intros y Hy [<-|[]]. contradiction.
      - intros y Hy. apply in_app_or in Hy as [Hy|[<-|[]]]; auto.
      - destruct (@candidates_spec _ _ _ _ _ _ _ C H0). assumption.
      - destruct (@candidates_spec _ _ _ _ _ _ _ C H0) as (_ & Hv & _). assumption. }
    destruct (@retreat_spec _ _ _ _ _ _ R Hinv1) as [Hinv' _].
    apply retreat_completed in R; [|exact Hc].
    eapply IH; eauto.
Qed.

(** A list returned by [xover_traversal_helper] is at most twice as long as
    the donor has rows: a frontier of distinct nodes followed by at most [N]
    completed entries. *)
Theorem traversal_length other rate algorithm w l w' :
  xover_traversal_helper other rate algorithm w = (Ok l, w') ->
  (length l <= 2 * length (genotypeMatrix other))%nat.
Proof.
  unfold xover_traversal_helper. intros H.
  destruct ((algorithm =? "DFS")%string || (algorithm =? "BFS")%string);
    [|discriminate].
  apply bind_Ok_inv in H as (s & w1 & Hw & H). inversion H; subst.
  apply walk_kept in Hw as [(Ind & Ilt & _) Hc];
    [|apply walk_start_inv|cbn; lia].
  pose proof (frontier_bounded Ind Ilt). rewrite length_app. lia.
Qed.

(** An instance: the depth-first walk on [one_edge] that returns [1; 1]. *)
Lemma traversal_length_witness :
  xover_traversal_helper one_edge 1 "DFS" (world_of [0; 0; 0; 1]%Z)
  = (Ok [1; 1]%nat,
     snd (xover_traversal_helper one_edge 1 "DFS" (world_of [0; 0; 0; 1]%Z))) /\
  (length [1; 1]%nat <= 2 * length (genotypeMatrix one_edge))%nat.
Proof.
  assert (Hrun : xover_traversal_helper one_edge 1 "DFS" (world_of [0; 0; 0; 1]%Z)
                 = (Ok [1; 1]%nat,
                    snd (xover_traversal_helper one_edge 1 "DFS"
                                                (world_of [0; 0; 0; 1]%Z))))
    by reflexivity.
  split; [exact Hrun|].
  exact (@traversal_length _ _ _ _ _ _ Hrun).
Defined.

(** An instance: the same walk. *)
Lemma traversal_in_range_witness :
  xover_traversal_helper one_edge 1 "DFS" (world_of [0; 0; 0; 1]%Z)
  = (Ok [1; 1]%nat,
     snd (xover_traversal_helper one_edge 1 "DFS" (world_of [0; 0; 0; 1]%Z))) /\
  Forall (fun i => (i < length (genotypeMatrix one_edge))%nat) [1; 1]%nat.
Proof.
  assert (Hrun : xover_traversal_helper one_edge 1 "DFS" (world_of [0; 0; 0; 1]%Z)
                 = (Ok [1; 1]%nat,
                    snd (xover_traversal_helper one_edge 1 "DFS"
                                                (world_of [0; 0; 0; 1]%Z))))
    by reflexivity.
  split; [exact Hrun|].
  exact (@traversal_in_range _ _ _ _ _ _ Hrun).
Defined.

(** An instance: ten times the bound, on the graph of three nodes. *)
Lemma walk_fuel_enough_witness :
  (walk_bound 3 <= 100)%nat /\
  walk 100 "BFS" two_edges 1 3 (mkWalk 0 [] [] (range 3)) (world_of [0; 0; 0; 1]%Z)
  = walk (walk_bound 3) "BFS" two_edges 1 3 (mkWalk 0 [] [] (range 3))
         (world_of [0; 0; 0; 1]%Z).
Proof.
  assert (Hfuel : (walk_bound 3 <= 100)%nat) by (unfold walk_bound; lia).
  split; [exact Hfuel|].
  exact (@walk_fuel_enough "BFS" two_edges 1 3 100 (world_of [0; 0; 0; 1]%Z) Hfuel).
Defined.

(** An instance: [two_nodes] mutated at rate 0 on [ones_world]. *)
Lemma makeMutatedCopy_rate_zero_witness :
  positive_draws ones_world /\
  makeMutatedCopy two_nodes 0 [1; 1; 1; 1]%Z ones_world
  = __init__ 2 (1 # 2) (-1, 1) (Some [[1 # 4; 3 # 4]; [1 # 2; 1 # 2]]) 0
             (advance 5 ones_world).
Proof.
  assert (Hpos : positive_draws ones_world) by (intros n; discriminate).
  split; [exact Hpos|].
  exact (@makeMutatedCopy_rate_zero two_nodes [1; 1; 1; 1]%Z ones_world Hpos).
Defined.

(** ** Properties and errors: what a call may change *)

Lemma frame_same_refl o : frame_same o o.
Proof. repeat split. Qed.

Lemma frame_same_trans a b c : frame_same a b -> frame_same b c -> frame_same a c.
Proof. unfold frame_same. intuition congruence. Qed.

Lemma caches_kept_refl name o : caches_kept name o o.
Proof. split; intros k v _ H; exact H. Qed.

Lemma caches_kept_trans name a b c :
  caches_kept name a b -> caches_kept name b c -> caches_kept name a c.
Proof.
  intros [E1 P1] [E2 P2]. split; intros k v Hk H.
  - apply E2, E1; assumption.
  - apply P2, P1; assumption.
Qed.

Lemma error_signed_refl name o : error_signed name o o.
Proof. now left. Qed.

Lemma error_signed_trans name a b c :
  error_signed name a b -> error_signed name b c -> error_signed name a c.
Proof.
  intros Hab [Hbc|Hbc]; [|now right].
  destruct Hab as [Hab|(e & He & Hpos)].
  - left. congruence.
  - right. exists e. split; [congruence|exact Hpos].
Qed.

Lemma dict_get_set_other V (d : dict V) k k' v :
  k' <> k -> dict_get (dict_set d k v) k' = dict_get d k'.
Proof.
  intros Hne. induction d as [|[k0 v0] d IH]; cbn.
  - destruct (String.eqb_spec k' k); [contradiction|reflexivity].
  - destruct (String.eqb_spec k k0) as [->|Hk]; cbn.
    + destruct (String.eqb_spec k' k0); [contradiction|reflexivity].
    + destruct (String.eqb_spec k' k0); [reflexivity|exact IH].
Qed.

Lemma Qsquare_nonneg x : 0 <= x ^ 2.
Proof. assert (E : x ^ 2 == x * x) by (cbn; ring). rewrite E. nra. Qed.

Lemma Qsum_from acc l : fold_left Qplus l acc == acc + Qsum l.
Proof.
  unfold Qsum. revert acc. induction l as [|x l IH]; intros acc; cbn [fold_left].
  - ring.
  - rewrite IH, (IH (0 + x)). ring.
Qed.

Lemma Qsum_nonneg l : Forall (fun x => 0 <= x) l -> 0 <= Qsum l.
Proof.
  induction 1 as [|x l Hx _ IH]; [unfold Qsum; cbn; lra|].
  unfold Qsum. cbn [fold_left]. rewrite Qsum_from. lra.
Qed.

Lemma rmap_Forall A B (P : B -> Prop) (f : A -> result B) l l' :
  (forall a b, f a = Ok b -> P b) -> rmap f l = Ok l' -> Forall P l'.
Proof.
  intros Hf H. apply rmap_Forall2 in H.
  induction H; constructor; eauto.
Qed.

Ltac keeps_with refl trans :=
  repeat first
    [ match goal with H : _ |- keeps _ _ => apply H end
    | apply keeps_ret; intros ?; apply refl
    | apply keeps_throw; intros ?; apply refl
    | apply keeps_lift; intros ?; apply refl
    | apply keeps_get; intros ?; apply refl
    | apply keeps_bind; [intros ? ? ?; apply trans | | intros ?] ].

Section Caches.
Variable functions : string -> option (Organism -> result value).
Variable intersecting_area : Q -> Q -> Q -> Q -> Q.

Lemma invalidate_frame : keeps frame_same (modify invalidate).
Proof. apply keeps_modify. intros s. repeat split. Qed.

Lemma store_error_frame name e : keeps frame_same (store_error name e).
Proof. apply keeps_modify. intros s. repeat split. Qed.

Lemma check_constraints_distribution_frame dist mean std eps :
  keeps frame_same (check_constraints_distribution dist mean std eps).
Proof.
  pose proof invalidate_frame as HI.
  unfold check_constraints_distribution.
  keeps_with frame_same_refl frame_same_trans.
  destruct (Qltb eps _); keeps_with frame_same_refl frame_same_trans.
Qed.

Lemma check_constraint_frame mean target_mean std target_std eps :
  keeps frame_same
        (check_constraint intersecting_area mean target_mean std target_std eps).
Proof.
  pose proof invalidate_frame as HI.
  unfold check_constraint.
  keeps_with frame_same_refl frame_same_trans.
  destruct (Qltb _ eps); keeps_with frame_same_refl frame_same_trans.
Qed.

Lemma getProperty_frame name : keeps frame_same (getProperty functions name).
Proof.
  unfold getProperty. keeps_with frame_same_refl frame_same_trans.
  destruct (negb _); keeps_with frame_same_refl frame_same_trans.
  apply keeps_modify. intros s. repeat split.
Qed.

Lemma getError_frame name target _range :
  keeps frame_same (getError functions intersecting_area name target _range).
Proof.
  pose proof getProperty_frame as HP.
  pose proof store_error_frame as HS.
  pose proof check_constraints_distribution_frame as HD.
  pose proof check_constraint_frame as HC.
  unfold getError. keeps_with frame_same_refl frame_same_trans.
  destruct (negb _); keeps_with frame_same_refl frame_same_trans.
  destruct (endswith _ _); [|destruct (_ || _)];
    keeps_with frame_same_refl frame_same_trans.
  - destruct (negb _); keeps_with frame_same_refl frame_same_trans.
  - match goal with p : (Q * Q)%type |- _ => destruct p as [mean std] end.
    keeps_with frame_same_refl frame_same_trans.
    destruct (negb _); keeps_with frame_same_refl frame_same_trans.
Qed.

(** Reading a property, computing an error and running a feasibility test
    leave the identity, ages, genome, adjacency matrix and counts of the
    organism as they were, whatever the outcome. *)
Theorem observers_keep_structure :
  (forall name, keeps frame_same (getProperty functions name)) /\
  (forall name target _range,
      keeps frame_same (getError functions intersecting_area name target _range)) /\
  (forall dist mean std eps,
      keeps frame_same (check_constraints_distribution dist mean std eps)) /\
  (forall mean target_mean std target_std eps,
      keeps frame_same
            (check_constraint intersecting_area mean target_mean std target_std eps)).
Proof.
  split; [exact getProperty_frame|]. split; [exact getError_frame|].
  split; [exact check_constraints_distribution_frame|exact check_constraint_frame].
Qed.

Lemma getProperty_step name self :
  match dict_get (properties self) name with
  | Some v => getProperty functions name self = (Ok v, self)
  | None =>
      match functions name with
      | None => getProperty functions name self = (Raise KeyError, self)
      | Some f =>
          match f self with
          | Raise e => getProperty functions name self = (Raise e, self)
          | Ok v =>
              getProperty functions name self
              = (Ok v, set_properties (dict_set (properties self) name v) self)
          end
      end
  end.
Proof.
  unfold getProperty, bind, get, lift, modify, ret, dict_item, dict_mem.
  destruct (dict_get (properties self) name) as [v|] eqn:E; cbn.
  - now rewrite E.
  - destruct (functions name) as [f|]; [|reflexivity].
    destruct (f self) as [v|e]; [|reflexivity]. cbn. now rewrite dict_get_set.
Qed.

Lemma getProperty_caches name : keeps (caches_kept None) (getProperty functions name).
Proof.
  intros self. pose proof (getProperty_step name self) as H.
  destruct (dict_get (properties self) name) as [v|] eqn:E.
  - rewrite H. apply caches_kept_refl.
  - destruct (functions name) as [f|]; [|rewrite H; apply caches_kept_refl].
    destruct (f self) as [v|e]; rewrite H; [|apply caches_kept_refl].
    split; intros k u _ Hk; cbn; [exact Hk|].
    destruct (String.eqb_spec k name) as [->|Hne]; [congruence|].
    now rewrite dict_get_set_other.
Qed.

Lemma caches_kept_weaken name before after :
  caches_kept None before after -> caches_kept (Some name) before after.
Proof. intros [He Hp]. split; [|exact Hp]. intros k v _. apply He. discriminate. Qed.

Lemma store_error_caches name e :
  keeps (caches_kept (Some name)) (store_error name e).
Proof.
  apply keeps_modify. intros s. split; intros k v Hk H; cbn; [|exact H].
  rewrite dict_get_set_other; [exact H|]. congruence.
Qed.

Lemma invalidate_caches name : keeps (caches_kept name) (modify invalidate).
Proof. apply keeps_modify. intros s. split; intros k v _ H; exact H. Qed.

Lemma getError_caches_but name target _range :
  keeps (caches_kept (Some name))
        (getError functions intersecting_area name target _range).
Proof.
  assert (HP : forall n, keeps (caches_kept (Some name)) (getProperty functions n)).
  { intros n s. apply caches_kept_weaken, getProperty_caches. }
  pose proof (store_error_caches name) as HS.
  pose proof (invalidate_caches (Some name)) as HI.
  unfold getError, check_constraints_distribution, check_constraint.
  keeps_with caches_kept_refl caches_kept_trans.
  destruct (negb _); keeps_with caches_kept_refl caches_kept_trans.
  destruct (endswith _ _); [|destruct (_ || _)];
    keeps_with caches_kept_refl caches_kept_trans.
  - destruct (negb _); keeps_with caches_kept_refl caches_kept_trans.
    destruct (Qltb _ _); keeps_with caches_kept_refl caches_kept_trans.
  - match goal with p : (Q * Q)%type |- _ => destruct p as [mean std] end.
    keeps_with caches_kept_refl caches_kept_trans.
    destruct (negb _); keeps_with caches_kept_refl caches_kept_trans.
    destruct (Qltb _ _); keeps_with caches_kept_refl caches_kept_trans.
Qed.

Lemma getError_cached name target _range self e :
  dict_get (errors self) name = Some e ->
  getError functions intersecting_area name target _range self = (Ok e, self).
Proof.
  intros H. unfold getError, bind, get, ret, lift, dict_item.
  rewrite (dict_mem_some _ _ H). cbn. now rewrite H.
Qed.

Lemma getError_returns_entry name target _range self e self' :
  getError functions intersecting_area name target _range self = (Ok e, self') ->
  dict_get (errors self') name = Some e.
Proof.
  unfold getError. intros H.
  apply bind_Ok_inv in H as (s0 & s1 & _ & H).
  apply bind_Ok_inv in H as (u & s2 & _ & H).
  apply bind_Ok_inv in H as (s3 & s4 & Eget & H).
  unfold get in Eget. inversion Eget; subst.
  unfold lift, dict_item in H.
  destruct (dict_get (errors _) name) as [v|] eqn:Ev; inversion H; subst. exact Ev.
Qed.

(** The two caches only grow: an entry that [properties] or [errors] holds
    before a call of [getProperty] or [getError] is there after it, with the
    same value, whatever the outcome of the call. *)
Theorem caches_only_grow :
  (forall name, keeps (caches_kept None) (getProperty functions name)) /\
  (forall name target _range,
      keeps (caches_kept None)
            (getError functions intersecting_area name target _range)).
Proof.
  split; [exact getProperty_caches|].
  intros name target _range self.
  destruct (dict_get (errors self) name) as [e|] eqn:E.
  - rewrite (getError_cached _ _ _ _ E). apply caches_kept_refl.
  - destruct (getError_caches_but name target _range self) as [He Hp].
    split; [|exact Hp]. intros k v _ Hk.
    apply He; [|exact Hk]. intros Hs. inversion Hs; subst. congruence.
Qed.

(** A property is evaluated once: after a call of [getProperty] that
    returned a value, every call for the same name returns that value and
    leaves the organism as it is, whatever registry it is given. *)
Theorem getProperty_memo name self v self' :
  getProperty functions name self = (Ok v, self') ->
  forall registry', getProperty registry' name self' = (Ok v, self').
Proof.
  intros H registry'.
  assert (Hentry : dict_get (properties self') name = Some v).
  { unfold getProperty in H.
    apply bind_Ok_inv in H as (s0 & s1 & _ & H).
    apply bind_Ok_inv in H as (u & s2 & _ & H).
    apply bind_Ok_inv in H as (s3 & s4 & Eget & H).
    unfold get in Eget. inversion Eget; subst.
    unfold lift, dict_item in H.
    destruct (dict_get (properties _) name) as [x|] eqn:Ex; inversion H; subst.
    exact Ex. }
  unfold getProperty, bind, get, ret, lift, dict_item.
  rewrite (dict_mem_some _ _ Hentry). cbn. now rewrite Hentry.
Qed.

(** A call of [getProperty] that raises (no evaluator under the name, or
    the evaluator raises) leaves the organism as it was. *)
Theorem getProperty_failure name self e :
  fst (getProperty functions name self) = Raise e ->
  snd (getProperty functions name self) = self /\
  dict_get (properties self) name = None.
Proof.
  pose proof (getProperty_step name self) as H.
  destruct (dict_get (properties self) name) as [v|].
  - rewrite H. discriminate.
  - destruct (functions name) as [f|]; [|rewrite H; auto].
    destruct (f self) as [v|e']; rewrite H; [discriminate|auto].
Qed.

End Caches.

(** An error is computed once: after a call of [getError] that returned an
    error, every call for the same name returns that error and leaves the
    organism as it is, whatever target, range, registry and overlap integral
    it is given. *)
Theorem getError_memo functions area name target _range self e self' :
  getError functions area name target _range self = (Ok e, self') ->
  forall functions' area' target' range',
    getError functions' area' name target' range' self' = (Ok e, self').
Proof.
  intros H functions' area' target' range'.
  apply getError_returns_entry in H. now apply getError_cached.
Qed.

(** ** Errors: the values *)

Lemma keeps_bind_post S (R : S -> S -> Prop) A B (Q : A -> Prop)
    (m : M S A) (k : A -> M S B) :
  (forall a b c, R a b -> R b c -> R a c) ->
  keeps R m ->
  (forall s a s', m s = (Ok a, s') -> Q a) ->
  (forall a, Q a -> keeps R (k a)) ->
  keeps R (bind m k).
Proof.
  intros Htrans Hm HQ Hk s. unfold bind. specialize (Hm s). specialize (HQ s).
  destruct (m s) as [[a|e] s']; cbn in *; [|assumption].
  eapply Htrans; [exact Hm|]. apply Hk. eapply HQ. reflexivity.
Qed.

(** The comprehension over [range(len(ds))] that reads [ds[i]] and [ts[i]]. *)
Lemma rmap_pairs (F : Q -> Q -> Q) ds ts :
  forall pd pt,
    length pd = length pt ->
    rmap (fun i => d <~ getitem (pd ++ ds) i ;; t <~ getitem (pt ++ ts) i ;;
                   Ok (F d t))%py
         (seq (length pd) (length ds))
    = if (length ds <=? length ts)%nat
      then Ok (map (fun p => F (fst p) (snd p)) (combine ds ts))
      else Raise IndexError.
Proof.
  revert ts. induction ds as [|d ds IH]; intros ts pd pt Hlen; cbn [length seq rmap].
  - reflexivity.
  - unfold getitem at 1. rewrite nth_error_app2 by lia.
    rewrite Nat.sub_diag. cbn [nth_error rbind].
    unfold getitem at 1. rewrite Hlen, nth_error_app2 by lia. rewrite Nat.sub_diag.
    destruct ts as [|t ts]; cbn [nth_error rbind].
    + reflexivity.
    + specialize (IH ts (pd ++ [d]) (pt ++ [t])).
      rewrite !length_app in IH. cbn [length] in IH.
      rewrite <- !app_assoc in IH. cbn [app] in IH.
      rewrite Hlen, Nat.add_1_r in IH. rewrite IH by lia.
      cbn [length]. change (S (length ds) <=? S (length ts))%nat
        with (length ds <=? length ts)%nat.
      destruct (length ds <=? length ts)%nat; reflexivity.
Qed.

Lemma rmap_index_pairs (F : Q -> Q -> Q) ds ts :
  rmap (fun i => d <~ index (VSeq ds) i ;; t <~ index (VSeq ts) i ;; Ok (F d t))%py
       (range (length ds))
  = if (length ds <=? length ts)%nat
    then Ok (map (fun p => F (fst p) (snd p)) (combine ds ts))
    else Raise IndexError.
Proof. exact (@rmap_pairs F ds ts [] [] eq_refl). Qed.

Section Values.
Variable functions : string -> option (Organism -> result value).
Variable intersecting_area : Q -> Q -> Q -> Q -> Q.

Lemma check_constraints_distribution_errors dist mean std eps self :
  errors (snd (check_constraints_distribution dist mean std eps self)) = errors self.
Proof.
  pose proof (check_constraints_distribution_writes dist mean std eps self) as H.
  destruct (check_constraints_distribution dist mean std eps self) as [r self'].
  cbn. destruct H as [->| ->]; reflexivity.
Qed.

Lemma errors_same_signed name (A : Type) (m : M Organism A) :
  (forall s, errors (snd (m s)) = errors s) -> keeps (error_signed name) m.
Proof. intros H s. left. now rewrite H. Qed.

Lemma store_error_signed name e : 0 <= e -> keeps (error_signed name) (store_error name e).
Proof.
  intros He. apply keeps_modify. intros s. right. exists e. split; [|exact He].
  cbn. apply dict_get_set.
Qed.

Lemma getError_signed name target _range :
  keeps (error_signed name) (getError functions intersecting_area name target _range).
Proof.
  assert (HP : forall n, keeps (error_signed name) (getProperty functions n)).
  { intros n. apply errors_same_signed. apply getProperty_errors. }
  assert (HD : forall d m s e,
             keeps (error_signed name) (check_constraints_distribution d m s e)).
  { intros. apply errors_same_signed. apply check_constraints_distribution_errors. }
  assert (HC : forall a b c d e,
             keeps (error_signed name)
                   (check_constraint intersecting_area a b c d e)).
  { intros. apply errors_same_signed. apply check_constraint_errors. }
  pose proof (@error_signed_trans name) as Htrans.
  pose proof (@error_signed_refl name) as Hrefl.
  unfold getError.
  apply keeps_bind; [exact Htrans|apply keeps_get; exact Hrefl|intros self].
  apply keeps_bind; [exact Htrans| |intros u; keeps_with Hrefl Htrans].
  destruct (negb _); [|apply keeps_ret; exact Hrefl].
  destruct (endswith _ _); [|destruct (_ || _)].
  - apply keeps_bind; [exact Htrans|apply HP|intros dist].
    apply keeps_bind; [exact Htrans|apply keeps_lift; exact Hrefl|intros n].
    apply keeps_bind_post
      with (Q := Forall (fun x => 0 <= x)); [exact Htrans| | |].
    + apply keeps_lift. exact Hrefl.
    + intros s terms s' E. apply lift_Ok_inv in E.
      eapply rmap_Forall; [|exact E]. intros i b Hb. cbn beta in Hb.
      destruct (index dist i); [|discriminate]. cbn [rbind] in Hb.
      destruct (index target i); [|discriminate]. cbn [rbind] in Hb.
      inversion Hb; subst. apply Qsquare_nonneg.
    + intros terms Hterms.
      apply keeps_bind; [exact Htrans| |intros u].
      * apply store_error_signed, Qsum_nonneg, Hterms.
      * destruct (negb _); [apply HD|apply keeps_ret; exact Hrefl].
  - apply keeps_bind; [exact Htrans|apply HP|intros pair].
    apply keeps_bind; [exact Htrans|apply keeps_lift; exact Hrefl|intros [mean std]].
    apply keeps_bind; [exact Htrans|apply keeps_lift; exact Hrefl|intros t].
    apply keeps_bind; [exact Htrans|apply keeps_lift; exact Hrefl|intros r].
    apply keeps_bind; [exact Htrans| |intros u].
    + apply store_error_signed.
      pose proof (Qsquare_nonneg (mean - t)). pose proof (Qsquare_nonneg (std - r)).
      lra.
    + destruct (negb _); [apply HC|apply keeps_ret; exact Hrefl].
  - apply keeps_bind; [exact Htrans|apply HP|intros p].
    apply keeps_bind; [exact Htrans|apply keeps_lift; exact Hrefl|intros v].
    apply keeps_bind; [exact Htrans|apply keeps_lift; exact Hrefl|intros t].
    apply store_error_signed, Qsquare_nonneg.
Qed.

(** An error computed by [getError] is not negative: when the name has no
    cached error, the error returned is a square or a sum of squares. *)
Theorem getError_nonnegative name target _range self e self' :
  dict_get (errors self) name = None ->
  getError functions intersecting_area name target _range self = (Ok e, self') ->
  0 <= e.
Proof.
  intros Hnew H.
  pose proof (getError_signed name target _range self) as Hs. rewrite H in Hs.
  apply getError_returns_entry in H. cbn [snd] in Hs.
  destruct Hs as [Hs|(e' & He' & Hpos)]; congruence.
Qed.

(** For a name that is neither a distribution nor one of the two paired
    kinds, with a numeric property and a numeric target, the first call
    stores and returns the squared difference; [_range] is not looked at and
    no feasibility test runs. *)
Theorem getError_scalar name self p t _range self1 :
  endswith name "_distribution" = false ->
  name <> "topology"%string -> name <> "weights"%string ->
  dict_get (errors self) name = None ->
  getProperty functions name self = (Ok (VNum p), self1) ->
  getError functions intersecting_area name (VNum t) _range self
  = (Ok ((p - t) ^ 2),
     set_errors (dict_set (errors self1) name ((p - t) ^ 2)) self1).
Proof.
  intros Hdist Htop Hwei Hnew Hprop.
  unfold getError. unfold bind at 1. unfold get at 1. cbv iota beta.
  unfold bind at 1. rewrite (dict_mem_none _ _ Hnew). cbn [negb].
  rewrite Hdist.
  destruct (String.eqb_spec name "topology"); [contradiction|].
  destruct (String.eqb_spec name "weights"); [contradiction|]. cbn [orb].
  unfold bind at 1. rewrite Hprop.
  unfold bind, lift, store_error, modify, get, dict_item. cbn.
  now rewrite dict_get_set.
Qed.

(** For a name with the distribution suffix, a property [ds] and a target
    [ts], both sequences: when the target is at least as long as the
    property, the first call stores and returns the sum of the squared
    differences over the positions of the property (a longer target's tail
    is ignored), and the distribution test runs on the outcome if and only
    if [_range] is given; when the target is shorter, the call raises
    [IndexError] after the property was cached and before any error is. *)
Theorem getError_distribution name self ds ts _range self1 :
  endswith name "_distribution" = true ->
  dict_get (errors self) name = None ->
  getProperty functions name self = (Ok (VSeq ds), self1) ->
  ((length ds <= length ts)%nat ->
   let e := Qsum (map (fun p => (fst p - snd p) ^ 2) (combine ds ts)) in
   let stored := set_errors (dict_set (errors self1) name e) self1 in
   let checked :=
     if is_none _range then (Ok tt, stored)
     else check_constraints_distribution (VSeq ds) (VSeq ts) _range
                                         eps_distribution stored in
   getError functions intersecting_area name (VSeq ts) _range self
   = (match fst checked with Ok _ => Ok e | Raise x => Raise x end, snd checked)) /\
  ((length ts < length ds)%nat ->
   getError functions intersecting_area name (VSeq ts) _range self
   = (Raise IndexError, self1)).
Proof.
  intros Hdist Hnew Hprop.
  assert (Hstart : getError functions intersecting_area name (VSeq ts) _range self
                   = bind
                       (bind (lift (rmap (fun i => d <~ index (VSeq ds) i ;;
                                                   t <~ index (VSeq ts) i ;;
                                                   Ok ((d - t) ^ 2))%py
                                         (range (length ds))))
                             (fun terms =>
                                bind (store_error name (Qsum terms))
                                     (fun _ =>
                                        if negb (is_none _range)
                                        then check_constraints_distribution
                                               (VSeq ds) (VSeq ts) _range
                                               eps_distribution
                                        else ret tt)))
                       (fun _ => bind get (fun self' =>
                                   lift (dict_item (errors self') name)))
                       self1).
  { unfold getError. unfold bind at 1. unfold get at 1. cbv iota beta.
    unfold bind at 1. rewrite (dict_mem_none _ _ Hnew). cbn [negb].
    rewrite Hdist. unfold bind at 1. rewrite Hprop.
    unfold bind at 1. unfold lift at 1. cbn [len]. reflexivity. }
  rewrite Hstart, rmap_index_pairs. split.
  - intros Hlen e stored checked.
    destruct (Nat.leb_spec (length ds) (length ts)); [|lia].
    unfold bind at 1. unfold bind at 1. unfold lift at 1.
    unfold bind at 1. unfold store_error at 1. unfold modify at 1.
    fold e. fold stored. subst checked.
    destruct (is_none _range); cbn [negb].
    + unfold ret at 1. unfold bind, get, lift, dict_item. cbn [fst snd].
      unfold stored. cbn [errors set_errors]. now rewrite dict_get_set.
    + pose proof (check_constraints_distribution_errors
                    (VSeq ds) (VSeq ts) _range eps_distribution stored) as Herr.
      destruct (check_constraints_distribution _ _ _ _ stored) as [[u|x] s2];
        cbn [fst snd] in *; [|reflexivity].
      unfold bind, get, lift, dict_item. rewrite Herr.
      unfold stored. cbn [errors set_errors]. now rewrite dict_get_set.
  - intros Hlen. destruct (Nat.leb_spec (length ds) (length ts)); [lia|].
    reflexivity.
Qed.

End Values.

(** An instance: the error that [scored] holds under "topology" survives a
    failing call of [getError] for "weights". *)
Lemma caches_only_grow_witness :
  dict_get (errors scored) "topology" = Some 0 /\
  dict_get (errors (snd (getError registry full_overlap "weights" (VNum 1) (VNum 1)
                                  scored))) "topology" = Some 0.
Proof.
  assert (Hold : dict_get (errors scored) "topology" = Some 0) by reflexivity.
  split; [exact Hold|].
  destruct (caches_only_grow registry full_overlap) as (_ & Herr).
  destruct (Herr "weights"%string (VNum 1) (VNum 1) scored) as [Hkept _].
  apply Hkept; [discriminate|exact Hold].
Defined.

(** An instance: "topology" on [one_node], then again without a registry. *)
Lemma getProperty_memo_witness :
  getProperty registry "topology" one_node = (Ok (VSeq [1; 1]), measured) /\
  getProperty (fun _ => None) "topology" measured = (Ok (VSeq [1; 1]), measured).
Proof.
  assert (Hrun : getProperty registry "topology" one_node
                 = (Ok (VSeq [1; 1]), measured)) by reflexivity.
  split; [exact Hrun|].
  exact (@getProperty_memo registry _ _ _ _ Hrun (fun _ => None)).
Defined.

(** An instance: no evaluator is registered under "weights". *)
Lemma getProperty_failure_witness :
  fst (getProperty registry "weights" one_node) = Raise KeyError /\
  snd (getProperty registry "weights" one_node) = one_node.
Proof.
  assert (Hrun : fst (getProperty registry "weights" one_node) = Raise KeyError)
    by reflexivity.
  split; [exact Hrun|].
  exact (proj1 (@getProperty_failure registry _ _ _ Hrun)).
Defined.

(** An instance: the error of [one_node] for "topology", asked twice. *)
Lemma getError_memo_witness :
  getError registry full_overlap "topology" (VNum 1) (VNum 1) one_node
  = (Ok 0, scored) /\
  getError (fun _ => None) no_overlap "topology" (VNum 5) VNone scored
  = (Ok 0, scored).
Proof.
  assert (Hrun : getError registry full_overlap "topology" (VNum 1) (VNum 1) one_node
                 = (Ok 0, scored)) by reflexivity.
  split; [exact Hrun|].
  exact (@getError_memo _ _ _ _ _ _ _ _ Hrun (fun _ => None) no_overlap (VNum 5) VNone).
Defined.

(** An instance: the same first call. *)
Lemma getError_nonnegative_witness :
  dict_get (errors one_node) "topology" = None /\
  getError registry full_overlap "topology" (VNum 1) (VNum 1) one_node
  = (Ok 0, scored) /\
  0 <= 0.
Proof.
  assert (Hnew : dict_get (errors one_node) "topology" = None) by reflexivity.
  assert (Hrun : getError registry full_overlap "topology" (VNum 1) (VNum 1) one_node
                 = (Ok 0, scored)) by reflexivity.
  do 2 (split; [assumption|]).
  exact (@getError_nonnegative _ _ _ _ _ _ _ _ Hnew Hrun).
Defined.

(** An instance: the scalar property "connectance" of [one_node], 1/2,
    against the target 1/4. *)
Lemma getError_scalar_witness :
  endswith "connectance" "_distribution" = false /\
  "connectance"%string <> "topology"%string /\
  "connectance"%string <> "weights"%string /\
  dict_get (errors one_node) "connectance" = None /\
  fst (getProperty metrics "connectance" one_node) = Ok (VNum (1 # 2)) /\
  fst (getError metrics full_overlap "connectance" (VNum (1 # 4)) VNone one_node)
  = Ok (((1 # 2) - (1 # 4)) ^ 2).
Proof.
  assert (Hdist : endswith "connectance" "_distribution" = false) by reflexivity.
  assert (Htop : "connectance"%string <> "topology"%string) by discriminate.
  assert (Hwei : "connectance"%string <> "weights"%string) by discriminate.
  assert (Hnew : dict_get (errors one_node) "connectance" = None) by reflexivity.
  do 4 (split; [assumption|]). split; [reflexivity|].
  rewrite (@getError_scalar metrics full_overlap "connectance" one_node (1 # 2)
             (1 # 4) VNone (snd (getProperty metrics "connectance" one_node))
             Hdist Htop Hwei Hnew eq_refl).
  reflexivity.
Defined.

(** An instance: the property [1/2; 1/2] against the longer target
    [1/2; 0; 5]. *)
Lemma getError_distribution_witness :
  endswith "degree_distribution" "_distribution" = true /\
  dict_get (errors one_node) "degree_distribution" = None /\
  fst (getProperty metrics "degree_distribution" one_node)
  = Ok (VSeq [1 # 2; 1 # 2]) /\
  (length [1 # 2; 1 # 2]%Q <= length [1 # 2; 0; 5]%Q)%nat /\
  fst (getError metrics full_overlap "degree_distribution" (VSeq [1 # 2; 0; 5])
                VNone one_node)
  = Ok (Qsum [((1 # 2) - (1 # 2)) ^ 2; ((1 # 2) - 0) ^ 2]).
Proof.
  assert (Hdist : endswith "degree_distribution" "_distribution" = true)
    by reflexivity.
  assert (Hnew : dict_get (errors one_node) "degree_distribution" = None)
    by reflexivity.
  assert (Hlen : (length [1 # 2; 1 # 2]%Q <= length [1 # 2; 0; 5]%Q)%nat) by (cbn; lia).
  do 2 (split; [assumption|]). split; [reflexivity|]. split; [assumption|].
  destruct (@getError_distribution metrics full_overlap "degree_distribution"
              one_node [1 # 2; 1 # 2] [1 # 2; 0; 5] VNone
              (snd (getProperty metrics "degree_distribution" one_node))
              Hdist Hnew eq_refl) as (Hlong & _).
  rewrite (Hlong Hlen). reflexivity.
Defined.

(** ** Feasibility tests *)

Lemma rmap_triples (F : Q -> Q -> Q -> bool) ds :
  forall ms ss pd pm ps,
    length pd = length pm -> length pd = length ps ->
    rmap (fun i => x <~ getitem (pd ++ ds) i ;; m <~ getitem (pm ++ ms) i ;;
                   s <~ getitem (ps ++ ss) i ;; Ok (F x m s))%py
         (seq (length pd) (length ds))
    = if ((length ds <=? length ms) && (length ds <=? length ss))%nat
      then Ok (map (fun p => F (fst p) (fst (snd p)) (snd (snd p)))
                   (combine ds (combine ms ss)))
      else Raise IndexError.
Proof.
  induction ds as [|d ds IH]; intros ms ss pd pm ps Hm Hs; cbn [length seq rmap].
  - reflexivity.
  - unfold getitem at 1. rewrite nth_error_app2 by lia.
    rewrite Nat.sub_diag. cbn [nth_error rbind].
    unfold getitem at 1. rewrite Hm, nth_error_app2 by lia. rewrite Nat.sub_diag.
    destruct ms as [|m ms]; cbn [nth_error rbind]; [reflexivity|].
    unfold getitem at 1. rewrite <- Hm, Hs, nth_error_app2 by lia. rewrite Nat.sub_diag.
    destruct ss as [|s ss]; cbn [nth_error rbind].
    { cbn [length]. change (S (length ds) <=? 0)%nat with false.
      now rewrite andb_false_r. }
    specialize (IH ms ss (pd ++ [d]) (pm ++ [m]) (ps ++ [s])).
    rewrite !length_app in IH. cbn [length] in IH.
    rewrite <- !app_assoc in IH. cbn [app] in IH.
    rewrite <- Hs in *. rewrite Nat.add_1_r in IH. rewrite IH by lia.
    cbn [length].
    change (S (length ds) <=? S (length ms))%nat with (length ds <=? length ms)%nat.
    change (S (length ds) <=? S (length ss))%nat with (length ds <=? length ss)%nat.
    destruct (_ && _); reflexivity.
Qed.

Lemma band_flags ds ms ss :
  rmap (fun i => value <~ index (VSeq ds) i ;; m <~ index (VSeq ms) i ;;
                 s <~ index (VSeq ss) i ;;
                 Ok (Qltb value (m - 2 * s) || Qltb (m + 2 * s) value))%py
       (range (length ds))
  = if ((length ds <=? length ms) && (length ds <=? length ss))%nat
    then Ok (map (fun p => out_of_band (fst p) (fst (snd p)) (snd (snd p)))
                 (combine ds (combine ms ss)))
    else Raise IndexError.
Proof. exact (@rmap_triples out_of_band ds ms ss [] [] [] eq_refl eq_refl). Qed.

Lemma outliers_le ds ms ss : (outliers ds ms ss <= length ds)%nat.
Proof.
  unfold outliers. etransitivity; [apply filter_length_le|].
  rewrite length_map, length_combine. lia.
Qed.



(** The distribution test fails without touching the organism: on an empty
    distribution with [ZeroDivisionError], whatever the means and deviations
    are, and on means or deviations shorter than the distribution with
    [IndexError]. *)
Theorem distribution_test_failure ds ms ss mean std eps self :
  check_constraints_distribution (VSeq []) mean std eps self
  = (Raise ZeroDivisionError, self) /\
  ((length ms < length ds)%nat \/ (length ss < length ds)%nat ->
   check_constraints_distribution (VSeq ds) (VSeq ms) (VSeq ss) eps self
   = (Raise IndexError, self)).
Proof.
  split; [reflexivity|].
  intros Hshort. unfold check_constraints_distribution. cbn zeta.
  unfold bind, lift at 1. cbn [len].
  unfold bind, lift at 1. rewrite band_flags.
  assert (E : ((length ds <=? length ms) && (length ds <=? length ss))%nat = false).
  { apply andb_false_iff. rewrite !Nat.leb_gt. exact Hshort. }
  rewrite E. reflexivity.
Qed.

(** The overlap test at its default tolerance of 0.75, for an overlap area
    [a] other than 2: it returns normally, and marks the organism invalid
    exactly when [a] is below 6/7 or above 2; at [a = 2] it raises
    [ZeroDivisionError] and leaves the organism as it is. *)
Theorem overlap_test_verdict (area : Q -> Q -> Q -> Q -> Q) mean tm std ts self :
  let a := area mean std tm ts in
  (~ a == 2 ->
   check_constraint area mean tm std ts eps_overlap self
   = (Ok tt, if Qltb a (6 # 7) || Qltb 2 a then invalidate self else self)) /\
  (a == 2 ->
   check_constraint area mean tm std ts eps_overlap self
   = (Raise ZeroDivisionError, self)).
Proof.
  intros a. unfold check_constraint. cbn zeta. fold a. split.
  - intros Ha.
    assert (Hd : ~ 2 - a == 0) by lra.
    unfold bind, lift. rewrite (truediv_ok _ Hd). unfold eps_overlap.
    assert (Hiff : a / (2 - a) < 75 # 100 <-> a < 6 # 7 \/ 2 < a).
    { destruct (Qlt_le_dec a 2) as [Hlt|Hge].
      - assert (Hp : 0 < 2 - a) by lra. split.
        + intros H. left.
          assert (E : a == a / (2 - a) * (2 - a)) by (field; lra).
          assert (H' : a / (2 - a) * (2 - a) < (75 # 100) * (2 - a))
            by (apply Qmult_lt_compat_r; assumption).
          lra.
        + intros [H|H]; [|lra]. apply Qlt_shift_div_r; [exact Hp|lra].
      - assert (Hp : 0 < a - 2) by lra. split; [intros _; right; lra|intros _].
        assert (E : a / (2 - a) == - (a / (a - 2))) by (field; lra).
        assert (Hq : 0 < a / (a - 2)) by (apply Qlt_shift_div_l; [exact Hp|lra]).
        lra. }
    destruct (Qltb_spec (a / (2 - a)) (75 # 100)) as [H1|H1].
    + apply Hiff in H1.
      destruct (Qltb_spec a (6 # 7)); [reflexivity|].
      destruct (Qltb_spec 2 a); [reflexivity|]. lra.
    + destruct (Qltb_spec a (6 # 7)) as [H2|H2].
      { exfalso. assert (a / (2 - a) < 75 # 100) by (apply Hiff; now left). lra. }
      destruct (Qltb_spec 2 a) as [H3|H3]; [|reflexivity].
      exfalso. assert (a / (2 - a) < 75 # 100) by (apply Hiff; now right). lra.
  - intros Ha. unfold bind, lift, truediv.
    assert (E : Qeq_bool (2 - a) 0 = true) by (apply Qeq_bool_iff; lra).
    rewrite E. reflexivity.
Qed.


Lemma distribution_test_failure_witness :
  check_constraints_distribution (VSeq [0; 5]) (VSeq [0]) (VSeq [1; 1])
                                 eps_distribution one_node
  = (Raise IndexError, one_node).
Proof.
  apply (proj2 (@distribution_test_failure [0; 5] [0] [1; 1] VNone VNone
                  eps_distribution one_node)).
  left. cbn. lia.
Defined.

Lemma overlap_test_verdict_witness :
  check_constraint full_overlap 0 0 1 1 eps_overlap one_node = (Ok tt, one_node).
Proof.
  apply (proj1 (@overlap_test_verdict full_overlap 0 0 1 1 one_node)).
  unfold full_overlap. intros H. discriminate H.
Defined.

(** ** Pareto comparison: meaning and order *)

Lemma gt_loop_spec props A B acc :
  (forall k, In k props -> dict_mem A k = true /\ dict_mem B k = true) ->
  gt_loop props A B acc
  = Ok (forallb (error_le A B) props && (acc || existsb (error_lt A B) props)).
Proof.
  revert acc. induction props as [|k props IH]; intros acc Hkeys; cbn [gt_loop forallb existsb].
  - now rewrite orb_false_r.
  - destruct (Hkeys k (or_introl eq_refl)) as [HA HB].
    apply dict_mem_get in HA as [a Ha]. apply dict_mem_get in HB as [b Hb].
    unfold dict_item, error_le, error_lt. rewrite Ha, Hb. cbn [rbind].
    assert (Hrest : forall k', In k' props -> dict_mem A k' = true /\ dict_mem B k' = true)
      by (intros k' Hk'; apply Hkeys; now right).
    destruct (Qltb_spec b a).
    { destruct (Qleb_spec a b); [lra|reflexivity]. }
    destruct (Qleb_spec a b); [|lra]. cbn [andb].
    destruct (Qltb_spec a b).
    + rewrite IH by exact Hrest. cbn [orb]. now rewrite orb_true_r.
    + rewrite IH by exact Hrest. reflexivity.
Qed.

Lemma gt_loop_raises props A B acc :
  raises_only (eq KeyError) (gt_loop props A B acc).
Proof.
  revert acc. induction props as [|k props IH]; intros acc e; cbn [gt_loop].
  - discriminate.
  - unfold dict_item. destruct (dict_get A k); [|cbn; congruence].
    destruct (dict_get B k); [|cbn; congruence]. cbn [rbind].
    destruct (Qltb _ _); [discriminate|]. destruct (Qltb _ _); apply IH.
Qed.

Lemma keys_mem V (d : dict V) k : In k (keys d) -> dict_mem d k = true.
Proof.
  intros H. destruct (dict_get_keys _ _ H) as [v Hv]. unfold dict_mem. now rewrite Hv.
Qed.

Lemma gt_spec A B :
  keys_within (errors A) (errors B) = true ->
  __gt__ A B = Ok (dominates (errors A) (errors B)).
Proof.
  intros Hk. unfold __gt__, dominates. rewrite gt_loop_spec; [reflexivity|].
  intros k Hin. split; [now apply keys_mem|].
  unfold keys_within in Hk. rewrite forallb_forall in Hk. now apply Hk.
Qed.

(** When every error key of [self] is a key of [other], [self > other]
    returns, and returns true exactly when [self] is nowhere worse and
    somewhere better; the only exception [>] can raise is [KeyError], and
    only when a key of [self] is missing in [other]. *)
Theorem dominance_meaning A B :
  (keys_within (errors A) (errors B) = true ->
   __gt__ A B = Ok (dominates (errors A) (errors B))) /\
  (forall e, __gt__ A B = Raise e ->
             e = KeyError /\ keys_within (errors A) (errors B) = false).
Proof.
  split; [apply gt_spec|].
  intros e H. split.
  - symmetry. exact (@gt_loop_raises _ _ _ _ e H).
  - destruct (keys_within (errors A) (errors B)) eqn:Hk; [|reflexivity].
    rewrite (gt_spec _ _ Hk) in H. discriminate.
Qed.

(** Dominance is transitive: if [A > B] and [B > C] hold, so does
    [A > C]. *)
Theorem dominance_transitive A B C :
  __gt__ A B = Ok true -> __gt__ B C = Ok true -> __gt__ A C = Ok true.
Proof.
  intros HAB HBC.
  pose proof (gt_loop_true_inv _ _ _ _ HAB) as Hab.
  pose proof (gt_loop_true_inv _ _ _ _ HBC) as Hbc.
  assert (Hle : forall k, In k (keys (errors A)) ->
                 exists a b c, dict_get (errors A) k = Some a /\
                               dict_get (errors B) k = Some b /\
                               dict_get (errors C) k = Some c /\ a <= b /\ b <= c).
  { intros k Hk. destruct (Hab k Hk) as (a & b & Ha & Hb & Hle1).
    destruct (Hbc k (dict_get_in_keys _ _ Hb)) as (b' & c & Hb' & Hc & Hle2).
    assert (b' = b) by congruence. subst b'. exists a, b, c. auto. }
  assert (HkAB : keys_within (errors A) (errors B) = true).
  { unfold keys_within. apply forallb_forall. intros k Hk.
    destruct (Hle k Hk) as (a & b & c & _ & Hb & _). now apply dict_mem_some with b. }
  assert (HkAC : keys_within (errors A) (errors C) = true).
  { unfold keys_within. apply forallb_forall. intros k Hk.
    destruct (Hle k Hk) as (a & b & c & _ & _ & Hc & _). now apply dict_mem_some with c. }
  rewrite (gt_spec _ _ HkAB) in HAB. injection HAB as HAB.
  rewrite (gt_spec _ _ HkAC). f_equal.
  unfold dominates in *. apply andb_prop in HAB as [_ Hsome].
  apply andb_true_intro. split.
  - apply forallb_forall. intros k Hk.
    destruct (Hle k Hk) as (a & b & c & Ha & _ & Hc & H1 & H2).
    unfold error_le. rewrite Ha, Hc. destruct (Qleb_spec a c); [reflexivity|lra].
  - apply existsb_exists in Hsome as (k & Hk & Hlt).
    apply existsb_exists. exists k. split; [exact Hk|].
    destruct (Hle k Hk) as (a & b & c & Ha & Hb & Hc & H1 & H2).
    unfold error_lt in *. rewrite Ha, Hb in Hlt. rewrite Ha, Hc.
    destruct (Qltb_spec a b); [|discriminate].
    destruct (Qltb_spec a c); [reflexivity|lra].
Qed.

(** Between two organisms with the same error keys [==] is symmetric, and
    it holds exactly when neither dominates the other. *)
Theorem equivalence_symmetric A B :
  same_keys (errors A) (errors B) = true ->
  __eq__ A B = Ok (negb (dominates (errors A) (errors B))
                   && negb (dominates (errors B) (errors A))) /\
  __eq__ B A = __eq__ A B.
Proof.
  intros Hk. apply andb_prop in Hk as [HAB HBA].
  unfold __eq__, less_than.
  rewrite (gt_spec _ _ HAB), (gt_spec _ _ HBA). cbn [rbind].
  destruct (dominates (errors A) (errors B)), (dominates (errors B) (errors A));
    split; reflexivity.
Qed.

Lemma dominance_meaning_witness :
  __gt__ (with_errors errors_low) (with_errors errors_high) = Ok true.
Proof.
  apply (proj1 (@dominance_meaning (with_errors errors_low) (with_errors errors_high))).
  reflexivity.
Defined.

Lemma dominance_transitive_witness :
  __gt__ (with_errors errors_low) (with_errors errors_worst) = Ok true.
Proof.
  apply (@dominance_transitive (with_errors errors_low) (with_errors errors_high)
           (with_errors errors_worst)); reflexivity.
Defined.

Lemma equivalence_symmetric_witness :
  __eq__ (with_errors errors_high) (with_errors errors_low)
  = __eq__ (with_errors errors_low) (with_errors errors_high).
Proof.
  apply (proj2 (@equivalence_symmetric (with_errors errors_low)
                  (with_errors errors_high) eq_refl)).
Defined.
